(** * A sequential model of the sharded TTL cache (package kvcache)

    The development embeds the cache engine of [kvcache.go] -- shard routing,
    [Set], [Get], [Delete], [evictOldest], the body of one [cleanup] sweep,
    [Clear], [Stats] and [HitRate] -- as executable functions over an explicit
    cache state, and proves the properties the specification states about
    them.  The repository holds two revisions of the engine, which differ in
    [evictOldest]: the later one examines a sample of five entries, the
    earlier one ([kvcache/kvcache.go]) the whole shard.  Both are embedded,
    the earlier one in module [FullScan], and the properties of [Set] are
    proved for both.

    Modelling conventions:
    - Go's [int64], [uint64], [uint32] are integers of [Z] with the
      wrap-around of the machine operation written out; [int] is taken to be
      64 bits wide.
    - [time.Time] is the exact number of nanoseconds since the Unix epoch;
      [Time.Add] is exact and [Time.UnixNano] truncates to [int64].  Every
      call of [time.Now()] in the source is an explicit argument of the
      operation that makes it, in the order of the calls.
    - [map[string]*CacheEntry] is a [gmap string CacheEntry].  Each entry is
      referenced from at most one map slot, so pointers are replaced by the
      records they point to.  The order in which a [range] loop visits a map
      is unspecified in Go: where the outcome depends on it ([evictOldest]),
      the visiting order is an argument of the operation.
    - [sync.Pool] is the list of the entries put and not yet handed out; the
      pool of hash states used by [getShard] is left out, a state being
      reset before every use.
    - An index out of range and a division by zero panic in Go; operations
      that can reach one return [option], with [None] for the panic.
    - [float64] is IEEE 754 binary64 with the operations of [SpecFloat],
      rounding to nearest, ties to even; [float64_real] gives the real
      number a finite [float64] stands for.
    - The locks are not modelled: operations are atomic steps, which is the
      behaviour of any execution in which calls do not overlap. *)

From Stdlib Require Import ZArith String Ascii List Lia.
From Stdlib Require Import Floats.SpecFloat.
From Stdlib Require Import Rbase Rbasic_fun Rfunctions Lra.
From stdpp Require Import gmap strings list fin_maps option.

Local Open Scope Z_scope.

(** ** Machine integers *)

Definition wrap_u32 (z : Z) : Z := z mod 2 ^ 32.
Definition wrap_u64 (z : Z) : Z := z mod 2 ^ 64.
Definition wrap_i64 (z : Z) : Z := (z + 2 ^ 63) mod 2 ^ 64 - 2 ^ 63.

(** [math.MaxInt64], written [1<<63 - 1] in the older source. *)
Definition MaxInt64 : Z := 2 ^ 63 - 1.

(** ** Package time *)

(** [t.Add(d)]: exact for every [time.Duration] and every clock reading. *)
Definition Add (t d : Z) : Z := t + d.

(** [t.UnixNano()]: the [int64] count of nanoseconds, computed in [int64]
    arithmetic by the library. *)
Definition UnixNano (t : Z) : Z := wrap_i64 t.

(** ** Package hash/fnv: the 32-bit FNV-1a hash used by [getShard] *)

Definition offset32 : Z := 2166136261.
Definition prime32 : Z := 16777619.

(** [h.Write(bytes)]: for every byte, xor then multiply modulo [2^32]. *)
Fixpoint fnv32a_Write (h : Z) (s : string) : Z :=
  match s with
  | EmptyString => h
  | String b rest =>
      let c := Z.of_nat (nat_of_ascii b) in
      fnv32a_Write (wrap_u32 (Z.lxor h c * prime32)) rest
  end.

(** [h.Reset(); h.Write([]byte(key)); h.Sum32()]. *)
Definition Sum32 (key : string) : Z := fnv32a_Write offset32 key.

(** Cardinality of a map; the name [size] is the shard's counter below. *)
Abbreviation card m := (base.size m) (only parsing).

(** ** Data model

    [V] is the type of the dynamic values held in an [interface{}]; [None]
    is Go's [nil]. *)

Record CacheEntry (V : Type) : Type := mkEntry {
  Value : option V;
  Expiration : Z;
  lastAccess : Z
}.

Record shard (V : Type) : Type := mkShard {
  store : gmap string (CacheEntry V);
  size : Z
}.

Record KVCache (V : Type) : Type := mkCache {
  shards : list (shard V);
  numShards : Z;
  ttl : Z;
  maxCapacity : Z;
  entryPool : list (CacheEntry V);
  hits : Z;
  misses : Z;
  evictions : Z
}.

Arguments mkEntry {V}.
Arguments Value {V}.
Arguments Expiration {V}.
Arguments lastAccess {V}.
Arguments mkShard {V}.
Arguments store {V}.
Arguments size {V}.
Arguments mkCache {V}.
Arguments shards {V}.
Arguments numShards {V}.
Arguments ttl {V}.
Arguments maxCapacity {V}.
Arguments entryPool {V}.
Arguments hits {V}.
Arguments misses {V}.
Arguments evictions {V}.

Section Engine.
Context {V : Type}.
Implicit Types (c : KVCache V) (s : shard V).

Definition set_shards (c : KVCache V) (l : list (shard V)) : KVCache V :=
  mkCache l (numShards c) (ttl c) (maxCapacity c) (entryPool c)
          (hits c) (misses c) (evictions c).
Definition set_entryPool (c : KVCache V) (p : list (CacheEntry V))
    : KVCache V :=
  mkCache (shards c) (numShards c) (ttl c) (maxCapacity c) p
          (hits c) (misses c) (evictions c).
Definition set_hits (c : KVCache V) (n : Z) : KVCache V :=
  mkCache (shards c) (numShards c) (ttl c) (maxCapacity c) (entryPool c)
          n (misses c) (evictions c).
Definition set_misses (c : KVCache V) (n : Z) : KVCache V :=
  mkCache (shards c) (numShards c) (ttl c) (maxCapacity c) (entryPool c)
          (hits c) n (evictions c).
Definition set_evictions (c : KVCache V) (n : Z) : KVCache V :=
  mkCache (shards c) (numShards c) (ttl c) (maxCapacity c) (entryPool c)
          (hits c) (misses c) n.

(** [sync.Pool] of entries: [Put] adds an entry, [Get] hands out a pooled
    entry or a fresh [&CacheEntry{}].  The fields of the entry handed out are
    all overwritten by [Set], its only user. *)
Definition zeroEntry : CacheEntry V := mkEntry None 0 0.
Definition poolPut (p : list (CacheEntry V)) (e : CacheEntry V)
    : list (CacheEntry V) :=
  e :: p.
Definition poolGet (p : list (CacheEntry V))
    : CacheEntry V * list (CacheEntry V) :=
  match p with
  | e :: rest => (e, rest)
  | [] => (zeroEntry, [])
  end.

(** ** Construction *)

Definition NewKVCacheWithCapacity (defaultTTL maxCapacityPerShard : Z)
    : KVCache V :=
  let numShards := 256 in
  mkCache (replicate (Z.to_nat numShards) (mkShard ∅ 0))
          numShards defaultTTL maxCapacityPerShard [] 0 0 0.

Definition NewKVCache (defaultTTL : Z) : KVCache V :=
  NewKVCacheWithCapacity defaultTTL 0.

(** ** Shard routing *)

(** [h.Sum32() % uint32(c.numShards)]; the modulo panics on zero. *)
Definition shardIndex (c : KVCache V) (key : string) : option nat :=
  let n := wrap_u32 (numShards c) in
  if n =? 0 then None else Some (Z.to_nat (Sum32 key mod n)).

(** [getShard]: the shard pointer is its index in [c.shards], returned with
    the shard's current contents. *)
Definition getShard (c : KVCache V) (key : string) : option (nat * shard V) :=
  idx ← shardIndex c key;
  s ← shards c !! idx;
  Some (idx, s).

(** Writing through the shard pointer obtained from [getShard]. *)
Definition putShard (c : KVCache V) (idx : nat) (s : shard V) : KVCache V :=
  set_shards c (<[idx := s]> (shards c)).

(** ** Expiration test, as written in [Get] and [cleanup] *)

Definition expired (expiration now : Z) : bool :=
  (0 <? expiration) && (expiration <? now).

(** ** Eviction *)

Definition sampleSize : Z := 5.

(** The [range] loop of [evictOldest] over the entries in visiting order,
    carrying [oldestKey], [oldestTime] and [sampled]. *)
Fixpoint sampleLoop (items : list (string * CacheEntry V))
    (oldestKey : string) (oldestTime : Z) (sampled : Z) : string * Z :=
  match items with
  | [] => (oldestKey, oldestTime)
  | (key, entry) :: rest =>
      if sampleSize <=? sampled then (oldestKey, oldestTime)
      else
        let la := lastAccess entry in
        if la <? oldestTime
        then sampleLoop rest key la (sampled + 1)
        else sampleLoop rest oldestKey oldestTime (sampled + 1)
  end.

(** [evictOldest(s)] on a shard with contents [s]; [order]
    is the sequence in which the [range] loop visits the shard's map.
    Returns the cache (pool and eviction counter) and the shard. *)
Definition evictOldest (c : KVCache V) (s : shard V)
    (order : list (string * CacheEntry V)) : KVCache V * shard V :=
  let '(oldestKey, _) := sampleLoop order "" MaxInt64 0 in
  if String.eqb oldestKey "" then (c, s)
  else
    match store s !! oldestKey with
    | Some entry =>
        let s' :=
          mkShard (delete oldestKey (store s)) (wrap_i64 (size s - 1)) in
        let c1 := set_entryPool c (poolPut (entryPool c) entry) in
        let c2 := set_evictions c1 (wrap_u64 (evictions c1 + 1)) in
        (c2, s')
    | None => (c, s)
    end.

(** ** Set *)

(** [Set(key, value, ttl...)], named [Set_] because [Set] is a keyword here.
    [tDefault], [tOverride] and [tAccess] are the
    readings of the three [time.Now()] calls (the second is only made when
    the override applies); [order] is the visiting order used if
    [evictOldest] runs. *)
Definition Set_ (c : KVCache V) (key : string) (value : option V)
    (ttlArgs : list Z) (tDefault tOverride tAccess : Z)
    (order : list (string * CacheEntry V)) : option (KVCache V) :=
  '(idx, s) ← getShard c key;
  let expiration := UnixNano (Add tDefault (ttl c)) in
  let expiration :=
    match ttlArgs with
    | d :: _ => if 0 <? d then UnixNano (Add tOverride d) else expiration
    | [] => expiration
    end in
  let '(c, s) :=
    if (0 <? maxCapacity c) && (maxCapacity c <=? size s) then
      match store s !! key with
      | None => evictOldest c s order
      | Some _ => (c, s)
      end
    else (c, s) in
  let '(entry, c, s) :=
    match store s !! key with
    | Some entry => (entry, c, s)
    | None =>
        let '(entry, pool) := poolGet (entryPool c) in
        (entry, set_entryPool c pool, mkShard (store s) (wrap_i64 (size s + 1)))
    end in
  let entry := mkEntry value (Expiration entry) (lastAccess entry) in
  let entry := mkEntry (Value entry) expiration (lastAccess entry) in
  let entry := mkEntry (Value entry) (Expiration entry) (UnixNano tAccess) in
  Some (putShard c idx (mkShard (<[key := entry]> (store s)) (size s))).

(** ** Get *)

(** [Get(key)].  [tNow] is the reading of the first [time.Now()]; [tFresh]
    the reading re-taken under the write lock, only made on the expired
    path.  Returns the cache and the pair [(value, found)]. *)
Definition Get (c : KVCache V) (key : string) (tNow tFresh : Z)
    : option (KVCache V * (option V * bool)) :=
  '(idx, s) ← getShard c key;
  match store s !! key with
  | None => Some (set_misses c (wrap_u64 (misses c + 1)), (None, false))
  | Some entry =>
      let expiration := Expiration entry in
      let now := UnixNano tNow in
      if expired expiration now then
        let c :=
          match store s !! key with
          | Some freshEntry =>
              let freshExp := Expiration freshEntry in
              let freshNow := UnixNano tFresh in
              if expired freshExp freshNow then
                let s :=
                  mkShard (delete key (store s)) (wrap_i64 (size s - 1)) in
                set_entryPool (putShard c idx s)
                              (poolPut (entryPool c) freshEntry)
              else c
          | None => c
          end in
        Some (set_misses c (wrap_u64 (misses c + 1)), (None, false))
      else
        let entry := mkEntry (Value entry) (Expiration entry) now in
        let value := Value entry in
        let s := mkShard (<[key := entry]> (store s)) (size s) in
        let c := putShard c idx s in
        Some (set_hits c (wrap_u64 (hits c + 1)), (value, true))
  end.

(** ** Delete *)

Definition Delete (c : KVCache V) (key : string) : option (KVCache V) :=
  '(idx, s) ← getShard c key;
  match store s !! key with
  | Some entry =>
      let s := mkShard (delete key (store s)) (wrap_i64 (size s - 1)) in
      Some (set_entryPool (putShard c idx s) (poolPut (entryPool c) entry))
  | None => Some c
  end.

(** ** One sweep of the background cleanup *)

(** Phase 1 of a sweep on one shard: the keys whose entry is expired at
    [now], in visiting order. *)
Definition expiredKeys (s : shard V) (now : Z) : list string :=
  (map_to_list (store s) ≫=
     λ '(key, entry), if expired (Expiration entry) now then [key] else []).

(** Phase 2: every collected key is looked up again and deleted when it is
    still expired. *)
Definition cleanupDelete (now : Z) (acc : shard V * list (CacheEntry V))
    (key : string) : shard V * list (CacheEntry V) :=
  let '(s, pool) := acc in
  match store s !! key with
  | Some entry =>
      if expired (Expiration entry) now
      then (mkShard (delete key (store s)) (wrap_i64 (size s - 1)),
            poolPut pool entry)
      else (s, pool)
  | None => (s, pool)
  end.

Definition cleanupShard (now : Z) (s : shard V) (pool : list (CacheEntry V))
    : shard V * list (CacheEntry V) :=
  let keys := expiredKeys s now in
  if (0 <? Z.of_nat (length keys)) then foldl (cleanupDelete now) (s, pool) keys
  else (s, pool).

(** [for _, shard := range c.shards { body }]: the shards are visited in
    slice order; a body changes its shard and the shared pool. *)
Definition rangeShards
    (body : shard V → list (CacheEntry V) → shard V * list (CacheEntry V))
    (c : KVCache V) : KVCache V :=
  let '(shards', pool) :=
    foldl (λ '(done, pool) s,
             let '(s', pool') := body s pool in
             (done ++ [s'], pool'))
          ([], entryPool c) (shards c) in
  set_entryPool (set_shards c shards') pool.

(** The body of the ticker loop of [cleanup]: [tNow] is the reading of its
    single [time.Now()]. *)
Definition cleanupTick (c : KVCache V) (tNow : Z) : KVCache V :=
  let now := UnixNano tNow in
  rangeShards (cleanupShard now) c.

(** ** Clear *)

(** The loop [for key, entry := range shard.store { delete; Put }] followed
    by [shard.size = 0]. *)
Definition clearShard (s : shard V) (pool : list (CacheEntry V))
    : shard V * list (CacheEntry V) :=
  let '(st, pool') :=
    foldl (λ '(st, pool) '(key, entry), (delete key st, poolPut pool entry))
          (store s, pool) (map_to_list (store s)) in
  (mkShard st 0, pool').

Definition Clear (c : KVCache V) : KVCache V := rangeShards clearShard c.

(** ** Size and Stats *)

Definition Size (c : KVCache V) : Z :=
  foldl (λ total s, wrap_i64 (total + size s)) 0 (shards c).

End Engine.

Arguments NewKVCacheWithCapacity : clear implicits.
Arguments NewKVCache : clear implicits.

(** ** The earlier revision of the engine ([kvcache/kvcache.go])

    That revision differs from the one above in [evictOldest] only, which
    scans the whole shard instead of a sample; [Set] has the same text and
    calls it.  ([Get] re-fetches the entry under different variable names and
    [cleanup] has no stop channel; their effect on the state is the same.) *)

Module FullScan.
Section Engine.
Context {V : Type}.

(** The [range] loop of the earlier [evictOldest], carrying [oldestKey] and
    [oldestTime]. *)
Fixpoint scanLoop (items : list (string * CacheEntry V))
    (oldestKey : string) (oldestTime : Z) : string * Z :=
  match items with
  | [] => (oldestKey, oldestTime)
  | (key, entry) :: rest =>
      let la := lastAccess entry in
      if la <? oldestTime
      then scanLoop rest key la
      else scanLoop rest oldestKey oldestTime
  end.

(** The map holds no nil pointer, so [entry != nil] is the presence test. *)
Definition evictOldest (c : KVCache V) (s : shard V)
    (order : list (string * CacheEntry V)) : KVCache V * shard V :=
  let '(oldestKey, _) := scanLoop order "" MaxInt64 in
  if String.eqb oldestKey "" then (c, s)
  else
    match store s !! oldestKey with
    | Some entry =>
        let s' :=
          mkShard (delete oldestKey (store s)) (wrap_i64 (size s - 1)) in
        let c1 := set_entryPool c (poolPut (entryPool c) entry) in
        let c2 := set_evictions c1 (wrap_u64 (evictions c1 + 1)) in
        (c2, s')
    | None => (c, s)
    end.

Definition Set_ (c : KVCache V) (key : string) (value : option V)
    (ttlArgs : list Z) (tDefault tOverride tAccess : Z)
    (order : list (string * CacheEntry V)) : option (KVCache V) :=
  '(idx, s) ← getShard c key;
  let expiration := UnixNano (Add tDefault (ttl c)) in
  let expiration :=
    match ttlArgs with
    | d :: _ => if 0 <? d then UnixNano (Add tOverride d) else expiration
    | [] => expiration
    end in
  let '(c, s) :=
    if (0 <? maxCapacity c) && (maxCapacity c <=? size s) then
      match store s !! key with
      | None => evictOldest c s order
      | Some _ => (c, s)
      end
    else (c, s) in
  let '(entry, c, s) :=
    match store s !! key with
    | Some entry => (entry, c, s)
    | None =>
        let '(entry, pool) := poolGet (entryPool c) in
        (entry, set_entryPool c pool, mkShard (store s) (wrap_i64 (size s + 1)))
    end in
  let entry := mkEntry value (Expiration entry) (lastAccess entry) in
  let entry := mkEntry (Value entry) expiration (lastAccess entry) in
  let entry := mkEntry (Value entry) (Expiration entry) (UnixNano tAccess) in
  Some (putShard c idx (mkShard (<[key := entry]> (store s)) (size s))).

End Engine.
End FullScan.

(** ** Either revision

    A cache runs one of the two revisions of the engine; they differ in the
    [evictOldest] that [Set] calls. *)

Inductive revision : Type := sampling | fullScan.

Section Revisions.
Context {V : Type}.

Definition evictOldestOf (r : revision) (c : KVCache V) (s : shard V)
    (order : list (string * CacheEntry V)) : KVCache V * shard V :=
  match r with
  | sampling => evictOldest c s order
  | fullScan => FullScan.evictOldest c s order
  end.

Definition SetOf (r : revision) (c : KVCache V) (key : string)
    (value : option V) (ttlArgs : list Z) (tDefault tOverride tAccess : Z)
    (order : list (string * CacheEntry V)) : option (KVCache V) :=
  match r with
  | sampling => Set_ c key value ttlArgs tDefault tOverride tAccess order
  | fullScan =>
      FullScan.Set_ c key value ttlArgs tDefault tOverride tAccess order
  end.

(** ** Batch operations

    [SetMulti] ranges over the map [entries] and calls [Set] on every pair;
    [GetMulti] ranges over the slice [keys] and calls [Get] on every key.
    Both have the same text in the two revisions.  A call is given with the
    clock readings it takes, and a [Set] with the visiting order its
    [evictOldest] would use. *)

Record SetCall : Type := mkSetCall {
  callKey : string;
  callValue : option V;
  callDefault : Z;
  callOverride : Z;
  callAccess : Z;
  callOrder : list (string * CacheEntry V)
}.

(** [SetMulti(entries, ttl...)]: [visits] is the sequence in which the
    [range] loop visits [entries]. *)
Fixpoint SetMulti (r : revision) (c : KVCache V) (visits : list SetCall)
    (ttlArgs : list Z) : option (KVCache V) :=
  match visits with
  | [] => Some c
  | v :: rest =>
      c ← SetOf r c (callKey v) (callValue v) ttlArgs (callDefault v)
                (callOverride v) (callAccess v) (callOrder v);
      SetMulti r c rest ttlArgs
  end.

(** The loop of [GetMulti], carrying the cache and [result]; a request is a
    key of the slice with the two clock readings of its [Get]. *)
Fixpoint GetMultiLoop (c : KVCache V) (reqs : list (string * Z * Z))
    (result : gmap string (option V))
    : option (KVCache V * gmap string (option V)) :=
  match reqs with
  | [] => Some (c, result)
  | (key, tNow, tFresh) :: rest =>
      match Get c key tNow tFresh with
      | Some (c, (value, ok)) =>
          GetMultiLoop c rest (if ok then <[key := value]> result else result)
      | None => None
      end
  end.

Definition GetMulti (c : KVCache V) (reqs : list (string * Z * Z))
    : option (KVCache V * gmap string (option V)) :=
  GetMultiLoop c reqs ∅.

End Revisions.

Arguments SetCall : clear implicits.
Arguments mkSetCall {V}.

(** ** Statistics snapshot *)

Record CacheStats : Type := mkStats {
  Hits : Z;
  Misses : Z;
  Evictions : Z;
  StatsSize : Z
}.

Definition Stats {V} (c : KVCache V) : CacheStats :=
  mkStats (hits c) (misses c) (evictions c) (wrap_u64 (Size c)).

(** IEEE 754 binary64, the [float64] of Go. *)
Definition prec64 : Z := 53.
Definition emax64 : Z := 1024.

(** [float64(n)] for an integer [n]: rounded to nearest, ties to even. *)
Definition float64_of_Z (n : Z) : spec_float :=
  binary_normalize prec64 emax64 n 0 false.

(** [HitRate]: [total] is a [uint64] sum. *)
Definition HitRate (s : CacheStats) : spec_float :=
  let total := wrap_u64 (Hits s + Misses s) in
  if total =? 0 then float64_of_Z 0
  else SFmul prec64 emax64
         (SFdiv prec64 emax64 (float64_of_Z (Hits s)) (float64_of_Z total))
         (float64_of_Z 100).

(** The real number a finite [float64] stands for; infinities and NaN
    stand for none. *)
Definition float64_real (f : spec_float) : option R :=
  match f with
  | S754_zero _ => Some 0%R
  | S754_finite s m e =>
      Some ((if s then -1 else 1) * IZR (Z.pos m) * powerRZ 2 e)%R
  | _ => None
  end.

(** The position of a real number [x] with respect to the grid of step
    [2^e]: at [m * 2^e], or strictly between [m * 2^e] and
    [(m + 1) * 2^e], below, at or above the middle. *)
Definition located (m e : Z) (l : location) (x : R) : Prop :=
  match l with
  | loc_Exact => x = (IZR m * powerRZ 2 e)%R
  | loc_Inexact Lt =>
      (IZR m * powerRZ 2 e < x < (IZR m + 1 / 2) * powerRZ 2 e)%R
  | loc_Inexact Eq => x = ((IZR m + 1 / 2) * powerRZ 2 e)%R
  | loc_Inexact Gt =>
      ((IZR m + 1 / 2) * powerRZ 2 e < x < (IZR m + 1) * powerRZ 2 e)%R
  end.

(** ** Views used in the statements *)

Section Views.
Context {V : Type}.
Implicit Types (c : KVCache V) (s : shard V) (e : CacheEntry V).

(** The struct invariant established by the constructor: [numShards] is the
    length of [shards] and a positive [uint32]. *)
Definition wf c : Prop :=
  0 < numShards c < 2 ^ 32 ∧ length (shards c) = Z.to_nat (numShards c).

(** The deadline [Set] stores, as computed at its first lines. *)
Definition setDeadline c (ttlArgs : list Z) (tDefault tOverride : Z) : Z :=
  match ttlArgs with
  | d :: _ => if 0 <? d then UnixNano (Add tOverride d)
              else UnixNano (Add tDefault (ttl c))
  | [] => UnixNano (Add tDefault (ttl c))
  end.

(** The end of [evictOldest], after the loop has chosen [oldestKey]. *)
Definition removeOldest c s (oldestKey : string) : KVCache V * shard V :=
  if String.eqb oldestKey "" then (c, s)
  else
    match store s !! oldestKey with
    | Some entry =>
        (set_evictions (set_entryPool c (poolPut (entryPool c) entry))
                       (wrap_u64 (evictions c + 1)),
         mkShard (delete oldestKey (store s)) (wrap_i64 (size s - 1)))
    | None => (c, s)
    end.

(** The capacity check of [Set] and the call of [evictOldest] it guards. *)
Definition evictPhase (r : revision) c s (key : string)
    (order : list (string * CacheEntry V)) : KVCache V * shard V :=
  if (0 <? maxCapacity c) && (maxCapacity c <=? size s) then
    match store s !! key with
    | None => evictOldestOf r c s order
    | Some _ => (c, s)
    end
  else (c, s).

(** The rest of [Set]: the entry is taken from the map or from the pool,
    filled in and stored. *)
Definition insertPhase c s (key : string) (value : option V)
    (expiration la : Z) : KVCache V * shard V :=
  match store s !! key with
  | Some _ =>
      (c, mkShard (<[key := mkEntry value expiration la]> (store s)) (size s))
  | None =>
      (set_entryPool c (poolGet (entryPool c)).2,
       mkShard (<[key := mkEntry value expiration la]> (store s))
               (wrap_i64 (size s + 1)))
  end.

(** The write-locked part of the expired path of [Get]: the entry is
    deleted when it is still expired at the re-taken clock reading. *)
Definition lazyDelete c (idx : nat) s (key : string) e (tFresh : Z)
    : KVCache V :=
  if expired (Expiration e) (UnixNano tFresh)
  then set_entryPool
         (putShard c idx
            (mkShard (delete key (store s)) (wrap_i64 (size s - 1))))
         (poolPut (entryPool c) e)
  else c.

(** The three ways a [Get] returns. *)
Inductive GetOutcome c (key : string) (tNow tFresh : Z)
    : KVCache V → option V * bool → Prop :=
  | Get_of_absent idx s :
      getShard c key = Some (idx, s) → store s !! key = None →
      GetOutcome c key tNow tFresh
        (set_misses c (wrap_u64 (misses c + 1))) (None, false)
  | Get_of_expired idx s e :
      getShard c key = Some (idx, s) → store s !! key = Some e →
      expired (Expiration e) (UnixNano tNow) = true →
      GetOutcome c key tNow tFresh
        (set_misses (lazyDelete c idx s key e tFresh)
                    (wrap_u64 (misses c + 1)))
        (None, false)
  | Get_of_live idx s e :
      getShard c key = Some (idx, s) → store s !! key = Some e →
      expired (Expiration e) (UnixNano tNow) = false →
      GetOutcome c key tNow tFresh
        (set_hits
           (putShard c idx
              (mkShard (<[key := mkEntry (Value e) (Expiration e)
                                         (UnixNano tNow)]> (store s))
                       (size s)))
           (wrap_u64 (hits c + 1)))
        (Value e, true).

(** The live-count of a shard agrees with its map, in [int] arithmetic. *)
Definition count_ok s : Prop := size s = wrap_i64 (Z.of_nat (card (store s))).
Definition cache_ok c : Prop := Forall count_ok (shards c).

(** One public operation, or one sweep of the cleanup, of a cache running
    revision [r]. *)
Inductive step (r : revision) : KVCache V → KVCache V → Prop :=
  | step_Set c key value ttlArgs tDefault tOverride tAccess order c' :
      (∀ idx s, getShard c key = Some (idx, s) →
                order ≡ₚ map_to_list (store s)) →
      SetOf r c key value ttlArgs tDefault tOverride tAccess order = Some c' →
      step r c c'
  | step_Get c key tNow tFresh c' res :
      Get c key tNow tFresh = Some (c', res) → step r c c'
  | step_Delete c key c' :
      Delete c key = Some c' → step r c c'
  | step_Clear c : step r c (Clear c)
  | step_cleanup c tNow : step r c (cleanupTick c tNow).

Inductive reachable (r : revision) : KVCache V → Prop :=
  | reach_new defaultTTL maxCapacityPerShard :
      reachable r (NewKVCacheWithCapacity V defaultTTL maxCapacityPerShard)
  | reach_step c c' : reachable r c → step r c c' → reachable r c'.

(** What a [Get] of [key] would look up: the entry of the key in the shard
    it routes to. *)
Definition entryOf c (key : string) : option (CacheEntry V) :=
  '(_, s) ← getShard c key; store s !! key.

(** The number of keys held by all the shards. *)
Definition totalKeys c : nat := sum_list ((λ s, card (store s)) <$> shards c).

(** A run in which the empty string is never [Set] and no access stamp is
    [math.MaxInt64], the two values [evictOldest] starts its search from. *)
Inductive plain_step (r : revision) : KVCache V → KVCache V → Prop :=
  | plain_Set c key value ttlArgs tDefault tOverride tAccess order c' :
      key ≠ "" → UnixNano tAccess < MaxInt64 →
      (∀ idx s, getShard c key = Some (idx, s) →
                order ≡ₚ map_to_list (store s)) →
      SetOf r c key value ttlArgs tDefault tOverride tAccess order = Some c' →
      plain_step r c c'
  | plain_Get c key tNow tFresh c' res :
      UnixNano tNow < MaxInt64 →
      Get c key tNow tFresh = Some (c', res) → plain_step r c c'
  | plain_Delete c key c' :
      Delete c key = Some c' → plain_step r c c'
  | plain_Clear c : plain_step r c (Clear c)
  | plain_cleanup c tNow : plain_step r c (cleanupTick c tNow).

Inductive plain_reachable (r : revision) : KVCache V → Prop :=
  | plain_new defaultTTL maxCapacityPerShard :
      plain_reachable r
        (NewKVCacheWithCapacity V defaultTTL maxCapacityPerShard)
  | plain_next c c' :
      plain_reachable r c → plain_step r c c' → plain_reachable r c'.

(** Every key is held by the shard it routes to. *)
Definition placed c : Prop :=
  ∀ i s k, shards c !! i = Some s → is_Some (store s !! k) →
           shardIndex c k = Some i.

(** A shard of such a run: no key is the empty string, no access stamp is
    [math.MaxInt64]. *)
Definition plain_shard s : Prop :=
  map_Forall (λ k e, k ≠ "" ∧ lastAccess e < MaxInt64) (store s).

(** Such a shard with an exact live-count and at most [cap] keys. *)
Definition shard_fits (cap : Z) s : Prop :=
  count_ok s ∧ plain_shard s ∧ Z.of_nat (card (store s)) ≤ cap.

(** The entries a call of [evictOldest] examines, of those visited. *)
Definition examined (r : revision) (order : list (string * CacheEntry V))
    : list (string * CacheEntry V) :=
  match r with
  | sampling => take (Z.to_nat sampleSize) order
  | fullScan => order
  end.

(** The entry [evictOldest] is specified to remove: position [i] of the
    examined prefix holds [(k, e)], no examined entry has a smaller
    [lastAccess], and every entry examined before it has a larger one. *)
Definition first_min (l : list (string * CacheEntry V)) (i : nat)
    (k : string) e : Prop :=
  l !! i = Some (k, e) ∧
  (∀ j x, l !! j = Some x → lastAccess e ≤ lastAccess x.2) ∧
  (∀ j x, (j < i)%nat → l !! j = Some x → lastAccess e < lastAccess x.2).

End Views.

(** ** Concrete runs

    Clock readings are nanoseconds since the Unix epoch; [t0] is an instant
    in October 2026. *)

Definition t0 : Z := 1793000000000000000.
Definition fiveMinutes : Z := 300000000000.
Definition thirtySeconds : Z := 30000000000.

(** [NewKVCache(5 * time.Minute)], then [Set("user:1", 30)] at [t0]. *)
Definition fresh : KVCache Z := NewKVCache Z fiveMinutes.
Definition user1 : CacheEntry Z := mkEntry (Some 30) (t0 + fiveMinutes) t0.
Definition user1Shard : shard Z := mkShard (<["user:1" := user1]> ∅) 1.
Definition afterSet : KVCache Z := putShard fresh 203 user1Shard.

(** [NewKVCacheWithCapacity(5 * time.Minute, 1)], then [Set("", 1)] at
    [t0]: the shard of the empty key, number 197, is at capacity. *)
Definition bounded : KVCache Z := NewKVCacheWithCapacity Z fiveMinutes 1.
Definition emptyKeyEntry : CacheEntry Z :=
  mkEntry (Some 1) (t0 + fiveMinutes) t0.
Definition emptyKeyShard : shard Z := mkShard (<["" := emptyKeyEntry]> ∅) 1.
Definition boundedFull : KVCache Z := putShard bounded 197 emptyKeyShard.

(** [NewKVCacheWithCapacity(5 * time.Minute, 6)] after six [Set]s, one
    nanosecond apart, on keys that all route to shard 1.  [sixVisit] lists
    the entries of that shard with the oldest, ["key65"], last: one of the
    orders in which a [range] loop may visit them. *)
Definition sixEntry (n : Z) : CacheEntry Z :=
  mkEntry (Some n) (t0 + n + fiveMinutes) (t0 + n).
Definition sixVisit : list (string * CacheEntry Z) :=
  [("key142", sixEntry 1); ("key326", sixEntry 2); ("key353", sixEntry 3);
   ("key403", sixEntry 4); ("key476", sixEntry 5); ("key65", sixEntry 0)].
Definition sixShard : shard Z := mkShard (list_to_map sixVisit) 6.
Definition sixFull : KVCache Z :=
  putShard (NewKVCacheWithCapacity Z fiveMinutes 6) 1 sixShard.

(** [NewKVCache(0)]. *)
Definition zeroTTL : KVCache Z := NewKVCache Z 0.

(** The cache of capacity 1 after [Set("ak", 2)] at [t0]. *)
Definition akEntry : CacheEntry Z := mkEntry (Some 2) (t0 + fiveMinutes) t0.
Definition akShard : shard Z := mkShard (<["ak" := akEntry]> ∅) 1.
Definition boundedAk : KVCache Z := putShard bounded 197 akShard.

(** A [SetMulti] of two pairs and a [GetMulti] of two keys. *)
Definition twoCalls : list (SetCall Z) :=
  [mkSetCall "a" (Some 1) t0 t0 t0 [];
   mkSetCall "b" (Some 2) (t0 + 1) (t0 + 1) (t0 + 1) []].
Definition twoKeys : list (string * Z * Z) :=
  [("user:1", t0 + 1, t0 + 1); ("nobody", t0 + 2, t0 + 2)].

(** The shape of a concrete cache is checked by evaluation. *)
Ltac wf_by_computation :=
  split; [split; vm_compute; reflexivity|vm_compute; reflexivity].

(** ** Arithmetic of the machine integers *)

Lemma wrap_i64_small z : - 2 ^ 63 ≤ z < 2 ^ 63 → wrap_i64 z = z.
Proof. intros H. unfold wrap_i64. rewrite Z.mod_small; lia. Qed.

Lemma wrap_i64_add_l a b : wrap_i64 (wrap_i64 a + b) = wrap_i64 (a + b).
Proof.
  unfold wrap_i64. f_equal.
  replace ((a + 2 ^ 63) mod 2 ^ 64 - 2 ^ 63 + b + 2 ^ 63)
    with ((a + 2 ^ 63) mod 2 ^ 64 + b) by lia.
  rewrite Zplus_mod_idemp_l. f_equal. lia.
Qed.

Lemma wrap_i64_pred a : wrap_i64 (wrap_i64 a - 1) = wrap_i64 (a - 1).
Proof. rewrite <- !Z.add_opp_r. apply wrap_i64_add_l. Qed.

Lemma wrap_u64_small z : 0 ≤ z < 2 ^ 64 → wrap_u64 z = z.
Proof. intros H. unfold wrap_u64. apply Z.mod_small. lia. Qed.

Lemma UnixNano_Add_exact t d :
  - 2 ^ 63 ≤ t + d < 2 ^ 63 → UnixNano (Add t d) = t + d.
Proof. intros H. unfold UnixNano, Add. by apply wrap_i64_small. Qed.

Lemma expired_true expiration now :
  expired expiration now = true ↔ 0 < expiration ∧ expiration < now.
Proof. unfold expired. rewrite andb_true_iff, !Z.ltb_lt. tauto. Qed.

Lemma expired_false expiration now :
  expired expiration now = false ↔ expiration ≤ 0 ∨ now ≤ expiration.
Proof.
  unfold expired. rewrite andb_false_iff, !Z.ltb_ge. tauto.
Qed.

(** ** Routing *)

Section Routing.
Context {V : Type}.
Implicit Types (c : KVCache V) (s : shard V) (e : CacheEntry V).

Lemma getShard_Some c key idx s :
  getShard c key = Some (idx, s) →
  shardIndex c key = Some idx ∧ shards c !! idx = Some s.
Proof.
  unfold getShard. destruct (shardIndex c key) as [i|]; simpl; [|done].
  destruct (shards c !! i) eqn:E; simpl; [|done]. by intros [= <- <-].
Qed.

Lemma getShard_intro c key idx s :
  shardIndex c key = Some idx → shards c !! idx = Some s →
  getShard c key = Some (idx, s).
Proof. intros Hi Hs. unfold getShard. rewrite Hi. simpl. by rewrite Hs. Qed.

Lemma shardIndex_numShards c c' key :
  numShards c' = numShards c → shardIndex c' key = shardIndex c key.
Proof. intros H. unfold shardIndex. by rewrite H. Qed.

(** Routing is total on a well-formed cache: no operation panics. *)
Lemma getShard_wf c key :
  wf c → ∃ idx s, getShard c key = Some (idx, s).
Proof.
  intros [Hn Hl]. unfold getShard, shardIndex, wrap_u32.
  rewrite (Z.mod_small (numShards c)) by lia.
  destruct (numShards c =? 0) eqn:E; [lia|]. simpl.
  pose proof (Z.mod_pos_bound (Sum32 key) (numShards c)) as Hb.
  destruct (lookup_lt_is_Some_2 (shards c)
              (Z.to_nat (Sum32 key mod numShards c))) as [s Hs]; [lia|].
  exists (Z.to_nat (Sum32 key mod numShards c)), s. by rewrite Hs.
Qed.

End Routing.

(** ** Eviction *)

Section Eviction.
Context {V : Type}.
Implicit Types (c : KVCache V) (s : shard V) (e : CacheEntry V).
Implicit Types (order : list (string * CacheEntry V)).

Lemma evictOldest_removeOldest c s order :
  evictOldest c s order =
  removeOldest c s (sampleLoop order "" MaxInt64 0).1.
Proof.
  unfold evictOldest, removeOldest.
  by destruct (sampleLoop order "" MaxInt64 0).
Qed.

Lemma evictOldest_fullScan_removeOldest c s order :
  FullScan.evictOldest c s order =
  removeOldest c s (FullScan.scanLoop order "" MaxInt64).1.
Proof.
  unfold FullScan.evictOldest, removeOldest.
  by destruct (FullScan.scanLoop order "" MaxInt64).
Qed.

Lemma removeOldest_cases c s k :
  removeOldest c s k = (c, s) ∨
  ∃ e, k ≠ "" ∧ store s !! k = Some e ∧
       removeOldest c s k =
         (set_evictions (set_entryPool c (e :: entryPool c))
                        (wrap_u64 (evictions c + 1)),
          mkShard (delete k (store s)) (wrap_i64 (size s - 1))).
Proof.
  unfold removeOldest. destruct (String.eqb k "") eqn:Ek; [by left|].
  destruct (store s !! k) as [e|] eqn:El; [|by left].
  right. exists e. split; [by apply String.eqb_neq|done].
Qed.

(** What a call of [evictOldest] can do, in either revision: nothing, or
    remove one key, which is then never the empty string. *)
Lemma evictOldestOf_cases r c s order :
  evictOldestOf r c s order = (c, s) ∨
  ∃ k e, k ≠ "" ∧ store s !! k = Some e ∧
         evictOldestOf r c s order =
           (set_evictions (set_entryPool c (e :: entryPool c))
                          (wrap_u64 (evictions c + 1)),
            mkShard (delete k (store s)) (wrap_i64 (size s - 1))).
Proof.
  destruct r; simpl;
    rewrite ?evictOldest_removeOldest, ?evictOldest_fullScan_removeOldest.
  - destruct (removeOldest_cases c s (sampleLoop order "" MaxInt64 0).1)
      as [->|(e & ? & ? & ->)]; [by left|right; eauto].
  - destruct (removeOldest_cases c s (FullScan.scanLoop order "" MaxInt64).1)
      as [->|(e & ? & ? & ->)]; [by left|right; eauto].
Qed.

Lemma evictOldestOf_frame r c s order :
  let c' := (evictOldestOf r c s order).1 in
  shards c' = shards c ∧ numShards c' = numShards c ∧ ttl c' = ttl c ∧
  maxCapacity c' = maxCapacity c ∧ hits c' = hits c ∧ misses c' = misses c.
Proof.
  destruct (evictOldestOf_cases r c s order) as [->|(k & e & _ & _ & ->)];
    by simpl.
Qed.

Lemma evictOldestOf_absent r c s order key :
  store s !! key = None → store (evictOldestOf r c s order).2 !! key = None.
Proof.
  intros Hk.
  destruct (evictOldestOf_cases r c s order) as [->|(k & e & _ & _ & ->)];
    simpl; [done|].
  rewrite lookup_delete. by case_decide.
Qed.

End Eviction.

(** ** The sampling loop *)

Section Sampling.
Context {V : Type}.
Implicit Types (c : KVCache V) (s : shard V) (e : CacheEntry V).
Implicit Types (l order : list (string * CacheEntry V)).

(** The sampling loop is the full scan of the entries it examines. *)
Lemma sampleLoop_scanLoop l k t n :
  sampleLoop l k t n =
  FullScan.scanLoop (take (Z.to_nat (sampleSize - n)) l) k t.
Proof.
  revert k t n. induction l as [|[key e] l IH]; intros k t n; simpl.
  - by rewrite take_nil.
  - destruct (sampleSize <=? n) eqn:E.
    + apply Z.leb_le in E.
      replace (Z.to_nat (sampleSize - n)) with 0%nat by lia. done.
    + apply Z.leb_gt in E.
      replace (Z.to_nat (sampleSize - n))
        with (S (Z.to_nat (sampleSize - (n + 1)))) by lia.
      simpl. destruct (lastAccess e <? t); apply IH.
Qed.

Lemma first_min_unique l i k e i' k' e' :
  first_min l i k e → first_min l i' k' e' → i = i' ∧ k = k' ∧ e = e'.
Proof.
  intros (Hi & Hle & Hlt) (Hi' & Hle' & Hlt').
  assert (i = i') as <-.
  { destruct (Nat.lt_total i i') as [H|[H|H]]; [|done|].
    - specialize (Hlt' _ _ H Hi). specialize (Hle _ _ Hi'). simpl in *. lia.
    - specialize (Hlt _ _ H Hi'). specialize (Hle' _ _ Hi). simpl in *. lia. }
  rewrite Hi in Hi'. by injection Hi' as <- <-.
Qed.

Lemma first_min_cons_here l k e :
  (∀ x, x ∈ l → lastAccess e ≤ lastAccess x.2) →
  first_min ((k, e) :: l) 0 k e.
Proof.
  intros H. split; [done|]. split.
  - intros [|j] x Hx; simpl in Hx.
    + injection Hx as <-. simpl. lia.
    + apply H. by eapply list_elem_of_lookup_2.
  - intros j x Hj. lia.
Qed.

Lemma first_min_cons_later l k0 e0 i k e :
  first_min l i k e → lastAccess e < lastAccess e0 →
  first_min ((k0, e0) :: l) (S i) k e.
Proof.
  intros (Hi & Hle & Hlt) H0. split; [done|]. split.
  - intros [|j] x Hx; simpl in Hx.
    + injection Hx as <-. simpl. lia.
    + by eapply Hle.
  - intros [|j] x Hj Hx; simpl in Hx.
    + injection Hx as <-. done.
    + eapply Hlt; [|done]. lia.
Qed.

(** The scan keeps its initial candidate when no entry is older than
    [t0], and otherwise returns the first entry of least [lastAccess]. *)
Lemma scanLoop_spec l k0 t0 :
  (FullScan.scanLoop l k0 t0 = (k0, t0) ∧
   ∀ x, x ∈ l → t0 ≤ lastAccess x.2) ∨
  (∃ i k e, first_min l i k e ∧ lastAccess e < t0 ∧
            FullScan.scanLoop l k0 t0 = (k, lastAccess e)).
Proof.
  revert k0 t0. induction l as [|[key e0] l IH]; intros k0 t0; simpl.
  - left. split; [done|]. intros x Hx. by apply elem_of_nil in Hx.
  - destruct (lastAccess e0 <? t0) eqn:E.
    + apply Z.ltb_lt in E. right.
      destruct (IH key (lastAccess e0))
        as [[-> Hall]|(i & k & e & Hm & Hlt & ->)].
      * exists 0%nat, key, e0. split; [|done]. by apply first_min_cons_here.
      * exists (S i), k, e. split; [|split; [lia|done]].
        by apply first_min_cons_later.
    + apply Z.ltb_ge in E.
      destruct (IH k0 t0) as [[-> Hall]|(i & k & e & Hm & Hlt & ->)].
      * left. split; [done|]. intros x [->|Hx]%elem_of_cons; [done|auto].
      * right. exists (S i), k, e. split; [|done].
        apply first_min_cons_later; [done|lia].
Qed.

Lemma scanLoop_first_min l k0 t0 i k e :
  first_min l i k e → lastAccess e < t0 →
  FullScan.scanLoop l k0 t0 = (k, lastAccess e).
Proof.
  intros Hm Ht.
  destruct (scanLoop_spec l k0 t0) as [[_ Hall]|(i' & k' & e' & Hm' & _ & ->)].
  - destruct Hm as (Hi & _). apply list_elem_of_lookup_2 in Hi.
    specialize (Hall _ Hi). simpl in Hall. lia.
  - by destruct (first_min_unique l i k e i' k' e' Hm Hm') as (_ & -> & ->).
Qed.

(** The sampling revision is the earlier one run on the first five
    visited entries. *)
Lemma evictOldest_FullScan c s order :
  evictOldest c s order =
  FullScan.evictOldest c s (take (Z.to_nat sampleSize) order).
Proof.
  unfold evictOldest, FullScan.evictOldest.
  by rewrite sampleLoop_scanLoop, Z.sub_0_r.
Qed.

Lemma Set_FullScan c key value ttlArgs tDefault tOverride tAccess order :
  Set_ c key value ttlArgs tDefault tOverride tAccess order =
  FullScan.Set_ c key value ttlArgs tDefault tOverride tAccess
                (take (Z.to_nat sampleSize) order).
Proof.
  unfold Set_, FullScan.Set_.
  destruct (getShard c key) as [[idx s]|]; simpl; [|done].
  by rewrite evictOldest_FullScan.
Qed.

(** Eviction as the specification describes it, for a victim whose key is
    not the empty string and whose [lastAccess] is below the initial
    [oldestTime]: the first entry of least [lastAccess] among the first
    five visited leaves the map and goes to the pool, the live-count goes
    down and the eviction counter up. *)
Lemma evictOldest_first_min c s order i k e :
  (∀ x, x ∈ order → store s !! x.1 = Some x.2) →
  first_min (take (Z.to_nat sampleSize) order) i k e →
  k ≠ "" → lastAccess e < MaxInt64 →
  evictOldest c s order =
    (set_evictions (set_entryPool c (poolPut (entryPool c) e))
                   (wrap_u64 (evictions c + 1)),
     mkShard (delete k (store s)) (wrap_i64 (size s - 1))).
Proof.
  intros Hord Hm Hk Hlt. unfold evictOldest.
  rewrite sampleLoop_scanLoop, Z.sub_0_r.
  rewrite (scanLoop_first_min _ "" MaxInt64 i k e Hm Hlt).
  apply String.eqb_neq in Hk. rewrite Hk.
  destruct Hm as (Hi & _). apply lookup_take_Some in Hi as [Hi _].
  apply list_elem_of_lookup_2, Hord in Hi. simpl in Hi. by rewrite Hi.
Qed.

(** On a shard with nothing to examine, eviction does nothing. *)
Lemma evictOldest_nil c s : evictOldest c s [] = (c, s).
Proof. done. Qed.

(** The earlier revision removes the first entry of least [lastAccess]
    among all the entries of the shard. *)
Lemma evictOldest_fullScan_first_min c s order i k e :
  (∀ x, x ∈ order → store s !! x.1 = Some x.2) →
  first_min order i k e →
  k ≠ "" → lastAccess e < MaxInt64 →
  FullScan.evictOldest c s order =
    (set_evictions (set_entryPool c (poolPut (entryPool c) e))
                   (wrap_u64 (evictions c + 1)),
     mkShard (delete k (store s)) (wrap_i64 (size s - 1))).
Proof.
  intros Hord Hm Hk Hlt. unfold FullScan.evictOldest.
  rewrite (scanLoop_first_min order "" MaxInt64 i k e Hm Hlt).
  apply String.eqb_neq in Hk. rewrite Hk.
  destruct Hm as (Hi & _).
  apply list_elem_of_lookup_2, Hord in Hi. simpl in Hi. by rewrite Hi.
Qed.

End Sampling.

(** ** Get and Delete *)

Section GetFacts.
Context {V : Type}.
Implicit Types (c : KVCache V) (s : shard V) (e : CacheEntry V).

Lemma Get_absent c key idx s tNow tFresh :
  getShard c key = Some (idx, s) → store s !! key = None →
  Get c key tNow tFresh =
    Some (set_misses c (wrap_u64 (misses c + 1)), (None, false)).
Proof. intros Hg Hk. unfold Get. rewrite Hg. simpl. by rewrite Hk. Qed.

Lemma Get_live c key idx s e tNow tFresh :
  getShard c key = Some (idx, s) → store s !! key = Some e →
  expired (Expiration e) (UnixNano tNow) = false →
  Get c key tNow tFresh =
    Some (set_hits
            (putShard c idx
               (mkShard (<[key := mkEntry (Value e) (Expiration e)
                                          (UnixNano tNow)]> (store s))
                        (size s)))
            (wrap_u64 (hits c + 1)),
          (Value e, true)).
Proof.
  intros Hg Hk Hx. unfold Get. rewrite Hg. simpl. by rewrite Hk, Hx.
Qed.

Lemma Get_expired c key idx s e tNow tFresh :
  getShard c key = Some (idx, s) → store s !! key = Some e →
  expired (Expiration e) (UnixNano tNow) = true →
  Get c key tNow tFresh =
    Some (set_misses (lazyDelete c idx s key e tFresh)
                     (wrap_u64 (misses c + 1)),
          (None, false)).
Proof.
  intros Hg Hk Hx. unfold Get, lazyDelete. rewrite Hg. simpl.
  rewrite Hk, Hx. by destruct (expired (Expiration e) (UnixNano tFresh)).
Qed.

(** Every [Get] that returns does so in one of the three ways. *)
Lemma Get_inv c key tNow tFresh c1 res :
  Get c key tNow tFresh = Some (c1, res) →
  GetOutcome c key tNow tFresh c1 res.
Proof.
  intros HG.
  destruct (getShard c key) as [[idx s]|] eqn:Hg;
    [|by unfold Get in HG; rewrite Hg in HG].
  destruct (store s !! key) as [e|] eqn:Hk.
  - destruct (expired (Expiration e) (UnixNano tNow)) eqn:Hx.
    + rewrite (Get_expired c key idx s e tNow tFresh Hg Hk Hx) in HG.
      injection HG as <- <-. by eapply Get_of_expired.
    + rewrite (Get_live c key idx s e tNow tFresh Hg Hk Hx) in HG.
      injection HG as <- <-. by eapply Get_of_live.
  - rewrite (Get_absent c key idx s tNow tFresh Hg Hk) in HG.
    injection HG as <- <-. by eapply Get_of_absent.
Qed.

(** [Get] returns on every key that routes, with the verdict of the
    expiration test. *)
Lemma Get_result c key idx s tNow tFresh :
  getShard c key = Some (idx, s) →
  ∃ c', Get c key tNow tFresh =
          Some (c', match store s !! key with
                    | Some e => if expired (Expiration e) (UnixNano tNow)
                                then (None, false) else (Value e, true)
                    | None => (None, false)
                    end).
Proof.
  intros Hg. destruct (store s !! key) as [e|] eqn:Hk.
  - destruct (expired (Expiration e) (UnixNano tNow)) eqn:Hx.
    + eexists. by eapply Get_expired.
    + eexists. by eapply Get_live.
  - eexists. by eapply Get_absent.
Qed.

Lemma Delete_absent c key idx s :
  getShard c key = Some (idx, s) → store s !! key = None →
  Delete c key = Some c.
Proof. intros Hg Hk. unfold Delete. rewrite Hg. simpl. by rewrite Hk. Qed.

Lemma Delete_present c key idx s e :
  getShard c key = Some (idx, s) → store s !! key = Some e →
  Delete c key =
    Some (set_entryPool
            (putShard c idx
               (mkShard (delete key (store s)) (wrap_i64 (size s - 1))))
            (poolPut (entryPool c) e)).
Proof. intros Hg Hk. unfold Delete. rewrite Hg. simpl. by rewrite Hk. Qed.

End GetFacts.

(** ** Set *)

Section SetFacts.
Context {V : Type}.
Implicit Types (c : KVCache V) (s : shard V) (e : CacheEntry V).
Implicit Types (order : list (string * CacheEntry V)).

(** [Set] is routing, then the guarded eviction, then the insertion. *)
Lemma Set_unfold r c key value ttlArgs tDefault tOverride tAccess order :
  SetOf r c key value ttlArgs tDefault tOverride tAccess order =
  '(idx, s) ← getShard c key;
  let cs := evictPhase r c s key order in
  let cs' := insertPhase cs.1 cs.2 key value
               (setDeadline c ttlArgs tDefault tOverride) (UnixNano tAccess) in
  Some (putShard cs'.1 idx cs'.2).
Proof.
  destruct r; unfold SetOf, Set_, FullScan.Set_;
    (destruct (getShard c key) as [[idx s]|]; simpl; [|done]);
    fold (setDeadline c ttlArgs tDefault tOverride).
  - change (evictOldest c s order) with (evictOldestOf sampling c s order).
    fold (evictPhase sampling c s key order).
    destruct (evictPhase sampling c s key order) as [c' s']. simpl.
    unfold insertPhase.
    destruct (store s' !! key) as [e|]; simpl; [done|].
    by destruct (poolGet (entryPool c')).
  - change (FullScan.evictOldest c s order)
      with (evictOldestOf fullScan c s order).
    fold (evictPhase fullScan c s key order).
    destruct (evictPhase fullScan c s key order) as [c' s']. simpl.
    unfold insertPhase.
    destruct (store s' !! key) as [e|]; simpl; [done|].
    by destruct (poolGet (entryPool c')).
Qed.

Lemma evictPhase_cases r c s key order :
  evictPhase r c s key order = (c, s) ∨
  (0 < maxCapacity c ∧ maxCapacity c ≤ size s ∧ store s !! key = None ∧
   evictPhase r c s key order = evictOldestOf r c s order).
Proof.
  unfold evictPhase.
  destruct (0 <? maxCapacity c) eqn:E1; simpl; [|by left].
  destruct (maxCapacity c <=? size s) eqn:E2; [|by left].
  destruct (store s !! key) eqn:E3; [by left|].
  right. apply Z.ltb_lt in E1. apply Z.leb_le in E2. done.
Qed.

Lemma evictPhase_present r c s key order :
  is_Some (store s !! key) → evictPhase r c s key order = (c, s).
Proof.
  intros [e He]. destruct (evictPhase_cases r c s key order)
    as [->|(_ & _ & Hn & _)]; [done|congruence].
Qed.

Lemma evictPhase_frame r c s key order :
  let c' := (evictPhase r c s key order).1 in
  shards c' = shards c ∧ numShards c' = numShards c ∧ ttl c' = ttl c ∧
  maxCapacity c' = maxCapacity c ∧ hits c' = hits c ∧ misses c' = misses c.
Proof.
  destruct (evictPhase_cases r c s key order) as [->|(_ & _ & _ & ->)];
    [by simpl|apply evictOldestOf_frame].
Qed.

Lemma evictPhase_absent r c s key order :
  store s !! key = None → store (evictPhase r c s key order).2 !! key = None.
Proof.
  intros Hk. destruct (evictPhase_cases r c s key order)
    as [->|(_ & _ & _ & ->)]; [done|by apply evictOldestOf_absent].
Qed.

Lemma insertPhase_store c s key value expiration la :
  store (insertPhase c s key value expiration la).2 =
  <[key := mkEntry value expiration la]> (store s).
Proof. unfold insertPhase. by destruct (store s !! key). Qed.

Lemma insertPhase_frame c s key value expiration la :
  let c' := (insertPhase c s key value expiration la).1 in
  shards c' = shards c ∧ numShards c' = numShards c ∧ ttl c' = ttl c ∧
  maxCapacity c' = maxCapacity c ∧ hits c' = hits c ∧ misses c' = misses c ∧
  evictions c' = evictions c.
Proof. unfold insertPhase. by destruct (store s !! key). Qed.

(** [Set] returns whenever its key routes to a shard. *)
Lemma SetOf_routes r c key value ttlArgs tDefault tOverride tAccess order
    idx s :
  getShard c key = Some (idx, s) →
  ∃ c1, SetOf r c key value ttlArgs tDefault tOverride tAccess order = Some c1.
Proof. intros Hg. rewrite Set_unfold, Hg. simpl. eauto. Qed.

(** The shape of the state after a [Set] that returns. *)
Lemma Set_inv r c key value ttlArgs tDefault tOverride tAccess order c1 :
  SetOf r c key value ttlArgs tDefault tOverride tAccess order = Some c1 →
  ∃ idx s,
    getShard c key = Some (idx, s) ∧
    let cs := evictPhase r c s key order in
    let cs' := insertPhase cs.1 cs.2 key value
                 (setDeadline c ttlArgs tDefault tOverride) (UnixNano tAccess) in
    c1 = putShard cs'.1 idx cs'.2 ∧
    getShard c1 key = Some (idx, cs'.2) ∧
    shards c1 = <[idx := cs'.2]> (shards c).
Proof.
  rewrite Set_unfold. destruct (getShard c key) as [[idx s]|] eqn:Hg; [|done].
  simpl. intros [= <-]. exists idx, s. split; [done|]. simpl.
  pose proof (evictPhase_frame r c s key order) as (Hs1 & Hn1 & _).
  pose proof (insertPhase_frame (evictPhase r c s key order).1
                (evictPhase r c s key order).2 key value
                (setDeadline c ttlArgs tDefault tOverride) (UnixNano tAccess))
    as (Hs2 & Hn2 & _).
  simpl in *. apply getShard_Some in Hg as [Hi Hl].
  split; [done|]. split.
  - apply getShard_intro.
    + rewrite <- Hi. apply shardIndex_numShards. simpl. congruence.
    + simpl. rewrite Hs2, Hs1. apply list_lookup_insert_eq.
      by eapply lookup_lt_Some.
  - by rewrite Hs2, Hs1.
Qed.

(** After [Set], the key maps to the value with the computed deadline and
    the access stamp. *)
Lemma Set_stores r c key value ttlArgs tDefault tOverride tAccess order c1 :
  SetOf r c key value ttlArgs tDefault tOverride tAccess order = Some c1 →
  ∃ idx s1,
    getShard c1 key = Some (idx, s1) ∧
    store s1 !! key =
      Some (mkEntry value (setDeadline c ttlArgs tDefault tOverride)
                    (UnixNano tAccess)).
Proof.
  intros (idx & s & Hg & _ & Hg1 & _)%Set_inv. eexists _, _. split; [done|].
  rewrite insertPhase_store. apply lookup_insert_eq.
Qed.

(** A [Get] after a [Set] whose deadline has not passed finds the value. *)
Lemma Set_Get_live r c key value ttlArgs tDefault tOverride tAccess order
    tNow tFresh c1 :
  SetOf r c key value ttlArgs tDefault tOverride tAccess order = Some c1 →
  expired (setDeadline c ttlArgs tDefault tOverride) (UnixNano tNow) = false →
  ∃ c2, Get c1 key tNow tFresh = Some (c2, (value, true)).
Proof.
  intros (idx & s1 & Hg & Hk)%Set_stores Hlive.
  destruct (Get_result c1 key idx s1 tNow tFresh Hg) as [c2 HG].
  rewrite Hk in HG. simpl in HG. exists c2. by rewrite HG, Hlive.
Qed.

(** In particular while a positive TTL has not elapsed, for clock readings
    and durations that are [int64] values. *)
Lemma Set_Get_within_ttl r c key value ttlArgs tDefault tOverride tAccess order
    tNow tFresh c1 t d :
  SetOf r c key value ttlArgs tDefault tOverride tAccess order = Some c1 →
  setDeadline c ttlArgs tDefault tOverride = UnixNano (Add t d) →
  0 < d < 2 ^ 63 → t < 2 ^ 63 → - 2 ^ 63 ≤ tNow < 2 ^ 63 → tNow ≤ t + d →
  ∃ c2, Get c1 key tNow tFresh = Some (c2, (value, true)).
Proof.
  intros HS Hd Hdpos Ht HtNow Hle. eapply Set_Get_live; [done|].
  rewrite Hd. apply expired_false. unfold UnixNano at 2.
  rewrite (wrap_i64_small tNow) by done. unfold UnixNano, Add.
  destruct (Z_lt_ge_dec (t + d) (2 ^ 63)) as [Hfit|Hover].
  - right. rewrite wrap_i64_small; lia.
  - left. unfold wrap_i64.
    rewrite <- (Z.mod_unique (t + d + 2 ^ 63) (2 ^ 64) 1 (t + d - 2 ^ 63));
      lia.
Qed.

(** With nothing to examine, the insertion of a new key goes ahead: the
    live-count grows by one and the eviction counter stays. *)
Lemma Set_empty_sample r c key value ttlArgs tDefault tOverride tAccess c1
    idx s :
  getShard c key = Some (idx, s) → store s !! key = None →
  SetOf r c key value ttlArgs tDefault tOverride tAccess [] = Some c1 →
  ∃ s1, getShard c1 key = Some (idx, s1) ∧
        size s1 = wrap_i64 (size s + 1) ∧ evictions c1 = evictions c.
Proof.
  intros Hg Hk (idx' & s' & Hg' & Hc1 & Hg1 & _)%Set_inv.
  rewrite Hg in Hg'. injection Hg' as <- <-. simpl in *.
  assert (evictPhase r c s key [] = (c, s)) as Hcs.
  { destruct (evictPhase_cases r c s key []) as [->|(_ & _ & _ & ->)];
      [done|by destruct r]. }
  rewrite Hcs in *. simpl in *. eexists. split; [exact Hg1|].
  unfold insertPhase in *. rewrite Hk in *. by subst c1.
Qed.

End SetFacts.

(** ** Sweeps over the shards: cleanup and Clear *)

Section Sweeps.
Context {V : Type}.
Implicit Types (c : KVCache V) (s : shard V) (e : CacheEntry V).
Implicit Types (pool : list (CacheEntry V)).

Lemma rangeShards_fold
    (body : shard V → list (CacheEntry V) → shard V * list (CacheEntry V))
    (l done : list (shard V)) pool :
  ∃ rest,
    (foldl (λ '(done, pool) s,
              let '(s', pool') := body s pool in (done ++ [s'], pool'))
           (done, pool) l).1 = done ++ rest ∧
    Forall2 (λ s s', ∃ p, s' = (body s p).1) l rest.
Proof.
  revert done pool. induction l as [|s l IH]; intros done pool; simpl.
  - exists []. by rewrite app_nil_r.
  - destruct (body s pool) as [s' pool'] eqn:Hb.
    destruct (IH (done ++ [s']) pool') as (rest & -> & HF).
    exists (s' :: rest). rewrite <- app_assoc. split; [done|].
    constructor; [|done]. exists pool. by rewrite Hb.
Qed.

Lemma rangeShards_shards body c :
  Forall2 (λ s s', ∃ p, s' = (body s p).1)
          (shards c) (shards (rangeShards body c)).
Proof.
  unfold rangeShards.
  destruct (rangeShards_fold body (shards c) [] (entryPool c))
    as (rest & Hr & HF).
  destruct (foldl _ _ _) as [sh p]. simpl in *. by subst.
Qed.

Lemma rangeShards_frame body c :
  let c' := rangeShards body c in
  numShards c' = numShards c ∧ ttl c' = ttl c ∧
  maxCapacity c' = maxCapacity c ∧ hits c' = hits c ∧
  misses c' = misses c ∧ evictions c' = evictions c.
Proof. unfold rangeShards. by destruct (foldl _ _ _). Qed.

(** Deleting every visited key empties the map. *)
Lemma clear_fold_lookup (l : list (string * CacheEntry V))
    (m : gmap string (CacheEntry V)) pool k :
  (foldl (λ '(st, pool) '(key, entry), (delete key st, poolPut pool entry))
         (m, pool) l).1 !! k =
  if decide (k ∈ l.*1) then None else m !! k.
Proof.
  revert m pool. induction l as [|[key e] l IH]; intros m pool.
  - done.
  - rewrite fmap_cons. cbn [foldl fst]. rewrite IH, lookup_delete.
    destruct (decide (key = k)) as [->|Hne].
    + rewrite (decide_True (P := k ∈ k :: l.*1)) by apply list_elem_of_here.
      by case_decide.
    + destruct (decide (k ∈ l.*1)) as [Hin|Hin].
      * by rewrite decide_True by (by apply list_elem_of_further).
      * rewrite decide_False; [done|].
        intros [?|?]%elem_of_cons; congruence.
Qed.

Lemma clearShard_empty s pool : (clearShard s pool).1 = mkShard ∅ 0.
Proof.
  unfold clearShard.
  pose proof (λ k, clear_fold_lookup (map_to_list (store s)) (store s) pool k)
    as H.
  destruct (foldl _ _ _) as [st p]. simpl in *. f_equal.
  apply map_eq. intros k. rewrite H, lookup_empty.
  case_decide as Hk; [done|].
  destruct (store s !! k) as [e|] eqn:E; [|done].
  exfalso. apply Hk. apply list_elem_of_fmap. exists (k, e).
  split; [done|]. by apply elem_of_map_to_list.
Qed.

(** After [Clear] every shard is empty with a zero live-count. *)
Lemma Clear_shards c :
  Forall (λ s, s = mkShard ∅ 0) (shards (Clear c)).
Proof.
  pose proof (rangeShards_shards clearShard c) as HF. unfold Clear.
  eapply Forall2_Forall_r; [done|]. apply Forall_true.
  intros s s' (p & ->). apply clearShard_empty.
Qed.

Lemma expiredKeys_elem s now k :
  k ∈ expiredKeys s now ↔
  ∃ e, store s !! k = Some e ∧ expired (Expiration e) now = true.
Proof.
  unfold expiredKeys. rewrite list_elem_of_bind. split.
  - intros ([k' e] & Hin & Hm). apply elem_of_map_to_list in Hm.
    destruct (expired (Expiration e) now) eqn:Hx.
    + apply list_elem_of_singleton in Hin as ->. eauto.
    + by apply elem_of_nil in Hin.
  - intros (e & Hk & Hx). exists (k, e). rewrite Hx.
    split; [by apply list_elem_of_singleton|by apply elem_of_map_to_list].
Qed.

Lemma cleanupDelete_lookup now s pool a k :
  store (cleanupDelete now (s, pool) a).1 !! k =
  match store s !! k with
  | Some e => if decide (k = a)
              then (if expired (Expiration e) now then None else Some e)
              else Some e
  | None => None
  end.
Proof.
  unfold cleanupDelete. destruct (decide (k = a)) as [->|Hne].
  - destruct (store s !! a) as [e|] eqn:Ha; [|simpl; congruence].
    destruct (expired (Expiration e) now); simpl.
    + by rewrite lookup_delete_eq.
    + congruence.
  - destruct (store s !! a) as [ea|]; [|simpl; by destruct (store s !! k)].
    destruct (expired (Expiration ea) now); simpl.
    + rewrite lookup_delete_ne by done. by destruct (store s !! k).
    + by destruct (store s !! k).
Qed.

Lemma cleanupDelete_fold_lookup now (ks : list string) s pool k :
  store (foldl (cleanupDelete now) (s, pool) ks).1 !! k =
  match store s !! k with
  | Some e => if decide (k ∈ ks)
              then (if expired (Expiration e) now then None else Some e)
              else Some e
  | None => None
  end.
Proof.
  revert s pool. induction ks as [|a ks IH]; intros s pool; cbn [foldl].
  - cbn [fst]. destruct (store s !! k); [|done].
    by rewrite decide_False by apply not_elem_of_nil.
  - pose proof (cleanupDelete_lookup now s pool a k) as H1.
    destruct (cleanupDelete now (s, pool) a) as [s' p']. simpl in H1.
    rewrite IH, H1. destruct (store s !! k) as [e|]; [|done].
    destruct (decide (k = a)) as [->|Hne].
    + rewrite (decide_True (P := a ∈ a :: ks)) by apply list_elem_of_here.
      destruct (expired (Expiration e) now) eqn:Hx; [done|].
      rewrite Hx. by case_decide.
    + destruct (decide (k ∈ ks)) as [Hin|Hin].
      * by rewrite decide_True by (by apply list_elem_of_further).
      * rewrite decide_False; [done|].
        by intros [?|?]%elem_of_cons.
Qed.

(** A sweep removes from a shard exactly the entries expired at [now]. *)
Lemma cleanupShard_lookup now s pool k :
  store (cleanupShard now s pool).1 !! k =
  match store s !! k with
  | Some e => if expired (Expiration e) now then None else Some e
  | None => None
  end.
Proof.
  unfold cleanupShard.
  destruct (0 <? Z.of_nat (length (expiredKeys s now))) eqn:E.
  - rewrite cleanupDelete_fold_lookup.
    destruct (store s !! k) as [e|] eqn:Hk; [|done].
    case_decide as Hin; [done|].
    destruct (expired (Expiration e) now) eqn:Hx; [|done].
    exfalso. apply Hin. apply expiredKeys_elem. eauto.
  - simpl. destruct (store s !! k) as [e|] eqn:Hk; [|done].
    destruct (expired (Expiration e) now) eqn:Hx; [|done].
    assert (k ∈ expiredKeys s now) as Hin by (apply expiredKeys_elem; eauto).
    apply Z.ltb_ge in E. destruct (expiredKeys s now); [|simpl in E; lia].
    by apply elem_of_nil in Hin.
Qed.

(** A sweep of the cache sweeps the shard a key routes to. *)
Lemma cleanupTick_getShard c key idx s tNow :
  getShard c key = Some (idx, s) →
  ∃ pool, getShard (cleanupTick c tNow) key =
            Some (idx, (cleanupShard (UnixNano tNow) s pool).1).
Proof.
  intros [Hi Hs]%getShard_Some. unfold cleanupTick.
  pose proof (rangeShards_shards (cleanupShard (UnixNano tNow)) c) as HF.
  pose proof (rangeShards_frame (cleanupShard (UnixNano tNow)) c) as (Hn & _).
  eapply Forall2_lookup_l in HF as (s' & Hs' & pool & ->); [|exact Hs].
  exists pool. apply getShard_intro; [|done].
  rewrite <- Hi. by apply shardIndex_numShards.
Qed.

End Sweeps.

(** ** The live-count invariant *)

Section LiveCount.
Context {V : Type}.
Implicit Types (c : KVCache V) (s : shard V) (e : CacheEntry V).
Implicit Types (pool : list (CacheEntry V)).

Lemma count_ok_insert s key e :
  count_ok s →
  count_ok (mkShard (<[key := e]> (store s))
              (match store s !! key with
               | Some _ => size s
               | None => wrap_i64 (size s + 1)
               end)).
Proof.
  unfold count_ok. simpl. intros ->. rewrite map_size_insert.
  destruct (store s !! key); simpl; [done|].
  rewrite wrap_i64_add_l. f_equal. lia.
Qed.

Lemma count_ok_delete s key :
  count_ok s → is_Some (store s !! key) →
  count_ok (mkShard (delete key (store s)) (wrap_i64 (size s - 1))).
Proof.
  unfold count_ok. simpl. intros -> [e He].
  rewrite map_size_delete, He. simpl. rewrite wrap_i64_pred.
  assert (card (store s) ≠ 0%nat) as Hne.
  { intros H0%map_size_empty_inv. rewrite H0, lookup_empty in He. done. }
  f_equal. lia.
Qed.

Lemma count_ok_evictOldest r c s order :
  count_ok s → count_ok (evictOldestOf r c s order).2.
Proof.
  intros Hs.
  destruct (evictOldestOf_cases r c s order) as [->|(k & e & _ & Hk & ->)];
    [done|]. simpl. by apply count_ok_delete.
Qed.

Lemma count_ok_evictPhase r c s key order :
  count_ok s → count_ok (evictPhase r c s key order).2.
Proof.
  intros Hs. destruct (evictPhase_cases r c s key order)
    as [->|(_ & _ & _ & ->)]; [done|by apply count_ok_evictOldest].
Qed.

Lemma count_ok_insertPhase c s key value expiration la :
  count_ok s → count_ok (insertPhase c s key value expiration la).2.
Proof.
  intros Hs.
  pose proof (count_ok_insert s key (mkEntry value expiration la) Hs) as H.
  unfold insertPhase. by destruct (store s !! key).
Qed.

Lemma count_ok_cleanupShard now s pool :
  count_ok s → count_ok (cleanupShard now s pool).1.
Proof.
  unfold cleanupShard. destruct (0 <? _); [|done].
  generalize (expiredKeys s now). intros ks. revert s pool.
  induction ks as [|a ks IH]; intros s pool Hs; cbn [foldl]; [done|].
  destruct (cleanupDelete now (s, pool) a) as [s' p'] eqn:Hd.
  apply IH. unfold cleanupDelete in Hd.
  destruct (store s !! a) as [e|] eqn:Ha; [|congruence].
  destruct (expired (Expiration e) now); [|congruence].
  injection Hd as <- <-. by apply count_ok_delete.
Qed.

Lemma cache_ok_putShard c idx s :
  cache_ok c → count_ok s → cache_ok (putShard c idx s).
Proof. intros Hc Hs. unfold cache_ok. simpl. by apply Forall_insert. Qed.

Lemma cache_ok_getShard c key idx s :
  cache_ok c → getShard c key = Some (idx, s) → count_ok s.
Proof.
  intros Hc [_ Hs]%getShard_Some. unfold cache_ok in Hc.
  rewrite Forall_lookup in Hc. by eapply Hc.
Qed.

Lemma cache_ok_New defaultTTL maxCapacityPerShard :
  cache_ok (NewKVCacheWithCapacity V defaultTTL maxCapacityPerShard).
Proof.
  unfold cache_ok, NewKVCacheWithCapacity. cbn [shards].
  apply Forall_replicate. unfold count_ok. cbn [store size].
  by rewrite map_size_empty.
Qed.

Lemma cache_ok_Set r c key value ttlArgs tDefault tOverride tAccess order c1 :
  cache_ok c →
  SetOf r c key value ttlArgs tDefault tOverride tAccess order = Some c1 →
  cache_ok c1.
Proof.
  intros Hc (idx & s & Hg & _ & _ & Hs)%Set_inv. unfold cache_ok.
  rewrite Hs. apply Forall_insert; [done|].
  apply count_ok_insertPhase, count_ok_evictPhase.
  by eapply cache_ok_getShard.
Qed.

Lemma cache_ok_Get c key tNow tFresh c1 res :
  cache_ok c → Get c key tNow tFresh = Some (c1, res) → cache_ok c1.
Proof.
  intros Hc HG%Get_inv.
  destruct HG as [idx s Hg Hk|idx s e Hg Hk Hx|idx s e Hg Hk Hx];
    try pose proof (cache_ok_getShard c key idx s Hc Hg) as Hs.
  - done.
  - unfold lazyDelete.
    destruct (expired (Expiration e) (UnixNano tFresh)); [|done].
    apply (cache_ok_putShard c idx); [done|]. by apply count_ok_delete.
  - apply (cache_ok_putShard c idx); [done|].
    pose proof (count_ok_insert s key
      (mkEntry (Value e) (Expiration e) (UnixNano tNow)) Hs) as H.
    by rewrite Hk in H.
Qed.

Lemma cache_ok_Delete c key c1 :
  cache_ok c → Delete c key = Some c1 → cache_ok c1.
Proof.
  intros Hc HD.
  destruct (getShard c key) as [[idx s]|] eqn:Hg;
    [|by unfold Delete in HD; rewrite Hg in HD].
  pose proof (cache_ok_getShard c key idx s Hc Hg) as Hs.
  destruct (store s !! key) as [e|] eqn:Hk.
  - rewrite (Delete_present c key idx s e Hg Hk) in HD. injection HD as <-.
    apply (cache_ok_putShard c idx); [done|]. by apply count_ok_delete.
  - rewrite (Delete_absent c key idx s Hg Hk) in HD. by injection HD as <-.
Qed.

Lemma cache_ok_Clear c : cache_ok (Clear c).
Proof.
  unfold cache_ok. eapply Forall_impl; [|apply Clear_shards].
  intros s ->. unfold count_ok. simpl. by rewrite map_size_empty.
Qed.

Lemma cache_ok_cleanupTick c tNow :
  cache_ok c → cache_ok (cleanupTick c tNow).
Proof.
  unfold cache_ok, cleanupTick. rewrite !Forall_lookup. intros Hc i s' Hi.
  pose proof (rangeShards_shards (cleanupShard (UnixNano tNow)) c) as HF.
  eapply Forall2_lookup_r in HF as (s & Hs & p & ->); [|exact Hi].
  apply count_ok_cleanupShard. by eapply Hc.
Qed.

Lemma cache_ok_step r c c' : cache_ok c → step r c c' → cache_ok c'.
Proof.
  intros Hc Hstep. destruct Hstep.
  - by eapply cache_ok_Set.
  - by eapply cache_ok_Get.
  - by eapply cache_ok_Delete.
  - apply cache_ok_Clear.
  - by apply cache_ok_cleanupTick.
Qed.

Lemma cache_ok_reachable r c : reachable r c → cache_ok c.
Proof.
  induction 1 as [|c c' _ IH Hstep]; [apply cache_ok_New|].
  by eapply cache_ok_step.
Qed.

End LiveCount.

(** ** Fields an operation leaves alone *)

Section Frames.
Context {V : Type}.
Implicit Types (c : KVCache V) (s : shard V) (e : CacheEntry V).

Lemma Set_frame r c key value ttlArgs tDefault tOverride tAccess order c1 :
  SetOf r c key value ttlArgs tDefault tOverride tAccess order = Some c1 →
  numShards c1 = numShards c ∧ ttl c1 = ttl c ∧
  maxCapacity c1 = maxCapacity c ∧ hits c1 = hits c ∧ misses c1 = misses c ∧
  length (shards c1) = length (shards c).
Proof.
  intros (idx & s & Hg & Hc1 & _ & Hs)%Set_inv. simpl in *.
  pose proof (evictPhase_frame r c s key order) as (_ & ? & ? & ? & ? & ?).
  pose proof (insertPhase_frame (evictPhase r c s key order).1
                (evictPhase r c s key order).2 key value
                (setDeadline c ttlArgs tDefault tOverride) (UnixNano tAccess))
    as (_ & ? & ? & ? & ? & ? & _).
  simpl in *. rewrite Hs, length_insert. subst c1. simpl.
  repeat split; congruence.
Qed.

Lemma Get_frame c key tNow tFresh c1 res :
  Get c key tNow tFresh = Some (c1, res) →
  numShards c1 = numShards c ∧ ttl c1 = ttl c ∧
  maxCapacity c1 = maxCapacity c ∧ evictions c1 = evictions c ∧
  length (shards c1) = length (shards c).
Proof.
  intros HG%Get_inv.
  destruct HG as [idx s Hg Hk|idx s e Hg Hk Hx|idx s e Hg Hk Hx].
  - done.
  - unfold lazyDelete.
    destruct (expired (Expiration e) (UnixNano tFresh)); simpl;
      by rewrite ?length_insert.
  - simpl. by rewrite length_insert.
Qed.

Lemma Delete_frame c key c1 :
  Delete c key = Some c1 →
  numShards c1 = numShards c ∧ ttl c1 = ttl c ∧
  maxCapacity c1 = maxCapacity c ∧ hits c1 = hits c ∧ misses c1 = misses c ∧
  evictions c1 = evictions c ∧ length (shards c1) = length (shards c).
Proof.
  intros HD.
  destruct (getShard c key) as [[idx s]|] eqn:Hg;
    [|by unfold Delete in HD; rewrite Hg in HD].
  destruct (store s !! key) as [e|] eqn:Hk.
  - rewrite (Delete_present c key idx s e Hg Hk) in HD. injection HD as <-.
    simpl. by rewrite length_insert.
  - rewrite (Delete_absent c key idx s Hg Hk) in HD. by injection HD as <-.
Qed.

(** On a well-formed cache the operations return: none of them panics. *)
Lemma SetOf_total r c key value ttlArgs tDefault tOverride tAccess order :
  wf c →
  ∃ c1, SetOf r c key value ttlArgs tDefault tOverride tAccess order = Some c1.
Proof.
  intros (idx & s & Hg)%(getShard_wf c key). by eapply SetOf_routes.
Qed.

Lemma Get_total c key tNow tFresh :
  wf c → ∃ c1 res, Get c key tNow tFresh = Some (c1, res).
Proof.
  intros (idx & s & Hg)%(getShard_wf c key).
  destruct (Get_result c key idx s tNow tFresh Hg) as [c1 HG]. eauto.
Qed.

Lemma Delete_total c key : wf c → ∃ c1, Delete c key = Some c1.
Proof.
  intros (idx & s & Hg)%(getShard_wf c key).
  destruct (store s !! key) as [e|] eqn:Hk.
  - rewrite (Delete_present c key idx s e Hg Hk). eauto.
  - rewrite (Delete_absent c key idx s Hg Hk). eauto.
Qed.

Lemma wf_New defaultTTL maxCapacityPerShard :
  wf (NewKVCacheWithCapacity V defaultTTL maxCapacityPerShard).
Proof.
  unfold wf, NewKVCacheWithCapacity. cbn [numShards shards].
  rewrite length_replicate. lia.
Qed.

Lemma wf_step r c c' : wf c → step r c c' → wf c'.
Proof.
  unfold wf. intros [Hn Hl] Hstep. destruct Hstep as
    [c key value ttlArgs tD tO tA order c' _ H|c key tNow tFresh c' res H
    |c key c' H|c|c tNow].
  - apply Set_frame in H as (-> & _ & _ & _ & _ & ->). done.
  - apply Get_frame in H as (-> & _ & _ & _ & ->). done.
  - apply Delete_frame in H as (-> & _ & _ & _ & _ & _ & ->). done.
  - pose proof (rangeShards_frame clearShard c) as (Hn' & _).
    pose proof (Forall2_length (rangeShards_shards clearShard c)) as Hl'.
    unfold Clear. simpl in *. rewrite Hn', <- Hl'. done.
  - pose proof (rangeShards_frame (cleanupShard (UnixNano tNow)) c)
      as (Hn' & _).
    pose proof (Forall2_length
      (rangeShards_shards (cleanupShard (UnixNano tNow)) c)) as Hl'.
    unfold cleanupTick. simpl in *. rewrite Hn', <- Hl'. done.
Qed.

(** No operation on a cache built by the constructor panics. *)
Lemma wf_reachable r c : reachable r c → wf c.
Proof.
  induction 1 as [|c c' _ IH Hstep]; [apply wf_New|by eapply wf_step].
Qed.

End Frames.

(** * The properties of the specification *)

Section Claims.
Context {V : Type}.
Implicit Types (c : KVCache V) (s : shard V) (e : CacheEntry V).
Implicit Types (order : list (string * CacheEntry V)).

(** C1, as amended.  Round trip, in either revision: on a well-formed
    cache [Set(k, v)] followed by [Get(k)] returns; the [Get] returns
    [(v, true)] when the deadline stored by the [Set] is zero, negative or
    not before the clock reading of the [Get], and [(nil, false)] when that
    deadline is strictly positive and strictly before the reading.  In
    particular it returns [(v, true)] whenever the effective TTL -- the
    override when it is strictly positive, the default TTL otherwise -- is
    strictly positive and the reading of the [Get] is not after the reading
    of the [Set] plus that TTL, for [int64] readings and durations. *)
Theorem Set_Get_roundtrip r c key value ttlArgs tDefault tOverride tAccess
    order tNow tFresh :
  wf c →
  ∃ c1 c2 res,
    SetOf r c key value ttlArgs tDefault tOverride tAccess order = Some c1 ∧
    Get c1 key tNow tFresh = Some (c2, res) ∧
    (setDeadline c ttlArgs tDefault tOverride ≤ 0 ∨
     UnixNano tNow ≤ setDeadline c ttlArgs tDefault tOverride →
     res = (value, true)) ∧
    (0 < setDeadline c ttlArgs tDefault tOverride < UnixNano tNow →
     res = (None, false)) ∧
    (∀ d rest, ttlArgs = d :: rest → 0 < d < 2 ^ 63 → tOverride < 2 ^ 63 →
       - 2 ^ 63 ≤ tNow < 2 ^ 63 → tNow ≤ tOverride + d →
       res = (value, true)) ∧
    (ttlArgs = [] ∨ (∃ d rest, ttlArgs = d :: rest ∧ d ≤ 0) →
       0 < ttl c < 2 ^ 63 → tDefault < 2 ^ 63 →
       - 2 ^ 63 ≤ tNow < 2 ^ 63 → tNow ≤ tDefault + ttl c →
       res = (value, true)).
Proof.
  intros Hwf.
  destruct (SetOf_total r c key value ttlArgs tDefault tOverride tAccess
              order Hwf) as [c1 HS].
  pose proof HS as (idx & s1 & Hg & Hk)%Set_stores.
  destruct (Get_result c1 key idx s1 tNow tFresh Hg) as [c2 HG].
  rewrite Hk in HG. cbn [Expiration Value] in HG.
  exists c1, c2. eexists. split; [done|]. split; [exact HG|].
  assert (∀ t d,
            setDeadline c ttlArgs tDefault tOverride = UnixNano (Add t d) →
            0 < d < 2 ^ 63 → t < 2 ^ 63 → - 2 ^ 63 ≤ tNow < 2 ^ 63 →
            tNow ≤ t + d →
            expired (setDeadline c ttlArgs tDefault tOverride)
                    (UnixNano tNow) = false) as Hwithin.
  { intros t d Hd Hdpos Ht HtNow Hle.
    destruct (Set_Get_within_ttl r c key value ttlArgs tDefault tOverride
                tAccess order tNow tFresh c1 t d HS Hd Hdpos Ht HtNow Hle)
      as [c2' HG'].
    rewrite HG in HG'.
    destruct (expired (setDeadline c ttlArgs tDefault tOverride)
                      (UnixNano tNow)); [|done].
    by injection HG'. }
  split; [|split; [|split]].
  - intros Hlive. by rewrite (proj2 (expired_false _ _) Hlive).
  - intros Hpast. by rewrite (proj2 (expired_true _ _) Hpast).
  - intros d rest -> Hd Ht HtNow Hle.
    rewrite (Hwithin tOverride d); try done.
    simpl. destruct (0 <? d) eqn:E; [done|]. apply Z.ltb_ge in E. lia.
  - intros Hno Hd Ht HtNow Hle.
    rewrite (Hwithin tDefault (ttl c)); try done.
    destruct Hno as [->|(d & rest & -> & Hneg)]; [done|]. simpl.
    destruct (0 <? d) eqn:E; [apply Z.ltb_lt in E; lia|done].
Qed.

(** C5, as amended.  TTL normalization, in either revision: the deadline
    stored by [Set] is the [int64] value of [now + override] when an
    override is given and is strictly positive, and of [now + c.ttl]
    otherwise, also for an override that is zero or negative.  The [int64]
    value of a sum is the [int64] that differs from it by a multiple of
    [2^64]: the stored deadline is the integer sum if and only if that sum
    is an [int64]. *)
Theorem Set_deadline r c key value ttlArgs tDefault tOverride tAccess order :
  wf c →
  ∃ c1 idx s1 e,
    SetOf r c key value ttlArgs tDefault tOverride tAccess order = Some c1 ∧
    getShard c1 key = Some (idx, s1) ∧ store s1 !! key = Some e ∧
    - 2 ^ 63 ≤ Expiration e < 2 ^ 63 ∧
    (∀ d rest, ttlArgs = d :: rest → 0 < d →
       Expiration e = UnixNano (Add tOverride d) ∧
       (Expiration e - (tOverride + d)) mod 2 ^ 64 = 0 ∧
       (- 2 ^ 63 ≤ tOverride + d < 2 ^ 63 → Expiration e = tOverride + d) ∧
       (Expiration e = tOverride + d → - 2 ^ 63 ≤ tOverride + d < 2 ^ 63)) ∧
    (ttlArgs = [] ∨ (∃ d rest, ttlArgs = d :: rest ∧ d ≤ 0) →
       Expiration e = UnixNano (Add tDefault (ttl c)) ∧
       (Expiration e - (tDefault + ttl c)) mod 2 ^ 64 = 0 ∧
       (- 2 ^ 63 ≤ tDefault + ttl c < 2 ^ 63 →
        Expiration e = tDefault + ttl c) ∧
       (Expiration e = tDefault + ttl c →
        - 2 ^ 63 ≤ tDefault + ttl c < 2 ^ 63)).
Proof.
  intros Hwf.
  destruct (SetOf_total r c key value ttlArgs tDefault tOverride tAccess
              order Hwf) as [c1 HS].
  pose proof HS as (idx & s1 & Hg & Hk)%Set_stores.
  eexists c1, idx, s1, _. split; [done|]. split; [done|]. split; [done|].
  cbn [Expiration].
  assert (∀ t d, - 2 ^ 63 ≤ UnixNano (Add t d) < 2 ^ 63 ∧
                 (UnixNano (Add t d) - (t + d)) mod 2 ^ 64 = 0) as Hwrap.
  { intros t d. unfold UnixNano, Add, wrap_i64.
    pose proof (Z.mod_pos_bound (t + d + 2 ^ 63) (2 ^ 64) ltac:(lia)).
    split; [lia|].
    replace ((t + d + 2 ^ 63) mod 2 ^ 64 - 2 ^ 63 - (t + d))
      with (- ((t + d + 2 ^ 63) / 2 ^ 64) * 2 ^ 64)
      by (pose proof (Z.div_mod (t + d + 2 ^ 63) (2 ^ 64) ltac:(lia)); lia).
    apply Z.mod_mul. lia. }
  assert (setDeadline c ttlArgs tDefault tOverride =
          match ttlArgs with
          | d :: _ => if 0 <? d then UnixNano (Add tOverride d)
                      else UnixNano (Add tDefault (ttl c))
          | [] => UnixNano (Add tDefault (ttl c))
          end) as Hd by done.
  split.
  { rewrite Hd. destruct ttlArgs as [|d rest]; [apply Hwrap|].
    destruct (0 <? d); apply Hwrap. }
  split.
  - intros d rest -> Hpos. simpl.
    destruct (0 <? d) eqn:E; [|apply Z.ltb_ge in E; lia].
    destruct (Hwrap tOverride d) as [Hrange Hmod].
    split; [done|]. split; [done|].
    split; [apply UnixNano_Add_exact|]. intros Heq. by rewrite <- Heq.
  - intros Hno. assert (setDeadline c ttlArgs tDefault tOverride =
                        UnixNano (Add tDefault (ttl c))) as ->.
    { destruct Hno as [->|(d & rest & -> & Hneg)]; [done|]. simpl.
      destruct (0 <? d) eqn:E; [apply Z.ltb_lt in E; lia|done]. }
    destruct (Hwrap tDefault (ttl c)) as [Hrange Hmod].
    split; [done|]. split; [done|].
    split; [apply UnixNano_Add_exact|]. intros Heq. by rewrite <- Heq.
Qed.

(** C2, as amended.  Expiration semantics: [Get] reports an entry present
    in the map as not found if and only if its [Expiration] is strictly
    positive and the clock reading is strictly greater; one sweep of the
    cleanup removes it under the same condition and keeps it unchanged
    otherwise.  An entry whose [Expiration] is 0, or negative, is returned
    as found whatever the time. *)
Theorem expiration_semantics c key idx s e tNow tFresh tSweep :
  getShard c key = Some (idx, s) → store s !! key = Some e →
  (∃ c' res,
     Get c key tNow tFresh = Some (c', res) ∧
     (res = (None, false) ∧ 0 < Expiration e < UnixNano tNow ∨
      res = (Value e, true) ∧ ¬ (0 < Expiration e < UnixNano tNow)) ∧
     (Expiration e ≤ 0 → res = (Value e, true))) ∧
  (∃ s',
     getShard (cleanupTick c tSweep) key = Some (idx, s') ∧
     (store s' !! key = None ∧ 0 < Expiration e < UnixNano tSweep ∨
      store s' !! key = Some e ∧ ¬ (0 < Expiration e < UnixNano tSweep))).
Proof.
  intros Hg Hk. split.
  - destruct (Get_result c key idx s tNow tFresh Hg) as [c' HG].
    rewrite Hk in HG. eexists c', _. split; [exact HG|].
    destruct (expired (Expiration e) (UnixNano tNow)) eqn:Hx.
    + apply expired_true in Hx. split; [left; split; [done|lia]|lia].
    + apply expired_false in Hx. split; [right; split; [done|lia]|done].
  - destruct (cleanupTick_getShard c key idx s tSweep Hg) as [pool Hg'].
    eexists. split; [exact Hg'|]. rewrite cleanupShard_lookup, Hk.
    destruct (expired (Expiration e) (UnixNano tSweep)) eqn:Hx.
    + apply expired_true in Hx. left. split; [done|lia].
    + apply expired_false in Hx. right. split; [done|lia].
Qed.

(** C9, as amended.  In either revision, every [Set] stores the [int64]
    value of [now + d], where [d] is the override when it is strictly
    positive and the default TTL otherwise; that value can be zero or
    negative.  With a default TTL that is zero or negative and no positive
    override, when [now + ttl] is an [int64] the stored deadline is
    [now + ttl], which is not after [now]; while that deadline is strictly
    positive, every [Get] at a strictly later clock reading reports the
    entry not found; when it is zero or negative (a default TTL of [-now]
    or below) every [Get] finds the entry, which never expires. *)
Theorem Set_nonpositive_ttl r c key value ttlArgs tDefault tOverride tAccess
    order :
  wf c →
  ∃ c1 idx s1 e,
    SetOf r c key value ttlArgs tDefault tOverride tAccess order = Some c1 ∧
    getShard c1 key = Some (idx, s1) ∧ store s1 !! key = Some e ∧
    (∃ now d,
       (now, d) = match ttlArgs with
                  | d :: _ => if 0 <? d then (tOverride, d)
                              else (tDefault, ttl c)
                  | [] => (tDefault, ttl c)
                  end ∧
       - 2 ^ 63 ≤ Expiration e < 2 ^ 63 ∧
       (Expiration e - (now + d)) mod 2 ^ 64 = 0) ∧
    (ttl c ≤ 0 →
     (∀ d, head ttlArgs = Some d → d ≤ 0) →
     - 2 ^ 63 ≤ tDefault + ttl c → tDefault < 2 ^ 63 →
     Expiration e = tDefault + ttl c ∧ Expiration e ≤ UnixNano tDefault ∧
     (0 < Expiration e → ∀ tNow tFresh, tDefault < tNow < 2 ^ 63 →
        ∃ c2, Get c1 key tNow tFresh = Some (c2, (None, false))) ∧
     (Expiration e ≤ 0 → ∀ tNow tFresh,
        ∃ c2, Get c1 key tNow tFresh = Some (c2, (value, true)))).
Proof.
  intros Hwf.
  destruct (SetOf_total r c key value ttlArgs tDefault tOverride tAccess
              order Hwf) as [c1 HS].
  pose proof HS as (idx & s1 & Hg & Hk)%Set_stores.
  eexists c1, idx, s1, _.
  split; [done|]. split; [done|]. split; [exact Hk|]. cbn [Expiration].
  assert (∀ t d, - 2 ^ 63 ≤ UnixNano (Add t d) < 2 ^ 63 ∧
                 (UnixNano (Add t d) - (t + d)) mod 2 ^ 64 = 0) as Hwrap.
  { intros t d. unfold UnixNano, Add, wrap_i64.
    pose proof (Z.mod_pos_bound (t + d + 2 ^ 63) (2 ^ 64) ltac:(lia)).
    split; [lia|].
    replace ((t + d + 2 ^ 63) mod 2 ^ 64 - 2 ^ 63 - (t + d))
      with (- ((t + d + 2 ^ 63) / 2 ^ 64) * 2 ^ 64)
      by (pose proof (Z.div_mod (t + d + 2 ^ 63) (2 ^ 64) ltac:(lia)); lia).
    apply Z.mod_mul. lia. }
  split.
  { unfold setDeadline. destruct ttlArgs as [|d rest];
      [by exists tDefault, (ttl c)|].
    destruct (0 <? d); [by exists tOverride, d|by exists tDefault, (ttl c)]. }
  intros Httl Hno Hlo Hhi.
  assert (setDeadline c ttlArgs tDefault tOverride = tDefault + ttl c) as Hd.
  { unfold setDeadline. destruct ttlArgs as [|d rest].
    - apply UnixNano_Add_exact. lia.
    - specialize (Hno d eq_refl).
      destruct (0 <? d) eqn:E; [apply Z.ltb_lt in E; lia|].
      apply UnixNano_Add_exact. lia. }
  rewrite Hd in *. split; [done|].
  assert (- 2 ^ 63 ≤ tDefault) by lia.
  split; [unfold UnixNano; rewrite wrap_i64_small; lia|]. split.
  - intros Hpos tNow tFresh HtNow.
    destruct (Get_result c1 key idx s1 tNow tFresh Hg) as [c2 HG].
    rewrite Hk in HG. simpl in HG. exists c2. rewrite HG.
    assert (expired (tDefault + ttl c) (UnixNano tNow) = true) as ->; [|done].
    apply expired_true. unfold UnixNano. rewrite wrap_i64_small; lia.
  - intros Hneg tNow tFresh.
    destruct (Get_result c1 key idx s1 tNow tFresh Hg) as [c2 HG].
    rewrite Hk in HG. simpl in HG. exists c2. rewrite HG.
    assert (expired (tDefault + ttl c) (UnixNano tNow) = false) as ->; [|done].
    apply expired_false. lia.
Qed.

(** C3.  Eviction trigger, in either revision: a [Set] changes the eviction
    counter, or removes a key other than its own from the shard, only when
    the capacity is positive, the key is new to its shard and the
    live-count has reached the capacity.  A [Set] on a key already present
    leaves the eviction counter, the live-count and every other entry of
    the shard as they were; no [Set] touches another shard. *)
Theorem Set_eviction_trigger r c key value ttlArgs tDefault tOverride tAccess
    order idx s :
  getShard c key = Some (idx, s) →
  ∃ c1 s1,
    SetOf r c key value ttlArgs tDefault tOverride tAccess order = Some c1 ∧
    getShard c1 key = Some (idx, s1) ∧
    shards c1 = <[idx := s1]> (shards c) ∧
    (evictions c1 ≠ evictions c ∨
     (∃ k, k ≠ key ∧ is_Some (store s !! k) ∧ store s1 !! k = None) →
     0 < maxCapacity c ∧ store s !! key = None ∧ maxCapacity c ≤ size s) ∧
    (is_Some (store s !! key) →
     evictions c1 = evictions c ∧ size s1 = size s ∧
     ∀ k, k ≠ key → store s1 !! k = store s !! k).
Proof.
  intros Hg.
  destruct (SetOf_routes r c key value ttlArgs tDefault tOverride tAccess
              order idx s Hg) as [c1 HS].
  exists c1. pose proof HS as (idx' & s' & Hg' & Hc1 & Hg1 & Hs)%Set_inv.
  rewrite Hg in Hg'. injection Hg' as <- <-. simpl in *.
  set (dl := setDeadline c ttlArgs tDefault tOverride) in *.
  set (cs := evictPhase r c s key order) in *.
  pose proof (insertPhase_frame cs.1 cs.2 key value dl (UnixNano tAccess))
    as (_ & _ & _ & _ & _ & _ & Hev).
  pose proof (insertPhase_store cs.1 cs.2 key value dl (UnixNano tAccess))
    as Hst.
  simpl in Hev. eexists. split; [exact HS|]. split; [exact Hg1|].
  split; [exact Hs|].
  assert (cs = (c, s) →
          evictions c1 = evictions c ∧
          ∀ k, k ≠ key →
            store (insertPhase cs.1 cs.2 key value dl (UnixNano tAccess)).2
              !! k = store s !! k) as Hsame.
  { intros Hcs. split.
    - rewrite Hc1. simpl. rewrite Hev. by rewrite Hcs.
    - intros k Hne. rewrite Hst, lookup_insert_ne by done. by rewrite Hcs. }
  split.
  - intros Hchg. destruct (evictPhase_cases r c s key order)
      as [Hcs|(Hcap & Hfull & Hnew & _)]; [|done].
    destruct (Hsame Hcs) as [Hev' Hst']. exfalso.
    destruct Hchg as [Hchg|(k & Hne & [x Hx] & Hnone)]; [done|].
    rewrite Hst' in Hnone by done. congruence.
  - intros Hin. pose proof (evictPhase_present r c s key order Hin) as Hcs.
    destruct (Hsame Hcs) as [Hev' Hst']. split; [done|]. split; [|done].
    fold cs in Hcs. rewrite Hcs. simpl. unfold insertPhase.
    destruct Hin as [x Hx]. by rewrite Hx.
Qed.

(** C6.  Live-count invariant, in either revision: the constructor
    establishes, and [Set], [Get], [Delete], [Clear], a sweep of the cleanup
    and [evictOldest] all preserve, that the [size] counter of a shard is
    the number of keys of its map as an [int]; so in every reachable state
    the counter of every shard is exactly the number of keys of its map (a
    number of keys that an [int] can hold). *)
Theorem live_count_invariant :
  (∀ defaultTTL maxCapacityPerShard,
     cache_ok (NewKVCacheWithCapacity V defaultTTL maxCapacityPerShard)) ∧
  (∀ r c c', cache_ok c → step r c c' → cache_ok c') ∧
  (∀ r c s order, count_ok s → count_ok (evictOldestOf r c s order).2) ∧
  (∀ r c s, reachable r c → s ∈ shards c →
     size s = wrap_i64 (Z.of_nat (card (store s))) ∧
     (Z.of_nat (card (store s)) ≤ MaxInt64 →
      size s = Z.of_nat (card (store s)))).
Proof.
  split; [apply cache_ok_New|]. split; [apply cache_ok_step|].
  split; [apply count_ok_evictOldest|].
  intros r c s Hr Hin. apply cache_ok_reachable in Hr.
  unfold cache_ok in Hr. rewrite Forall_forall in Hr.
  apply list_elem_of_In in Hin. specialize (Hr s Hin). split; [done|].
  intros Hfit.
  rewrite Hr. apply wrap_i64_small. unfold MaxInt64 in Hfit. lia.
Qed.

(** C7.  Idempotent miss: on a well-formed cache and a key absent from the
    shard it routes to, [Get] returns [(nil, false)] and does not panic,
    changing nothing but the miss counter, and [Delete] returns the cache
    unchanged and does not panic. *)
Theorem miss_is_idempotent c key tNow tFresh :
  wf c →
  (∀ idx s, getShard c key = Some (idx, s) → store s !! key = None) →
  Get c key tNow tFresh =
    Some (set_misses c (wrap_u64 (misses c + 1)), (None, false)) ∧
  Delete c key = Some c.
Proof.
  intros Hwf Habs. destruct (getShard_wf c key Hwf) as (idx & s & Hg).
  specialize (Habs idx s Hg). split.
  - by eapply Get_absent.
  - by eapply Delete_absent.
Qed.

(** C10.  Metrics accounting: a [Get] adds one ([uint64] addition) to
    [hits] when it returns found and to [misses] when it does not, and
    leaves the other two counters alone; [Set] and [Delete] leave [hits]
    and [misses] alone; [Clear] empties every shard and leaves [hits],
    [misses] and [evictions] alone. *)
Theorem metrics_accounting :
  (∀ c key tNow tFresh, wf c →
     ∃ c1 value found,
       Get c key tNow tFresh = Some (c1, (value, found)) ∧
       evictions c1 = evictions c ∧
       (found = true ∧ hits c1 = wrap_u64 (hits c + 1) ∧
          misses c1 = misses c ∨
        found = false ∧ misses c1 = wrap_u64 (misses c + 1) ∧
          hits c1 = hits c)) ∧
  (∀ r c key value ttlArgs tDefault tOverride tAccess order, wf c →
     ∃ c1,
       SetOf r c key value ttlArgs tDefault tOverride tAccess order = Some c1 ∧
       hits c1 = hits c ∧ misses c1 = misses c) ∧
  (∀ c key, wf c →
     ∃ c1, Delete c key = Some c1 ∧ hits c1 = hits c ∧ misses c1 = misses c) ∧
  (∀ c,
     hits (Clear c) = hits c ∧ misses (Clear c) = misses c ∧
     evictions (Clear c) = evictions c ∧
     Forall (λ s, store s = ∅ ∧ size s = 0) (shards (Clear c))).
Proof.
  split; [|split; [|split]].
  - intros c key tNow tFresh Hwf.
    destruct (Get_total c key tNow tFresh Hwf) as (c1 & [value found] & HG).
    exists c1, value, found. split; [done|].
    split; [by apply Get_frame in HG as (_ & _ & _ & ? & _)|].
    apply Get_inv in HG. inversion HG; subst; simpl.
    + by right.
    + right. unfold lazyDelete.
      by destruct (expired (Expiration e) (UnixNano tFresh)).
    + by left.
  - intros r c key value ttlArgs tD tO tA order Hwf.
    destruct (SetOf_total r c key value ttlArgs tD tO tA order Hwf)
      as [c1 HS].
    exists c1. split; [done|].
    by apply Set_frame in HS as (_ & _ & _ & ? & ? & _).
  - intros c key Hwf. destruct (Delete_total c key Hwf) as [c1 HD].
    exists c1. split; [done|].
    by apply Delete_frame in HD as (_ & _ & _ & ? & ? & _).
  - intros c. pose proof (rangeShards_frame clearShard c)
      as (_ & _ & _ & ? & ? & ?).
    repeat split; try done.
    eapply Forall_impl; [|apply Clear_shards]. by intros s ->.
Qed.

End Claims.

(** * Binary64 arithmetic

    The operations of [SpecFloat] on positive numbers of the normal range,
    related to the real numbers they stand for. *)

(** ** Powers of two *)

Lemma pow2_pos e : (0 < powerRZ 2 e)%R.
Proof. apply powerRZ_lt. lra. Qed.

Lemma pow2_add a b : powerRZ 2 (a + b) = (powerRZ 2 a * powerRZ 2 b)%R.
Proof. apply powerRZ_add. lra. Qed.

Lemma pow2_succ e : powerRZ 2 (e + 1) = (2 * powerRZ 2 e)%R.
Proof. rewrite pow2_add. simpl. lra. Qed.

Lemma pow2_IZR z : 0 ≤ z → powerRZ 2 z = IZR (2 ^ z).
Proof.
  intros Hz. rewrite <- (Z2Nat.id z Hz) at 1.
  rewrite <- pow_powerRZ, pow_IZR. by rewrite Z2Nat.id.
Qed.

Lemma pow2_le a b : a ≤ b → (powerRZ 2 a <= powerRZ 2 b)%R.
Proof.
  intros Hab. replace b with (a + (b - a)) by lia.
  rewrite pow2_add, (pow2_IZR (b - a)) by lia.
  pose proof (pow2_pos a).
  assert (1 <= IZR (2 ^ (b - a)))%R.
  { apply IZR_le. pose proof (Z.pow_pos_nonneg 2 (b - a)). lia. }
  nra.
Qed.

Lemma located_bounds m e l x :
  located m e l x →
  (IZR m * powerRZ 2 e <= x < (IZR m + 1) * powerRZ 2 e)%R.
Proof.
  pose proof (pow2_pos e). destruct l as [|[| |]]; simpl; intros Hx; nra.
Qed.

(** ** Shifting right keeps the position *)

Lemma loc_of_shr_record_of_loc m l :
  loc_of_shr_record (shr_record_of_loc m l) = l ∧
  shr_m (shr_record_of_loc m l) = m.
Proof. by destruct l as [|[| |]]. Qed.

Lemma shr_1_located mrs e x :
  0 ≤ shr_m mrs → located (shr_m mrs) e (loc_of_shr_record mrs) x →
  0 ≤ shr_m (shr_1 mrs) ∧
  located (shr_m (shr_1 mrs)) (e + 1) (loc_of_shr_record (shr_1 mrs)) x.
Proof.
  destruct mrs as [m r s]. cbn [shr_m]. intros Hm Hx.
  pose proof (pow2_pos e) as Hu. pose proof (pow2_succ e) as Hs.
  destruct m as [|[p|p|]|p]; [| | | |lia];
    (split; [cbn [shr_1 shr_m]; lia|]).
  - destruct r, s;
      unfold located, loc_of_shr_record, shr_1 in *; cbn [orb shr_m] in *;
      rewrite Hs; lra.
  - assert (IZR (Z.pos p~1) = 2 * IZR (Z.pos p) + 1)%R as HI
      by (rewrite Pos2Z.inj_xI, plus_IZR, mult_IZR; lra).
    destruct r, s;
      unfold located, loc_of_shr_record, shr_1 in *; cbn [orb shr_m] in *;
      rewrite HI in Hx; rewrite Hs; lra.
  - assert (IZR (Z.pos p~0) = 2 * IZR (Z.pos p))%R as HO
      by (rewrite Pos2Z.inj_xO, mult_IZR; lra).
    destruct r, s;
      unfold located, loc_of_shr_record, shr_1 in *; cbn [orb shr_m] in *;
      rewrite HO in Hx; rewrite Hs; lra.
  - destruct r, s;
      unfold located, loc_of_shr_record, shr_1 in *; cbn [orb shr_m] in *;
      rewrite Hs; lra.
Qed.

Lemma iter_pos_shr_1_located p : ∀ mrs e x,
  0 ≤ shr_m mrs → located (shr_m mrs) e (loc_of_shr_record mrs) x →
  0 ≤ shr_m (SpecFloat.iter_pos shr_1 p mrs) ∧
  located (shr_m (SpecFloat.iter_pos shr_1 p mrs)) (e + Z.pos p)
          (loc_of_shr_record (SpecFloat.iter_pos shr_1 p mrs)) x.
Proof.
  induction p as [p IH|p IH|]; intros mrs e x Hm Hx; cbn [SpecFloat.iter_pos].
  - destruct (shr_1_located mrs e x Hm Hx) as [Hm1 Hx1].
    destruct (IH _ _ _ Hm1 Hx1) as [Hm2 Hx2].
    destruct (IH _ _ _ Hm2 Hx2) as [Hm3 Hx3].
    split; [done|].
    by replace (e + Z.pos p~1) with (e + 1 + Z.pos p + Z.pos p) by lia.
  - destruct (IH _ _ _ Hm Hx) as [Hm2 Hx2].
    destruct (IH _ _ _ Hm2 Hx2) as [Hm3 Hx3].
    split; [done|].
    by replace (e + Z.pos p~0) with (e + Z.pos p + Z.pos p) by lia.
  - by apply shr_1_located.
Qed.

Lemma shr_located m e l x n :
  0 ≤ m → located m e l x →
  0 ≤ shr_m (shr (shr_record_of_loc m l) e n).1 ∧
  (shr (shr_record_of_loc m l) e n).2 = e + Z.max n 0 ∧
  located (shr_m (shr (shr_record_of_loc m l) e n).1) (e + Z.max n 0)
          (loc_of_shr_record (shr (shr_record_of_loc m l) e n).1) x.
Proof.
  intros Hm Hx. destruct (loc_of_shr_record_of_loc m l) as [Hl Hsm].
  assert (located (shr_m (shr_record_of_loc m l)) e
            (loc_of_shr_record (shr_record_of_loc m l)) x) as Hx'
    by (by rewrite Hl, Hsm).
  destruct n as [|p|p]; cbn [shr fst snd].
  - rewrite Z.add_0_r, Hsm. split; [done|]. split; [done|]. by rewrite Hl.
  - replace (Z.max (Z.pos p) 0) with (Z.pos p) by lia.
    destruct (iter_pos_shr_1_located p (shr_record_of_loc m l) e x)
      as [H1 H2]; [by rewrite Hsm|done|]. done.
  - replace (Z.max (Z.neg p) 0) with 0 by lia.
    rewrite Z.add_0_r, Hsm. split; [done|]. split; [done|]. by rewrite Hl.
Qed.

(** ** Number of binary digits *)

Lemma digits2_pos_size p : digits2_pos p = Pos.size p.
Proof. induction p; simpl; congruence. Qed.

Lemma Zdigits2_bounds p :
  2 ^ (Z.pos (digits2_pos p) - 1) ≤ Z.pos p < 2 ^ Z.pos (digits2_pos p).
Proof.
  rewrite digits2_pos_size.
  pose proof (Pos.size_gt p) as Hgt. pose proof (Pos.size_le p) as Hle.
  apply Pos2Z.pos_lt_pos in Hgt. apply Pos2Z.pos_le_pos in Hle.
  rewrite Pos2Z.inj_pow in Hgt, Hle. change (Z.pos 2) with 2 in Hle.
  split; [|done].
  assert (2 ^ Z.pos (Pos.size p) = 2 ^ (Z.pos (Pos.size p) - 1) * 2) as Hp.
  { replace (Z.pos (Pos.size p)) with (Z.succ (Z.pos (Pos.size p) - 1))
      at 1 by lia.
    rewrite Z.pow_succ_r by lia. lia. }
  rewrite Hp in Hle. lia.
Qed.

Lemma Zdigits2_unique m d :
  2 ^ (d - 1) ≤ m < 2 ^ d → 0 < d → Zdigits2 m = d.
Proof.
  intros [Hlo Hhi] Hd.
  assert (0 < m) as Hm by (pose proof (Z.pow_pos_nonneg 2 (d - 1)); lia).
  destruct m as [|p|p]; [lia| |lia]. cbn [Zdigits2].
  pose proof (Zdigits2_bounds p) as [Hlo' Hhi'].
  assert (Z.pos (digits2_pos p) - 1 < d).
  { apply (Z.pow_lt_mono_r_iff 2); lia. }
  assert (d - 1 < Z.pos (digits2_pos p)).
  { apply (Z.pow_lt_mono_r_iff 2); lia. }
  lia.
Qed.

Lemma Zdigits2_pos_bounds m :
  0 < m → 0 < Zdigits2 m ∧ 2 ^ (Zdigits2 m - 1) ≤ m < 2 ^ Zdigits2 m.
Proof.
  intros Hm. destruct m as [|p|p]; [lia| |lia]. cbn [Zdigits2].
  split; [lia|apply Zdigits2_bounds].
Qed.

(** ** Rounding *)

Lemma pow2_neg_inv k : 0 ≤ k → powerRZ 2 (- k) = (/ IZR (2 ^ k))%R.
Proof.
  intros Hk. pose proof (pow2_add (- k) k) as H.
  replace (- k + k) with 0 in H by lia. rewrite (pow2_IZR k Hk) in H.
  simpl in H. assert (0 < IZR (2 ^ k))%R as Hpos.
  { apply IZR_lt. by apply Z.pow_pos_nonneg. }
  apply (Rmult_eq_reg_r (IZR (2 ^ k))); [|lra].
  rewrite <- H. field. lra.
Qed.

Lemma pow2_m53 : powerRZ 2 (-53) = (/ 9007199254740992)%R.
Proof. exact (pow2_neg_inv 53 ltac:(lia)). Qed.

Lemma round_nearest_even_located m e l x :
  located m e l x →
  m ≤ round_nearest_even m l ≤ m + 1 ∧
  (Rabs (IZR (round_nearest_even m l) * powerRZ 2 e - x)
     <= powerRZ 2 e / 2)%R.
Proof.
  pose proof (pow2_pos e) as Hu. intros Hx.
  destruct l as [|[| |]]; cbn [round_nearest_even located] in *.
  - split; [lia|]. subst x. rewrite Rminus_diag, Rabs_R0. lra.
  - destruct (Z.even m); (split; [lia|]); rewrite ?plus_IZR; subst x;
      apply Rabs_le; lra.
  - split; [lia|]. apply Rabs_le. lra.
  - split; [lia|]. rewrite plus_IZR. apply Rabs_le. lra.
Qed.

Lemma mantissa_of_magnitude m e k x :
  0 ≤ m →
  (IZR m * powerRZ 2 e <= x < (IZR m + 1) * powerRZ 2 e)%R →
  (powerRZ 2 (k - 1 + e) <= x < powerRZ 2 (k + e))%R → 0 < k →
  2 ^ (k - 1) ≤ m < 2 ^ k.
Proof.
  intros Hm Hx Hmag Hk. pose proof (pow2_pos e) as Hu.
  rewrite !pow2_add, (pow2_IZR (k - 1)), (pow2_IZR k) in Hmag by lia.
  split.
  - assert (IZR (2 ^ (k - 1)) < IZR (m + 1))%R as H%lt_IZR; [|lia].
    rewrite plus_IZR. nra.
  - apply lt_IZR. nra.
Qed.

Lemma fexp_normal e : -1021 ≤ e → fexp prec64 emax64 e = e - 53.
Proof. unfold fexp, emin, prec64, emax64. lia. Qed.

(** [binary_round_aux] rounds a positive real of the normal range, given
    by a mantissa of at least 53 digits and a position, to a normal
    [float64] with a relative error of at most [2^-53]. *)
Lemma binary_round_aux_correct sx mx ex lx x :
  0 < mx → located mx ex lx x →
  53 ≤ Zdigits2 mx → -1074 ≤ Zdigits2 mx + ex - 53 →
  Zdigits2 mx + ex ≤ 1023 →
  ∃ m e,
    binary_round_aux prec64 emax64 sx mx ex lx = S754_finite sx m e ∧
    2 ^ 52 ≤ Z.pos m < 2 ^ 53 ∧
    Zdigits2 mx + ex - 53 ≤ e ≤ Zdigits2 mx + ex - 52 ∧
    (Rabs (IZR (Z.pos m) * powerRZ 2 e - x) <= x * powerRZ 2 (-53))%R.
Proof.
  intros Hmx Hx Hd Hlo Hhi.
  destruct (Zdigits2_pos_bounds mx Hmx) as [Hdpos Hdig].
  set (d := Zdigits2 mx) in *.
  pose proof (located_bounds mx ex lx x Hx) as Hxb.
  pose proof (pow2_pos ex) as Hu0.
  (* the magnitude of x *)
  assert (powerRZ 2 (d - 1 + ex) <= x < powerRZ 2 (d + ex))%R as Hmag.
  { rewrite !pow2_add, (pow2_IZR (d - 1)), (pow2_IZR d) by lia.
    destruct Hdig as [H1 H2]. apply IZR_le in H1.
    assert (IZR (mx + 1) <= IZR (2 ^ d))%R as H3 by (apply IZR_le; lia).
    rewrite plus_IZR in H3. nra. }
  (* first shift *)
  unfold binary_round_aux, shr_fexp. fold d.
  rewrite (fexp_normal (d + ex)) by lia.
  destruct (shr_located mx ex lx x (d + ex - 53 - ex) ltac:(lia) Hx)
    as (Hm1 & He1 & Hx1).
  destruct (shr (shr_record_of_loc mx lx) ex (d + ex - 53 - ex))
    as [mrs1 e1] eqn:E1.
  cbn [fst snd] in Hm1, He1, Hx1.
  replace (ex + Z.max (d + ex - 53 - ex) 0) with (d + ex - 53) in * by lia.
  subst e1. set (e1 := d + ex - 53) in *.
  pose proof (located_bounds _ _ _ _ Hx1) as Hxb1.
  assert (2 ^ 52 ≤ shr_m mrs1 < 2 ^ 53) as Hm1b.
  { apply (mantissa_of_magnitude (shr_m mrs1) e1 53 x); [done|done| |lia].
    replace (53 - 1 + e1) with (d - 1 + ex) by (unfold e1; lia).
    by replace (53 + e1) with (d + ex) by (unfold e1; lia). }
  (* rounding *)
  destruct (round_nearest_even_located _ _ _ _ Hx1) as [Hr Herr].
  set (m1 := round_nearest_even (shr_m mrs1) (loc_of_shr_record mrs1)) in *.
  pose proof (pow2_pos e1) as Hu1.
  assert (x * powerRZ 2 (-53) >= powerRZ 2 e1 / 2)%R as Hulp.
  { rewrite pow2_m53.
    destruct Hm1b as [Hb _]. apply IZR_le in Hb.
    change (2 ^ 52) with 4503599627370496 in Hb.
    assert (4503599627370496 * powerRZ 2 e1 <= x)%R by nra.
    lra. }
  (* second shift *)
  destruct (Z.eq_dec m1 (2 ^ 53)) as [Heq|Hne].
  - assert (Zdigits2 m1 = 54) as Hd1.
    { apply Zdigits2_unique; [|lia]. rewrite Heq.
      change (2 ^ (54 - 1)) with (2 ^ 53). split; [lia|].
      apply Z.pow_lt_mono_r; lia. }
    rewrite Hd1, (fexp_normal (54 + e1)) by (unfold e1; lia).
    assert (located m1 e1 loc_Exact (IZR m1 * powerRZ 2 e1)) as Hx2 by done.
    destruct (shr_located m1 e1 loc_Exact _ (54 + e1 - 53 - e1) ltac:(lia)
                Hx2) as (Hm2 & He2 & Hx3).
    destruct (shr (shr_record_of_loc m1 loc_Exact) e1 (54 + e1 - 53 - e1))
      as [mrs2 e2] eqn:E2.
    cbn [fst snd] in Hm2, He2, Hx3.
    replace (e1 + Z.max (54 + e1 - 53 - e1) 0) with (e1 + 1) in * by lia.
    subst e2.
    pose proof (located_bounds _ _ _ _ Hx3) as Hxb3.
    rewrite pow2_succ in Hxb3.
    assert (shr_m mrs2 = 2 ^ 52) as Hm2v.
    { rewrite Heq in Hxb3. change (2 ^ 53) with 9007199254740992 in Hxb3.
      change (2 ^ 52) with 4503599627370496.
      assert (IZR (shr_m mrs2) <= 4503599627370496)%R as H1%le_IZR by nra.
      assert (4503599627370496 < IZR (shr_m mrs2 + 1))%R as H2%lt_IZR
        by (rewrite plus_IZR; nra).
      lia. }
    rewrite Hm2v. change (2 ^ 52) with (Z.pos 4503599627370496).
    cbn iota beta.
    replace (e1 + 1 <=? emax64 - prec64) with true
      by (symmetry; apply Z.leb_le; unfold e1, emax64, prec64; lia).
    eexists _, _. split; [reflexivity|].
    split; [done|]. split; [unfold e1; lia|].
    rewrite pow2_succ.
    replace (IZR (Z.pos 4503599627370496) * (2 * powerRZ 2 e1))%R
      with (IZR m1 * powerRZ 2 e1)%R
      by (rewrite Heq; change (2 ^ 53) with 9007199254740992; lra).
    lra.
  - assert (Zdigits2 m1 = 53) as Hd1.
    { apply Zdigits2_unique; [|lia]. change (2 ^ (53 - 1)) with (2 ^ 52).
      lia. }
    rewrite Hd1, (fexp_normal (53 + e1)) by (unfold e1; lia).
    replace (53 + e1 - 53 - e1) with 0 by lia.
    cbn [shr shr_record_of_loc shr_m].
    destruct m1 as [|p1|p1] eqn:Em1; [lia| |lia].
    replace (e1 <=? emax64 - prec64) with true
      by (symmetry; apply Z.leb_le; unfold e1, emax64, prec64; lia).
    eexists _, _. split; [reflexivity|].
    split; [lia|]. split; [unfold e1; lia|]. lra.
Qed.

Lemma Zdigits2_range m a b :
  0 ≤ a → 2 ^ a ≤ m < 2 ^ b → a < Zdigits2 m ≤ b.
Proof.
  intros Ha [Hlo Hhi].
  assert (0 < m) as Hm by (pose proof (Z.pow_pos_nonneg 2 a); lia).
  destruct (Zdigits2_pos_bounds m Hm) as [Hd [Hlo' Hhi']].
  assert (0 ≤ b).
  { destruct (Z_lt_le_dec b 0) as [Hb|Hb]; [|done].
    rewrite (Z.pow_neg_r 2 b Hb) in Hhi. lia. }
  split.
  - apply (Z.pow_lt_mono_r_iff 2); lia.
  - assert (Zdigits2 m - 1 < b); [|lia].
    apply (Z.pow_lt_mono_r_iff 2); lia.
Qed.

(** ** Conversion of an integer *)

Lemma Pos_iter_xO p k : Z.pos (Pos.iter xO p k) = Z.pos p * 2 ^ Z.pos k.
Proof.
  induction k as [|k IH] using Pos.peano_ind.
  - simpl. lia.
  - rewrite Pos.iter_succ, Pos2Z.inj_xO, IH, Pos2Z.inj_succ.
    rewrite Z.pow_succ_r by lia. lia.
Qed.

(** [float64(n)] for a positive [n] below [2^64] is a normal number within
    a relative error of [2^-53] of [n]. *)
Lemma float64_of_Z_correct n :
  0 < n < 2 ^ 64 →
  ∃ m e,
    float64_of_Z n = S754_finite false m e ∧
    2 ^ 52 ≤ Z.pos m < 2 ^ 53 ∧ -52 ≤ e ≤ 12 ∧
    (Rabs (IZR (Z.pos m) * powerRZ 2 e - IZR n) <= IZR n * powerRZ 2 (-53))%R.
Proof.
  intros [Hpos Hlt]. destruct n as [|p|p]; [lia| |lia].
  unfold float64_of_Z, binary_normalize, binary_round, shl_align.
  destruct (Zdigits2_range (Z.pos p) 0 64 ltac:(lia) ltac:(lia)) as [Hd0 Hd64].
  pose proof (Zdigits2_bounds p) as Hdig.
  cbn [Zdigits2] in Hd0, Hd64.
  set (d := Z.pos (digits2_pos p)) in *.
  rewrite (fexp_normal (d + 0)) by lia.
  destruct (d + 0 - 53 - 0) as [|k|k] eqn:Ek.
  - (* exactly 53 digits *)
    destruct (binary_round_aux_correct false (Z.pos p) 0 loc_Exact
                (IZR (Z.pos p))) as (m & e & HR & Hm & He & Herr);
      cbn [Zdigits2]; fold d; try lia.
    { simpl. lra. }
    exists m, e. split; [exact HR|]. split; [done|]. split; [|done].
    cbn [Zdigits2] in He. fold d in He. lia.
  - (* more than 53 digits *)
    destruct (binary_round_aux_correct false (Z.pos p) 0 loc_Exact
                (IZR (Z.pos p))) as (m & e & HR & Hm & He & Herr);
      cbn [Zdigits2]; fold d; try lia.
    { simpl. lra. }
    exists m, e. split; [exact HR|]. split; [done|]. split; [|done].
    cbn [Zdigits2] in He. fold d in He. lia.
  - (* fewer than 53 digits: the mantissa is shifted left *)
    pose proof (Pos_iter_xO p k) as Hsh.
    assert (Z.pos k = 53 - d) as Hk by lia.
    assert (2 ^ 52 ≤ Z.pos (Pos.iter xO p k) < 2 ^ 53) as Hb.
    { rewrite Hsh, Hk.
      assert (2 ^ 52 = 2 ^ (d - 1) * 2 ^ (53 - d)) as ->
        by (rewrite <- Z.pow_add_r by lia; f_equal; lia).
      assert (2 ^ 53 = 2 ^ d * 2 ^ (53 - d)) as ->
        by (rewrite <- Z.pow_add_r by lia; f_equal; lia).
      pose proof (Z.pow_pos_nonneg 2 (53 - d)). nia. }
    assert (Zdigits2 (Z.pos (Pos.iter xO p k)) = 53) as Hd53
      by (by apply Zdigits2_unique).
    destruct (binary_round_aux_correct false (Z.pos (Pos.iter xO p k))
                (d + 0 - 53) loc_Exact (IZR (Z.pos p)))
      as (m & e & HR & Hm & He & Herr); rewrite ?Hd53; try lia.
    { cbn [located]. rewrite Hsh, mult_IZR, Hk.
      rewrite <- (pow2_IZR (53 - d)) by lia. rewrite Rmult_assoc.
      rewrite <- pow2_add. replace (53 - d + (d + 0 - 53)) with 0 by lia.
      simpl. lra. }
    exists m, e. split; [exact HR|]. split; [done|]. split; [lia|done].
Qed.

(** ** Division and multiplication *)

Lemma new_location_located q r m2 e x :
  0 < m2 → 0 ≤ r < m2 →
  x = ((IZR q + IZR r / IZR m2) * powerRZ 2 e)%R →
  located q e (new_location m2 r) x.
Proof.
  intros Hm2 Hr ->. pose proof (pow2_pos e) as Hu.
  assert (0 < IZR m2)%R as HM by (by apply IZR_lt).
  set (t := (IZR r / IZR m2)%R).
  assert (t * IZR m2 = IZR r)%R as Ht by (unfold t; field; lra).
  assert (r = 0 ∨ 0 < r) as [->|Hr0] by lia.
  - assert (t = 0)%R as -> by (unfold t; field; lra).
    unfold new_location, new_location_even, new_location_odd.
    destruct (Z.even m2); cbn [Z.eqb located]; lra.
  - assert (0 < IZR r)%R as HR by (apply IZR_lt; lia).
    assert (0 < t)%R as Ht0 by nra.
    assert (t < 1)%R as Ht1.
    { assert (IZR r < IZR m2)%R by (apply IZR_lt; lia). nra. }
    assert ((r =? 0) = false) as Hr0' by (apply Z.eqb_neq; lia).
    unfold new_location, new_location_even, new_location_odd.
    destruct (Z.even m2) eqn:Heven; rewrite Hr0'.
    + destruct (Z.compare_spec (2 * r) m2) as [Hc|Hc|Hc]; cbn [located].
      * apply (f_equal IZR) in Hc. rewrite mult_IZR in Hc.
        assert (t = 1 / 2)%R as -> by nra. lra.
      * apply IZR_lt in Hc. rewrite mult_IZR in Hc.
        assert (t < 1 / 2)%R by nra. nra.
      * apply IZR_lt in Hc. rewrite mult_IZR in Hc.
        assert (1 / 2 < t)%R by nra. nra.
    + assert (Z.odd m2 = true) as [k Hk]%Z.odd_spec
        by (by rewrite <- Z.negb_even, Heven).
      destruct (Z.compare_spec (2 * r + 1) m2) as [Hc|Hc|Hc]; cbn [located].
      * assert (2 * r < m2) as Hlt%IZR_lt by lia. rewrite mult_IZR in Hlt.
        assert (t < 1 / 2)%R by nra. nra.
      * assert (2 * r < m2) as Hlt%IZR_lt by lia. rewrite mult_IZR in Hlt.
        assert (t < 1 / 2)%R by nra. nra.
      * assert (m2 < 2 * r) as Hlt%IZR_lt by lia. rewrite mult_IZR in Hlt.
        assert (1 / 2 < t)%R by nra. nra.
Qed.

(** The quotient of two positive normal numbers, when it is in the normal
    range, is within a relative error of [2^-53] of the real quotient. *)
Lemma SFdiv_correct m1 e1 m2 e2 :
  2 ^ 52 ≤ Z.pos m1 < 2 ^ 53 → 2 ^ 52 ≤ Z.pos m2 < 2 ^ 53 →
  -1021 ≤ e1 - e2 ≤ 1022 →
  ∃ m e,
    SFdiv prec64 emax64 (S754_finite false m1 e1) (S754_finite false m2 e2)
      = S754_finite false m e ∧
    2 ^ 52 ≤ Z.pos m < 2 ^ 53 ∧ e1 - e2 - 53 ≤ e ≤ e1 - e2 - 51 ∧
    (Rabs (IZR (Z.pos m) * powerRZ 2 e -
           IZR (Z.pos m1) * powerRZ 2 e1 / (IZR (Z.pos m2) * powerRZ 2 e2))
       <= IZR (Z.pos m1) * powerRZ 2 e1 / (IZR (Z.pos m2) * powerRZ 2 e2)
          * powerRZ 2 (-53))%R.
Proof.
  intros Hm1 Hm2 He.
  assert (Zdigits2 (Z.pos m1) = 53) as Hd1 by (by apply Zdigits2_unique).
  assert (Zdigits2 (Z.pos m2) = 53) as Hd2 by (by apply Zdigits2_unique).
  unfold SFdiv, SFdiv_core_binary. rewrite Hd1, Hd2.
  rewrite (fexp_normal (53 + e1 - (53 + e2))) by lia.
  replace (Z.min (53 + e1 - (53 + e2) - 53) (e1 - e2))
    with (e1 - e2 - 53) by lia.
  replace (e1 - e2 - (e1 - e2 - 53)) with 53 by lia.
  cbn iota beta. rewrite Z.shiftl_mul_pow2 by lia.
  pose proof (Z_div_mod (Z.pos m1 * 2 ^ 53) (Z.pos m2) ltac:(lia)) as Hdiv.
  destruct (Z.div_eucl (Z.pos m1 * 2 ^ 53) (Z.pos m2)) as [q r].
  destruct Hdiv as [Hqr Hr].
  change (2 ^ 52) with 4503599627370496 in *.
  change (2 ^ 53) with 9007199254740992 in *.
  assert (4503599627370496 ≤ q < 18014398509481984) as Hq by nia.
  set (x := (IZR (Z.pos m1) * powerRZ 2 e1 /
             (IZR (Z.pos m2) * powerRZ 2 e2))%R).
  pose proof (pow2_pos e1) as Hu1. pose proof (pow2_pos e2) as Hu2.
  assert (0 < IZR (Z.pos m2))%R as HM2 by (apply IZR_lt; lia).
  assert (located q (e1 - e2 - 53) (new_location (Z.pos m2) r) x) as Hloc.
  { apply new_location_located; [lia|lia|].
    apply (f_equal IZR) in Hqr. rewrite plus_IZR, !mult_IZR in Hqr.
    replace (e1 - e2 - 53) with (e1 + (- e2 + -53)) by lia.
    rewrite !pow2_add, pow2_m53.
    assert (powerRZ 2 (- e2) = / powerRZ 2 e2)%R as ->.
    { pose proof (pow2_add (- e2) e2) as H.
      replace (- e2 + e2) with 0 in H by lia. simpl in H.
      apply (Rmult_eq_reg_r (powerRZ 2 e2)); [|lra].
      rewrite <- H. field. lra. }
    unfold x. field_simplify_eq; [|lra]. nra. }
  destruct (Zdigits2_range q 52 54 ltac:(lia)) as [Hdq1 Hdq2].
  { change (2 ^ 52) with 4503599627370496.
    change (2 ^ 54) with 18014398509481984. lia. }
  destruct (binary_round_aux_correct false q (e1 - e2 - 53)
              (new_location (Z.pos m2) r) x)
    as (m & e & HR & Hm & Hex & Herr); try lia; [done|].
  exists m, e. split; [exact HR|]. split; [done|]. split; [lia|done].
Qed.

(** The product of two positive normal numbers, when it is in the normal
    range, is within a relative error of [2^-53] of the real product. *)
Lemma SFmul_correct m1 e1 m2 e2 :
  2 ^ 52 ≤ Z.pos m1 < 2 ^ 53 → 2 ^ 52 ≤ Z.pos m2 < 2 ^ 53 →
  -1126 ≤ e1 + e2 ≤ 917 →
  ∃ m e,
    SFmul prec64 emax64 (S754_finite false m1 e1) (S754_finite false m2 e2)
      = S754_finite false m e ∧
    2 ^ 52 ≤ Z.pos m < 2 ^ 53 ∧ e1 + e2 + 52 ≤ e ≤ e1 + e2 + 54 ∧
    (Rabs (IZR (Z.pos m) * powerRZ 2 e -
           IZR (Z.pos m1) * powerRZ 2 e1 * (IZR (Z.pos m2) * powerRZ 2 e2))
       <= IZR (Z.pos m1) * powerRZ 2 e1 * (IZR (Z.pos m2) * powerRZ 2 e2)
          * powerRZ 2 (-53))%R.
Proof.
  intros Hm1 Hm2 He. unfold SFmul. cbn [xorb].
  change (2 ^ 52) with 4503599627370496 in *.
  change (2 ^ 53) with 9007199254740992 in *.
  destruct (Zdigits2_range (Z.pos (m1 * m2)) 104 106 ltac:(lia))
    as [Hd1 Hd2].
  { rewrite Pos2Z.inj_mul.
    change (2 ^ 104) with (4503599627370496 * 4503599627370496).
    change (2 ^ 106) with (9007199254740992 * 9007199254740992). nia. }
  destruct (binary_round_aux_correct false (Z.pos (m1 * m2)) (e1 + e2)
              loc_Exact
              (IZR (Z.pos m1) * powerRZ 2 e1 *
               (IZR (Z.pos m2) * powerRZ 2 e2))%R)
    as (m & e & HR & Hm & Hex & Herr); try lia.
  { cbn [located]. rewrite Pos2Z.inj_mul, mult_IZR, pow2_add. ring. }
  exists m, e. split; [exact HR|]. split; [done|]. split; [lia|done].
Qed.

(** ** Accumulated relative error *)

Section ErrorChain.
Local Open Scope R_scope.

Lemma Rabs_le_between (a b : R) : Rabs a <= b -> - b <= a <= b.
Proof.
  intros H. pose proof (Rle_abs a). pose proof (Rle_abs (- a)) as H2.
  rewrite Rabs_Ropp in H2. lra.
Qed.

Lemma rel_error_chain (a b vH vT w vq vr c : R) :
  0 < a -> 0 < b -> 0 < c <= 1 / 16 ->
  Rabs (vH - a) <= a * c -> Rabs (vT - b) <= b * c ->
  w * vT = vH ->
  Rabs (vq - w) <= w * c ->
  Rabs (vr - vq * 100) <= vq * 100 * c ->
  Rabs (vr - 100 * a / b) <= 100 * a / b * (8 * c).
Proof.
  intros Ha Hb Hc HH HT Hw Hq Hr.
  apply Rabs_le_between in HH, HT, Hq, Hr.
  set (rho := a / b).
  assert (a = rho * b) as Hab by (unfold rho; field; lra).
  assert (0 < rho) as Hrho by (unfold rho; apply Rdiv_lt_0_compat; lra).
  replace (100 * a / b) with (100 * rho) by (unfold rho; field; lra).
  rewrite Hab in HH. clear Hab.
  assert (0 < vT) as HvT by nra.
  assert (0 < vH) as HvH by nra.
  assert (0 < w) as Hw0.
  { destruct (Rle_or_lt w 0) as [Hneg|Hp]; [|exact Hp]. nra. }
  assert (w * (1 - c) <= rho * (1 + c)) as Hw1.
  { assert (w * (b * (1 - c)) <= rho * b * (1 + c)) by nra.
    assert (b * (w * (1 - c) - rho * (1 + c)) <= 0) by nra. nra. }
  assert (rho * (1 - c) <= w * (1 + c)) as Hw2.
  { assert (rho * b * (1 - c) <= w * (b * (1 + c))) by nra.
    assert (b * (rho * (1 - c) - w * (1 + c)) <= 0) by nra. nra. }
  assert (0 < vq) as Hvq by nra.
  set (P := 1 + c) in *. set (N := 1 - c) in *.
  assert (0 < P) as HP by (unfold P; lra).
  assert (0 < N) as HN by (unfold N; lra).
  assert (vr <= 100 * vq * P) as U1 by (unfold P; lra).
  assert (vq <= w * P) as U2 by (unfold P; lra).
  assert (100 * vq * N <= vr) as L1 by (unfold N; lra).
  assert (w * N <= vq) as L2 by (unfold N; lra).
  assert (0 < P * P) as HPP by (apply Rmult_lt_0_compat; assumption).
  assert (0 < N * N) as HNN by (apply Rmult_lt_0_compat; assumption).
  assert (0 < P * N) as HPN by (apply Rmult_lt_0_compat; assumption).
  assert (vr * N <= 100 * rho * (P * P * P)) as Hup.
  { assert (vr * N <= 100 * vq * P * N)
      by (apply Rmult_le_compat_r; lra).
    assert (vq * (P * N) <= w * P * (P * N))
      by (apply Rmult_le_compat_r; lra).
    assert (w * N * (P * P) <= rho * P * (P * P))
      by (apply Rmult_le_compat_r; lra).
    lra. }
  assert (100 * rho * (N * N * N) <= vr * P) as Hdn.
  { assert (100 * vq * N * P <= vr * P)
      by (apply Rmult_le_compat_r; lra).
    assert (w * N * (P * N) <= vq * (P * N))
      by (apply Rmult_le_compat_r; lra).
    assert (rho * N * (N * N) <= w * P * (N * N))
      by (apply Rmult_le_compat_r; lra).
    lra. }
  assert (P * P * P <= (1 + 8 * c) * N) as Hp1 by (unfold P, N; nra).
  assert ((1 - 8 * c) * P <= N * N * N) as Hp2 by (unfold P, N; nra).
  assert (100 * rho * (P * P * P) <= 100 * rho * ((1 + 8 * c) * N)) as Hq1
    by (apply Rmult_le_compat_l; lra).
  assert (100 * rho * ((1 - 8 * c) * P) <= 100 * rho * (N * N * N)) as Hq2
    by (apply Rmult_le_compat_l; lra).
  apply Rabs_le. split.
  - apply (Rmult_le_reg_r P); [exact HP|]. lra.
  - apply (Rmult_le_reg_r N); [exact HN|]. lra.
Qed.

End ErrorChain.

(** ** The value of [HitRate] *)

Lemma float64_of_Z_100 :
  float64_of_Z 100 = S754_finite false 7036874417766400 (-46).
Proof. vm_compute. reflexivity. Qed.

Lemma pow2_m50 : powerRZ 2 (-50) = (8 * powerRZ 2 (-53))%R.
Proof.
  rewrite pow2_m53, (pow2_neg_inv 50 ltac:(lia) : powerRZ 2 (-50) = _).
  change (2 ^ 50) with 1125899906842624. lra.
Qed.

Lemma HitRate_value (h t : Z) :
  0 < h → h ≤ t → t < 2 ^ 64 →
  ∃ m e,
    SFmul prec64 emax64
      (SFdiv prec64 emax64 (float64_of_Z h) (float64_of_Z t))
      (float64_of_Z 100) = S754_finite false m e ∧
    (Rabs (IZR (Z.pos m) * powerRZ 2 e - 100 * IZR h / IZR t)
       <= 100 * IZR h / IZR t * powerRZ 2 (-50))%R.
Proof.
  intros Hh Hht Ht.
  destruct (float64_of_Z_correct h ltac:(lia))
    as (mh & eh & -> & Hmh & Heh & Herrh).
  destruct (float64_of_Z_correct t ltac:(lia))
    as (mt & et & -> & Hmt & Het & Herrt).
  destruct (SFdiv_correct mh eh mt et Hmh Hmt ltac:(lia))
    as (mq & eq & -> & Hmq & Heq & Herrq).
  rewrite float64_of_Z_100.
  destruct (SFmul_correct mq eq 7036874417766400 (-46) Hmq)
    as (m & e & -> & Hm & He & Herr); [|lia|].
  { change (2 ^ 52) with 4503599627370496.
    change (2 ^ 53) with 9007199254740992. lia. }
  exists m, e. split; [done|].
  assert (IZR (Z.pos 7036874417766400) * powerRZ 2 (-46) = 100)%R as H100.
  { rewrite (pow2_neg_inv 46 ltac:(lia) : powerRZ 2 (-46) = _).
    change (2 ^ 46) with 70368744177664. lra. }
  rewrite H100 in Herr. rewrite pow2_m50.
  pose proof (pow2_pos et) as Hut.
  assert (0 < IZR (Z.pos mt))%R as HMt by (apply IZR_lt; lia).
  eapply (rel_error_chain (IZR h) (IZR t)
            (IZR (Z.pos mh) * powerRZ 2 eh) (IZR (Z.pos mt) * powerRZ 2 et)
            (IZR (Z.pos mh) * powerRZ 2 eh / (IZR (Z.pos mt) * powerRZ 2 et))
            (IZR (Z.pos mq) * powerRZ 2 eq));
    try done.
  - apply IZR_lt. lia.
  - apply IZR_lt. lia.
  - rewrite pow2_m53. lra.
  - field. nra.
Qed.

(** ** Hit rate *)

(** C8, as amended.  For counters whose sum fits in a [uint64], [HitRate]
    is a finite [float64]: zero when [Hits + Misses] is zero, and otherwise
    [Hits / (Hits + Misses) * 100] up to rounding -- the result of
    [float64(Hits) / float64(Hits + Misses) * 100] in binary64 arithmetic,
    whose value is within a relative error of [2^-50] of the real number
    [100 * Hits / (Hits + Misses)]. *)
Theorem HitRate_percentage (s : CacheStats) :
  0 ≤ Hits s → 0 ≤ Misses s → Hits s + Misses s < 2 ^ 64 →
  (Hits s + Misses s = 0 → HitRate s = float64_of_Z 0) ∧
  (Hits s + Misses s ≠ 0 →
   HitRate s =
     SFmul prec64 emax64
       (SFdiv prec64 emax64 (float64_of_Z (Hits s))
              (float64_of_Z (Hits s + Misses s)))
       (float64_of_Z 100)) ∧
  ∃ v,
    float64_real (HitRate s) = Some v ∧
    (Hits s + Misses s = 0 → v = 0%R) ∧
    (Hits s + Misses s ≠ 0 →
     (Rabs (v - 100 * IZR (Hits s) / IZR (Hits s + Misses s))
        <= 100 * IZR (Hits s) / IZR (Hits s + Misses s)
           * powerRZ 2 (-50))%R).
Proof.
  intros Hh Hm Hsum.
  assert (HitRate s =
          if Hits s + Misses s =? 0 then float64_of_Z 0
          else SFmul prec64 emax64
                 (SFdiv prec64 emax64 (float64_of_Z (Hits s))
                        (float64_of_Z (Hits s + Misses s)))
                 (float64_of_Z 100)) as HR.
  { unfold HitRate. by rewrite wrap_u64_small by lia. }
  destruct (Z.eqb_spec (Hits s + Misses s) 0) as [E|E].
  { split; [done|]. split; [done|]. exists 0%R. by rewrite HR. }
  split; [done|]. split; [done|]. rewrite HR.
  destruct (Z.eq_dec (Hits s) 0) as [H0|H0].
  - (* no hit: the quotient and the product are exactly zero *)
    destruct (float64_of_Z_correct (Hits s + Misses s) ltac:(lia))
      as (mt & et & -> & _).
    rewrite H0, float64_of_Z_100. exists 0%R. split; [done|].
    split; [done|]. intros _.
    replace (100 * 0 / IZR (0 + Misses s))%R with 0%R
      by (unfold Rdiv; ring).
    rewrite Rminus_diag, Rabs_R0. lra.
  - destruct (HitRate_value (Hits s) (Hits s + Misses s))
      as (m & e & -> & Herr); [lia|lia|lia|].
    eexists. split; [reflexivity|]. split; [done|]. intros _.
    by rewrite Rmult_1_l.
Qed.

(** The accounting test of the specification: one hit and one miss give a
    hit rate of exactly 50. *)
Example HitRate_one_hit_one_miss :
  HitRate (mkStats 1 1 0 0) = float64_of_Z 50.
Proof. vm_compute. reflexivity. Qed.

(** * Concrete instances *)

(** C1, instance of the amended statement: a value set with the default
    TTL of five minutes is read back a microsecond later. *)
Lemma Set_Get_roundtrip_witness :
  wf fresh ∧
  (setDeadline fresh [] t0 t0 ≤ 0 ∨
   UnixNano (t0 + 1000) ≤ setDeadline fresh [] t0 t0) ∧
  ∃ c1 c2,
    Set_ fresh "user:1" (Some 30) [] t0 t0 t0 [] = Some c1 ∧
    Get c1 "user:1" (t0 + 1000) (t0 + 1000) = Some (c2, (Some 30, true)).
Proof.
  assert (wf fresh) as H1 by wf_by_computation.
  assert (setDeadline fresh [] t0 t0 ≤ 0 ∨
          UnixNano (t0 + 1000) ≤ setDeadline fresh [] t0 t0) as H2
    by (right; vm_compute; intros H; discriminate H).
  split; [exact H1|]. split; [exact H2|].
  destruct (Set_Get_roundtrip sampling fresh "user:1" (Some 30) [] t0 t0 t0 []
              (t0 + 1000) (t0 + 1000) H1)
    as (c1 & c2 & res & HS & HG & Hlive & _).
  exists c1, c2. split; [exact HS|]. rewrite <- (Hlive H2). exact HG.
Defined.

(** C1, counterexample to the statement for every default TTL: with a
    default TTL of zero the [Get] one nanosecond after the [Set] misses,
    and with a default TTL of minus one nanosecond so does a [Get] at the
    very instant of the [Set]. *)
Lemma Set_Get_nonpositive_ttl_miss :
  (c1 ← Set_ (NewKVCache Z 0) "k" (Some 7) [] t0 t0 t0 [];
   r ← Get c1 "k" (t0 + 1) (t0 + 1); Some r.2) = Some (None, false) ∧
  (c1 ← Set_ (NewKVCache Z (-1)) "k" (Some 7) [] t0 t0 t0 [];
   r ← Get c1 "k" t0 t0; Some r.2) = Some (None, false).
Proof. split; vm_compute; reflexivity. Qed.

(** C2, instance of the amended statement: the entry set at [t0] with a
    deadline five minutes later is found a microsecond later. *)
Lemma expiration_semantics_witness :
  getShard afterSet "user:1" = Some (203%nat, user1Shard) ∧
  store user1Shard !! "user:1" = Some user1 ∧
  ∃ c' res, Get afterSet "user:1" (t0 + 1000) (t0 + 1000) = Some (c', res) ∧
            res = (Some 30, true).
Proof.
  assert (getShard afterSet "user:1" = Some (203%nat, user1Shard)) as H1
    by (vm_compute; reflexivity).
  assert (store user1Shard !! "user:1" = Some user1) as H2
    by (vm_compute; reflexivity).
  split; [exact H1|]. split; [exact H2|].
  destruct (expiration_semantics afterSet "user:1" 203%nat user1Shard user1
              (t0 + 1000) (t0 + 1000) (t0 + 1000) H1 H2)
    as [(c' & res & HG & [[_ [_ Hlt]]|[Hr _]] & _) _].
  - vm_compute in Hlt. discriminate Hlt.
  - exists c', res. split; [exact HG|exact Hr].
Defined.

(** C2, counterexample to "expired iff non-zero and passed": with a
    default TTL of minus two billion seconds the stored [Expiration] is
    negative, hence non-zero and before every later clock reading, yet
    [Get] finds the entry and the cleanup keeps it. *)
Lemma negative_expiration_is_live :
  (c1 ← Set_ (NewKVCache Z (-2000000000000000000)) "k" (Some 7) []
             t0 t0 t0 [];
   '(_, s) ← getShard c1 "k";
   e ← store s !! "k";
   res ← Get c1 "k" (t0 + fiveMinutes) (t0 + fiveMinutes);
   '(_, s') ← getShard (cleanupTick c1 (t0 + fiveMinutes)) "k";
   Some (Expiration e, res.2, Expiration <$> store s' !! "k"))
  = Some (-207000000000000000, (Some 7, true), Some (-207000000000000000)).
Proof. vm_compute. reflexivity. Qed.

(** C3, instance: updating the only key of a shard that is at its
    capacity of one leaves the eviction counter alone. *)
Lemma Set_eviction_trigger_witness :
  getShard boundedFull "" = Some (197%nat, emptyKeyShard) ∧
  ∃ c1,
    Set_ boundedFull "" (Some 2) [] (t0 + 1000) (t0 + 1000) (t0 + 1000)
         [("", emptyKeyEntry)] = Some c1 ∧
    evictions c1 = evictions boundedFull.
Proof.
  assert (getShard boundedFull "" = Some (197%nat, emptyKeyShard)) as H1
    by (vm_compute; reflexivity).
  split; [exact H1|].
  destruct (Set_eviction_trigger sampling boundedFull "" (Some 2) []
              (t0 + 1000) (t0 + 1000) (t0 + 1000) [("", emptyKeyEntry)]
              197%nat emptyKeyShard H1) as (c1 & s1 & HS & _ & _ & _ & Hupd).
  exists c1. split; [exact HS|].
  apply Hupd. exists emptyKeyEntry. vm_compute. reflexivity.
Defined.

(** C4, the code at the failing input.  Capacity one per shard; [Set("", 1)]
    fills shard 197; [Set("ak", 2)] routes to the same shard and calls
    [evictOldest], which examines the entry of the empty key, the only and
    so the oldest one, and removes nothing: the eviction counter stays at
    zero and the shard holds two entries against a capacity of one.  Both
    revisions behave so. *)
Lemma evictOldest_keeps_empty_key :
  Set_ bounded "" (Some 1) [] t0 t0 t0 [] = Some boundedFull ∧
  getShard boundedFull "ak" = Some (197%nat, emptyKeyShard) ∧
  map_to_list (store emptyKeyShard) = [("", emptyKeyEntry)] ∧
  ∀ r,
    evictOldestOf r boundedFull emptyKeyShard [("", emptyKeyEntry)]
      = (boundedFull, emptyKeyShard) ∧
    (c2 ← SetOf r boundedFull "ak" (Some 2) [] (t0 + 1000) (t0 + 1000)
                (t0 + 1000) [("", emptyKeyEntry)];
     '(_, s2) ← getShard c2 "ak";
     Some (maxCapacity c2, evictions c2, size s2,
           Value <$> store s2 !! "", Value <$> store s2 !! "ak"))
    = Some (1, 0, 2, Some (Some 1), Some (Some 2)).
Proof.
  split; [vm_compute; reflexivity|]. split; [vm_compute; reflexivity|].
  split; [vm_compute; reflexivity|].
  intros r. destruct r; split; vm_compute; reflexivity.
Qed.

(** The two revisions on a full shard of six entries visited with the
    oldest last: the sampling revision examines five entries and removes
    the oldest of those, ["key142"]; the earlier revision examines all six
    and removes ["key65"]. *)
Example revisions_differ_on_sixth_entry :
  (c ← Set_ (NewKVCacheWithCapacity Z fiveMinutes 6) "key65" (Some 0) []
            t0 t0 t0 [];
   c ← Set_ c "key142" (Some 1) [] (t0 + 1) (t0 + 1) (t0 + 1) [];
   c ← Set_ c "key326" (Some 2) [] (t0 + 2) (t0 + 2) (t0 + 2) [];
   c ← Set_ c "key353" (Some 3) [] (t0 + 3) (t0 + 3) (t0 + 3) [];
   c ← Set_ c "key403" (Some 4) [] (t0 + 4) (t0 + 4) (t0 + 4) [];
   Set_ c "key476" (Some 5) [] (t0 + 5) (t0 + 5) (t0 + 5) []) = Some sixFull ∧
  getShard sixFull "key498" = Some (1%nat, sixShard) ∧
  sixVisit ≡ₚ map_to_list (store sixShard) ∧
  (c ← SetOf sampling sixFull "key498" (Some 6) [] (t0 + 6) (t0 + 6) (t0 + 6)
             sixVisit;
   '(_, s) ← getShard c "key498";
   Some (evictions c, size s, Value <$> store s !! "key142",
         Value <$> store s !! "key65"))
  = Some (1, 6, None, Some (Some 0)) ∧
  (c ← SetOf fullScan sixFull "key498" (Some 6) [] (t0 + 6) (t0 + 6) (t0 + 6)
             sixVisit;
   '(_, s) ← getShard c "key498";
   Some (evictions c, size s, Value <$> store s !! "key142",
         Value <$> store s !! "key65"))
  = Some (1, 6, Some (Some 1), None).
Proof.
  split; [vm_compute; reflexivity|]. split; [vm_compute; reflexivity|].
  split; [|split; vm_compute; reflexivity].
  symmetry. apply map_to_list_to_map.
  apply (bool_decide_unpack _). vm_compute. exact I.
Qed.

(** C5, instance: an override of thirty seconds is added to the clock
    reading taken for it. *)
Lemma Set_deadline_witness :
  wf fresh ∧
  ∃ c1 idx s1 e,
    Set_ fresh "session:abc" (Some 1) [thirtySeconds] t0 (t0 + 5) (t0 + 9) []
      = Some c1 ∧
    getShard c1 "session:abc" = Some (idx, s1) ∧
    store s1 !! "session:abc" = Some e ∧
    Expiration e = t0 + 5 + thirtySeconds.
Proof.
  assert (wf fresh) as H1 by wf_by_computation.
  split; [exact H1|].
  destruct (Set_deadline sampling fresh "session:abc" (Some 1) [thirtySeconds]
              t0 (t0 + 5) (t0 + 9) [] H1)
    as (c1 & idx & s1 & e & HS & Hg & Hk & _ & Hov & _).
  exists c1, idx, s1, e. split; [exact HS|]. split; [exact Hg|].
  split; [exact Hk|].
  assert (0 < thirtySeconds) as Hpos by (vm_compute; reflexivity).
  destruct (Hov thirtySeconds [] eq_refl Hpos) as (_ & _ & Hexact & _).
  apply Hexact.
  split; [vm_compute; intros H; discriminate H|vm_compute; reflexivity].
Defined.

(** C5, counterexample to the deadline being [now + override] for every
    [Set]: with the greatest [time.Duration] as override, [math.MaxInt64],
    the [Set] at [t0] stores a negative deadline, [2^64] below
    [t0 + MaxInt64]. *)
Lemma Set_deadline_overflows :
  0 < MaxInt64 ∧
  (c1 ← Set_ fresh "big" (Some 1) [MaxInt64] t0 t0 t0 [];
   '(_, s) ← getShard c1 "big";
   e ← store s !! "big";
   Some (Expiration e)) = Some (-7430372036854775809) ∧
  -7430372036854775809 ≠ t0 + MaxInt64 ∧
  -7430372036854775809 = t0 + MaxInt64 - 2 ^ 64.
Proof.
  split; [vm_compute; reflexivity|]. split; [vm_compute; reflexivity|].
  split; [vm_compute; intros H; discriminate H|vm_compute; reflexivity].
Qed.

(** C6, instance: after one [Set] on a fresh cache the counter of the
    shard that received the key is the number of keys of its map. *)
Lemma live_count_invariant_witness :
  reachable sampling afterSet ∧ user1Shard ∈ shards afterSet ∧
  size user1Shard = Z.of_nat (card (store user1Shard)).
Proof.
  assert (reachable sampling afterSet) as H1.
  { apply (reach_step sampling fresh afterSet).
    - exact (reach_new sampling fiveMinutes 0).
    - apply (step_Set sampling fresh "user:1" (Some 30) [] t0 t0 t0 []
               afterSet).
      + intros idx s H. vm_compute in H. injection H as _ <-.
        vm_compute. constructor.
      + vm_compute. reflexivity. }
  assert (user1Shard ∈ shards afterSet) as H2.
  { apply (list_elem_of_lookup_2 _ 203%nat). vm_compute. reflexivity. }
  split; [exact H1|]. split; [exact H2|].
  destruct (@live_count_invariant Z) as (_ & _ & _ & Hr).
  destruct (Hr sampling afterSet user1Shard H1 H2) as [_ Hexact].
  apply Hexact. vm_compute. intros H. discriminate H.
Defined.

(** C7, instance: a key never set on a fresh cache. *)
Lemma miss_is_idempotent_witness :
  wf fresh ∧
  (∀ idx s, getShard fresh "missing" = Some (idx, s) →
            store s !! "missing" = None) ∧
  Get fresh "missing" t0 t0 =
    Some (set_misses fresh (wrap_u64 (misses fresh + 1)), (None, false)) ∧
  Delete fresh "missing" = Some fresh.
Proof.
  assert (wf fresh) as H1 by wf_by_computation.
  assert (∀ idx s, getShard fresh "missing" = Some (idx, s) →
                   store s !! "missing" = None) as H2.
  { intros idx s H. vm_compute in H. injection H as _ <-.
    vm_compute. reflexivity. }
  split; [exact H1|]. split; [exact H2|].
  exact (miss_is_idempotent fresh "missing" t0 t0 H1 H2).
Defined.

(** C8, instance: one hit and one miss. *)
Lemma HitRate_percentage_witness :
  0 ≤ Hits (mkStats 1 1 0 0) ∧ 0 ≤ Misses (mkStats 1 1 0 0) ∧
  Hits (mkStats 1 1 0 0) + Misses (mkStats 1 1 0 0) < 2 ^ 64 ∧
  HitRate (mkStats 1 1 0 0) =
    SFmul prec64 emax64
      (SFdiv prec64 emax64 (float64_of_Z 1) (float64_of_Z 2))
      (float64_of_Z 100) ∧
  ∃ v,
    float64_real (HitRate (mkStats 1 1 0 0)) = Some v ∧
    (Rabs (v - 100 * IZR (Hits (mkStats 1 1 0 0)) /
               IZR (Hits (mkStats 1 1 0 0) + Misses (mkStats 1 1 0 0)))
       <= 100 * IZR (Hits (mkStats 1 1 0 0)) /
            IZR (Hits (mkStats 1 1 0 0) + Misses (mkStats 1 1 0 0))
          * powerRZ 2 (-50))%R.
Proof.
  assert (0 ≤ Hits (mkStats 1 1 0 0)) as H1
    by (vm_compute; intros H; discriminate H).
  assert (0 ≤ Misses (mkStats 1 1 0 0)) as H2
    by (vm_compute; intros H; discriminate H).
  assert (Hits (mkStats 1 1 0 0) + Misses (mkStats 1 1 0 0) < 2 ^ 64) as H3
    by (vm_compute; reflexivity).
  assert (Hits (mkStats 1 1 0 0) + Misses (mkStats 1 1 0 0) ≠ 0) as H4
    by (vm_compute; intros H; discriminate H).
  split; [exact H1|]. split; [exact H2|]. split; [exact H3|].
  destruct (HitRate_percentage (mkStats 1 1 0 0) H1 H2 H3)
    as (_ & Hne & v & Hv & _ & Herr).
  split; [exact (Hne H4)|].
  exists v. split; [exact Hv|exact (Herr H4)].
Defined.

(** The quotient is rounded: for one hit in three lookups [HitRate] is
    not [100 / 3], which no [float64] is, and not the [float64] nearest
    to it either, which has the next mantissa. *)
Example HitRate_one_third_is_rounded :
  HitRate (mkStats 1 2 0 0) = S754_finite false 4691249611844266 (-47) ∧
  3 * 4691249611844266 < 100 * 2 ^ 47 < 3 * 4691249611844267 ∧
  100 * 2 ^ 47 - 3 * 4691249611844266 > 3 * 4691249611844267 - 100 * 2 ^ 47.
Proof. vm_compute. repeat split; reflexivity. Qed.

(** C8, counterexample to the statement for every [CacheStats] value:
    with [2^63] hits and [2^63] misses the [uint64] sum is zero and
    [HitRate] returns 0, where [Hits / (Hits + Misses) * 100] is 50. *)
Lemma HitRate_sum_wraps :
  Hits (mkStats (2 ^ 63) (2 ^ 63) 0 0) + Misses (mkStats (2 ^ 63) (2 ^ 63) 0 0)
    ≠ 0 ∧
  HitRate (mkStats (2 ^ 63) (2 ^ 63) 0 0) = float64_of_Z 0 ∧
  SFmul prec64 emax64
    (SFdiv prec64 emax64 (float64_of_Z (2 ^ 63))
           (float64_of_Z (2 ^ 63 + 2 ^ 63)))
    (float64_of_Z 100) = float64_of_Z 50 ∧
  float64_of_Z 0 ≠ float64_of_Z 50.
Proof.
  split; [vm_compute; intros H; discriminate H|].
  split; [vm_compute; reflexivity|]. split; [vm_compute; reflexivity|].
  vm_compute. intros H. discriminate H.
Qed.

(** C9, instance of the amended statement: with a default TTL of zero the
    deadline is the instant of the [Set], and a [Get] one nanosecond later
    misses. *)
Lemma Set_nonpositive_ttl_witness :
  wf zeroTTL ∧ ttl zeroTTL ≤ 0 ∧
  ∃ c1 c2,
    Set_ zeroTTL "k" (Some 7) [] t0 t0 t0 [] = Some c1 ∧
    Get c1 "k" (t0 + 1) (t0 + 1) = Some (c2, (None, false)).
Proof.
  assert (wf zeroTTL) as H1 by wf_by_computation.
  assert (ttl zeroTTL ≤ 0) as H2 by (vm_compute; intros H; discriminate H).
  assert (∀ d : Z, head (@nil Z) = Some d → d ≤ 0) as H3
    by (intros d H; discriminate H).
  assert (- 2 ^ 63 ≤ t0 + ttl zeroTTL) as H4
    by (vm_compute; intros H; discriminate H).
  assert (t0 < 2 ^ 63) as H5 by (vm_compute; reflexivity).
  split; [exact H1|]. split; [exact H2|].
  destruct (Set_nonpositive_ttl sampling zeroTTL "k" (Some 7) [] t0 t0 t0 []
              H1)
    as (c1 & idx & s1 & e & HS & _ & _ & _ & Hcase).
  destruct (Hcase H2 H3 H4 H5) as (Hexp & _ & Hpos & _).
  destruct (Hpos) with (tNow := t0 + 1) (tFresh := t0 + 1) as [c2 HG].
  - rewrite Hexp. vm_compute. reflexivity.
  - split; vm_compute; reflexivity.
  - exists c1, c2. split; [exact HS|exact HG].
Defined.

(** C9, counterexample to "never 0" and to "no entry that never expires":
    with a default TTL of [-t0] the [Set] at [t0] stores the deadline 0, and
    with the least [time.Duration], [math.MinInt64], it stores a negative
    deadline; in both cases the [Get] five minutes later finds the entry. *)
Lemma zero_deadline_is_reachable :
  (c1 ← Set_ (NewKVCache Z (- t0)) "k" (Some 7) [] t0 t0 t0 [];
   '(_, s) ← getShard c1 "k";
   e ← store s !! "k";
   res ← Get c1 "k" (t0 + fiveMinutes) (t0 + fiveMinutes);
   Some (Expiration e, res.2))
  = Some (0, (Some 7, true)) ∧
  (c1 ← Set_ (NewKVCache Z (- 2 ^ 63)) "k" (Some 7) [] t0 t0 t0 [];
   '(_, s) ← getShard c1 "k";
   e ← store s !! "k";
   res ← Get c1 "k" (t0 + fiveMinutes) (t0 + fiveMinutes);
   Some (Expiration e, res.2))
  = Some (t0 - 2 ^ 63, (Some 7, true)) ∧
  t0 - 2 ^ 63 < 0.
Proof. repeat split; vm_compute; reflexivity. Qed.

(** C10, instance: the hit on the key set above. *)
Lemma metrics_accounting_witness :
  wf afterSet ∧
  ∃ c2 value found,
    Get afterSet "user:1" (t0 + 1000) (t0 + 1000) = Some (c2, (value, found)) ∧
    evictions c2 = evictions afterSet ∧
    (found = true ∧ hits c2 = wrap_u64 (hits afterSet + 1) ∧
       misses c2 = misses afterSet ∨
     found = false ∧ misses c2 = wrap_u64 (misses afterSet + 1) ∧
       hits c2 = hits afterSet).
Proof.
  assert (wf afterSet) as H1 by wf_by_computation.
  split; [exact H1|].
  destruct (@metrics_accounting Z) as (HGet & _).
  exact (HGet afterSet "user:1" (t0 + 1000) (t0 + 1000) H1).
Defined.

(** * Further properties of the engine *)

(** ** Lookups through the router *)

Section Lookup.
Context {V : Type}.
Implicit Types (c : KVCache V) (s : shard V) (e : CacheEntry V).

Lemma entryOf_getShard c key idx s :
  getShard c key = Some (idx, s) → entryOf c key = store s !! key.
Proof. intros Hg. unfold entryOf. by rewrite Hg. Qed.

Lemma entryOf_None c key : getShard c key = None → entryOf c key = None.
Proof. intros Hg. unfold entryOf. by rewrite Hg. Qed.

(** The effect on routing of writing one shard. *)
Lemma getShard_update c c1 key idx s s1 :
  getShard c key = Some (idx, s) →
  numShards c1 = numShards c → shards c1 = <[idx := s1]> (shards c) →
  getShard c1 key = Some (idx, s1).
Proof.
  intros [Hi Hs]%getShard_Some Hn Hsh. apply getShard_intro.
  - rewrite <- Hi. by apply shardIndex_numShards.
  - rewrite Hsh. apply list_lookup_insert_eq. by eapply lookup_lt_Some.
Qed.

Lemma entryOf_update_other c c1 idx s1 k :
  numShards c1 = numShards c → shards c1 = <[idx := s1]> (shards c) →
  shardIndex c k ≠ Some idx → entryOf c1 k = entryOf c k.
Proof.
  intros Hn Hsh Hne. unfold entryOf, getShard.
  rewrite (shardIndex_numShards c c1 k Hn).
  destruct (shardIndex c k) as [j|]; simpl; [|done].
  rewrite Hsh, list_lookup_insert_ne; [done|congruence].
Qed.

(** Writing the shard of [key] with a map that differs at [key] only
    changes what [key] looks up and nothing else. *)
Lemma entryOf_update c c1 key idx s s1 :
  getShard c key = Some (idx, s) →
  numShards c1 = numShards c → shards c1 = <[idx := s1]> (shards c) →
  (∀ k, k ≠ key → store s1 !! k = store s !! k) →
  ∀ k, entryOf c1 k = if decide (k = key) then store s1 !! key
                      else entryOf c k.
Proof.
  intros Hg Hn Hsh Hoff k. case_decide as Hk.
  - subst k. apply entryOf_getShard with idx. by eapply getShard_update.
  - destruct (decide (shardIndex c k = Some idx)) as [Hi|Hi].
    + pose proof Hg as [_ Hs]%getShard_Some.
      rewrite (entryOf_getShard c1 k idx s1), (entryOf_getShard c k idx s).
      * by apply Hoff.
      * by apply getShard_intro.
      * apply getShard_intro; [by rewrite (shardIndex_numShards c c1 k Hn)|].
        rewrite Hsh. apply list_lookup_insert_eq. by eapply lookup_lt_Some.
    + by eapply entryOf_update_other.
Qed.

(** What [Get] returns is decided by the entry it looks up. *)
Lemma Get_by_entryOf c key tNow tFresh c1 res :
  Get c key tNow tFresh = Some (c1, res) →
  res = match entryOf c key with
        | Some e => if expired (Expiration e) (UnixNano tNow)
                    then (None, false) else (Value e, true)
        | None => (None, false)
        end.
Proof.
  intros HG%Get_inv.
  destruct HG as [idx s Hg Hk|idx s e Hg Hk Hx|idx s e Hg Hk Hx];
    rewrite (entryOf_getShard c key idx s Hg), Hk; by rewrite ?Hx.
Qed.

(** What [Get] leaves behind: the entry of its key is stamped, or removed
    when found expired twice, and no other lookup changes. *)
Lemma Get_entryOf c key tNow tFresh c1 res :
  Get c key tNow tFresh = Some (c1, res) →
  ∀ k, entryOf c1 k =
       if decide (k = key) then
         match entryOf c key with
         | Some e =>
             if expired (Expiration e) (UnixNano tNow)
             then (if expired (Expiration e) (UnixNano tFresh)
                   then None else Some e)
             else Some (mkEntry (Value e) (Expiration e) (UnixNano tNow))
         | None => None
         end
       else entryOf c k.
Proof.
  intros HG%Get_inv.
  destruct HG as [idx s Hg Hk|idx s e Hg Hk Hx|idx s e Hg Hk Hx]; intros k;
    rewrite (entryOf_getShard c key idx s Hg), Hk.
  - case_decide as E; [|done]. subst k.
    change (entryOf c key = None). by rewrite (entryOf_getShard c key idx s Hg).
  - rewrite Hx. unfold lazyDelete.
    destruct (expired (Expiration e) (UnixNano tFresh)).
    + rewrite (entryOf_update c _ key idx s
                 (mkShard (delete key (store s)) (wrap_i64 (size s - 1))) Hg);
        [|done|done|by intros k' Hk'; apply lookup_delete_ne].
      simpl. by rewrite lookup_delete_eq.
    + case_decide as E; [|done]. subst k.
      change (entryOf c key = Some e).
      by rewrite (entryOf_getShard c key idx s Hg).
  - rewrite Hx.
    rewrite (entryOf_update c _ key idx s
               (mkShard (<[key := mkEntry (Value e) (Expiration e)
                                          (UnixNano tNow)]> (store s))
                        (size s)) Hg);
      [|done|done|by intros k' Hk'; apply lookup_insert_ne].
    simpl. by rewrite lookup_insert_eq.
Qed.

End Lookup.

(** ** Delete, Get and Set seen through lookups *)

Section Effects.
Context {V : Type}.
Implicit Types (c : KVCache V) (s : shard V) (e : CacheEntry V).
Implicit Types (order : list (string * CacheEntry V)).

Lemma Delete_entryOf c key c1 :
  Delete c key = Some c1 →
  ∀ k, entryOf c1 k = if decide (k = key) then None else entryOf c k.
Proof.
  intros HD k.
  destruct (getShard c key) as [[idx s]|] eqn:Hg;
    [|by unfold Delete in HD; rewrite Hg in HD].
  destruct (store s !! key) as [e|] eqn:Hk.
  - rewrite (Delete_present c key idx s e Hg Hk) in HD. injection HD as <-.
    rewrite (entryOf_update c _ key idx s
               (mkShard (delete key (store s)) (wrap_i64 (size s - 1))) Hg);
      [|done|done|by intros k' Hk'; apply lookup_delete_ne].
    simpl. by rewrite lookup_delete_eq.
  - rewrite (Delete_absent c key idx s Hg Hk) in HD. injection HD as <-.
    case_decide as E; [|done]. subst k.
    by rewrite (entryOf_getShard c key idx s Hg).
Qed.

(** X1.  [Delete(k)] on a cache of the constructor's shape returns, makes
    [k] look up nothing and changes no other lookup nor any counter; a second
    [Delete(k)] changes nothing at all, and a [Get(k)] that follows misses. *)
Theorem Delete_removes_only_its_key c key :
  wf c →
  ∃ c1,
    Delete c key = Some c1 ∧
    (∀ k, entryOf c1 k = if decide (k = key) then None else entryOf c k) ∧
    hits c1 = hits c ∧ misses c1 = misses c ∧ evictions c1 = evictions c ∧
    Delete c1 key = Some c1 ∧
    ∀ tNow tFresh,
      Get c1 key tNow tFresh =
        Some (set_misses c1 (wrap_u64 (misses c1 + 1)), (None, false)).
Proof.
  intros Hwf. destruct (Delete_total c key Hwf) as [c1 HD].
  exists c1. split; [done|].
  pose proof (Delete_entryOf c key c1 HD) as Hl. split; [done|].
  pose proof (Delete_frame c key c1 HD) as (Hn & _ & _ & ? & ? & ? & Hlen).
  split; [done|]. split; [done|]. split; [done|].
  assert (wf c1) as Hwf1 by (unfold wf in *; rewrite Hn, Hlen; done).
  destruct (getShard_wf c1 key Hwf1) as (idx & s1 & Hg1).
  assert (store s1 !! key = None) as Hk1.
  { rewrite <- (entryOf_getShard c1 key idx s1 Hg1), Hl.
    by rewrite decide_True. }
  split; [by eapply Delete_absent|]. intros tNow tFresh.
  by eapply Get_absent.
Qed.

(** X2.  The whole effect of a [Get] on a cache of the constructor's shape:
    it returns; the result is decided by the entry its key looks up (a miss
    when there is none or it is expired at the first clock reading, the
    stored value otherwise); afterwards a live entry carries the reading as
    its access stamp with value and deadline unchanged, an expired entry is
    gone when it is still expired at the second reading and kept otherwise;
    no other key's lookup changes, and the eviction counter is untouched. *)
Theorem Get_effect c key tNow tFresh :
  wf c →
  ∃ c1 res,
    Get c key tNow tFresh = Some (c1, res) ∧
    evictions c1 = evictions c ∧
    (∀ k, k ≠ key → entryOf c1 k = entryOf c k) ∧
    match entryOf c key with
    | None => res = (None, false) ∧ entryOf c1 key = None
    | Some e =>
        if expired (Expiration e) (UnixNano tNow) then
          res = (None, false) ∧
          entryOf c1 key =
            (if expired (Expiration e) (UnixNano tFresh) then None else Some e)
        else
          res = (Value e, true) ∧
          entryOf c1 key =
            Some (mkEntry (Value e) (Expiration e) (UnixNano tNow))
    end.
Proof.
  intros Hwf. destruct (Get_total c key tNow tFresh Hwf) as (c1 & res & HG).
  exists c1, res. split; [done|].
  split; [by apply Get_frame in HG as (_ & _ & _ & ? & _)|].
  pose proof (Get_entryOf c key tNow tFresh c1 res HG) as Hl.
  pose proof (Get_by_entryOf c key tNow tFresh c1 res HG) as Hr.
  split.
  - intros k Hk. rewrite Hl. by rewrite decide_False.
  - specialize (Hl key). rewrite decide_True in Hl by done.
    destruct (entryOf c key) as [e|]; [|done].
    by destruct (expired (Expiration e) (UnixNano tNow)).
Qed.

(** X3.  Reading does not consume: when [Get(k)] finds a value, a second
    [Get(k)] at any clock reading at which the entry's deadline has not
    passed finds the same value, and the two calls add two to [hits]. *)
Theorem Get_twice c key e tNow tFresh tNow' tFresh' :
  wf c → entryOf c key = Some e →
  (Expiration e ≤ 0 ∨ UnixNano tNow ≤ Expiration e) →
  (Expiration e ≤ 0 ∨ UnixNano tNow' ≤ Expiration e) →
  ∃ c1 c2,
    Get c key tNow tFresh = Some (c1, (Value e, true)) ∧
    Get c1 key tNow' tFresh' = Some (c2, (Value e, true)) ∧
    hits c2 = wrap_u64 (wrap_u64 (hits c + 1) + 1) ∧ misses c2 = misses c.
Proof.
  intros Hwf He Hx%expired_false Hx'%expired_false.
  destruct (Get_total c key tNow tFresh Hwf) as (c1 & res & HG).
  pose proof (Get_by_entryOf c key tNow tFresh c1 res HG) as Hr.
  rewrite He, Hx in Hr. subst res.
  pose proof (Get_entryOf c key tNow tFresh c1 _ HG key) as Hl.
  rewrite decide_True, He, Hx in Hl by done.
  pose proof (Get_frame c key tNow tFresh c1 _ HG) as (Hn & _ & _ & _ & Hlen).
  assert (wf c1) as Hwf1 by (unfold wf in *; rewrite Hn, Hlen; done).
  destruct (Get_total c1 key tNow' tFresh' Hwf1) as (c2 & res' & HG').
  pose proof (Get_by_entryOf c1 key tNow' tFresh' c2 res' HG') as Hr'.
  rewrite Hl in Hr'. simpl in Hr'. rewrite Hx' in Hr'. subst res'.
  exists c1, c2. split; [done|]. split; [done|].
  apply Get_inv in HG. apply Get_inv in HG'.
  inversion HG; subst; inversion HG'; subst; simpl; done.
Qed.

End Effects.

(** ** Set seen through lookups *)

Section SetEffects.
Context {V : Type}.
Implicit Types (c : KVCache V) (s : shard V) (e : CacheEntry V).
Implicit Types (order : list (string * CacheEntry V)).

(** A [Set] whose eviction phase does nothing only writes its key. *)
Lemma Set_quiet_entryOf r c key value ttlArgs tDefault tOverride tAccess order
    c1 idx s :
  getShard c key = Some (idx, s) →
  evictPhase r c s key order = (c, s) →
  SetOf r c key value ttlArgs tDefault tOverride tAccess order = Some c1 →
  (∀ k, entryOf c1 k =
        if decide (k = key)
        then Some (mkEntry value (setDeadline c ttlArgs tDefault tOverride)
                           (UnixNano tAccess))
        else entryOf c k) ∧
  evictions c1 = evictions c.
Proof.
  intros Hg Hq HS.
  pose proof HS as (idx' & s' & Hg' & Hc1 & Hg1 & Hsh)%Set_inv.
  rewrite Hg in Hg'. injection Hg' as <- <-. simpl in *.
  pose proof (Set_frame _ _ _ _ _ _ _ _ _ _ HS) as (Hn & _).
  rewrite Hq in *. simpl in *.
  set (new := mkEntry value (setDeadline c ttlArgs tDefault tOverride)
                      (UnixNano tAccess)) in *.
  split.
  - intros k. rewrite (entryOf_update c c1 key idx s _ Hg Hn Hsh).
    + by rewrite insertPhase_store, lookup_insert_eq.
    + intros k' Hk'. by rewrite insertPhase_store, lookup_insert_ne.
  - subst c1. simpl.
    by pose proof (insertPhase_frame c s key value
         (setDeadline c ttlArgs tDefault tOverride) (UnixNano tAccess))
      as (_ & _ & _ & _ & _ & _ & ->).
Qed.

Lemma evictPhase_unbounded r c s key order :
  maxCapacity c ≤ 0 → evictPhase r c s key order = (c, s).
Proof.
  intros Hcap. destruct (evictPhase_cases r c s key order)
    as [->|(Hpos & _)]; [done|lia].
Qed.

(** X4.  Without a capacity ([maxCapacity <= 0]) a [Set] never loses an
    entry: it returns, its key looks up the new entry (value, computed
    deadline, access stamp), every other key looks up what it did before,
    and the eviction counter is unchanged, in either revision. *)
Theorem Set_unbounded_keeps_all r c key value ttlArgs tDefault tOverride
    tAccess order :
  wf c → maxCapacity c ≤ 0 →
  ∃ c1,
    SetOf r c key value ttlArgs tDefault tOverride tAccess order = Some c1 ∧
    (∀ k, entryOf c1 k =
          if decide (k = key)
          then Some (mkEntry value (setDeadline c ttlArgs tDefault tOverride)
                             (UnixNano tAccess))
          else entryOf c k) ∧
    evictions c1 = evictions c.
Proof.
  intros Hwf Hcap. destruct (getShard_wf c key Hwf) as (idx & s & Hg).
  destruct (SetOf_routes r c key value ttlArgs tDefault tOverride tAccess
              order idx s Hg) as [c1 HS].
  exists c1. split; [done|].
  eapply Set_quiet_entryOf; [done| |done]. by apply evictPhase_unbounded.
Qed.

(** X5.  What a [Set] can do to the shard of its key, in either revision:
    either it only writes its key, or -- the key being new -- it removes
    exactly one other entry, whose key is not the empty string, adds one to
    the eviction counter and leaves the number of keys of the shard as it
    was.  Other shards are not touched. *)
Theorem Set_evicts_at_most_one r c key value ttlArgs tDefault tOverride
    tAccess order idx s :
  getShard c key = Some (idx, s) →
  ∃ c1 s1,
    SetOf r c key value ttlArgs tDefault tOverride tAccess order = Some c1 ∧
    getShard c1 key = Some (idx, s1) ∧
    shards c1 = <[idx := s1]> (shards c) ∧
    (store s1 =
       <[key := mkEntry value (setDeadline c ttlArgs tDefault tOverride)
                        (UnixNano tAccess)]> (store s) ∧
     evictions c1 = evictions c ∨
     ∃ victim e,
       victim ≠ key ∧ victim ≠ "" ∧ store s !! victim = Some e ∧
       store s !! key = None ∧
       store s1 =
         <[key := mkEntry value (setDeadline c ttlArgs tDefault tOverride)
                          (UnixNano tAccess)]> (delete victim (store s)) ∧
       evictions c1 = wrap_u64 (evictions c + 1) ∧
       card (store s1) = card (store s)).
Proof.
  intros Hg.
  destruct (SetOf_routes r c key value ttlArgs tDefault tOverride tAccess
              order idx s Hg) as [c1 HS].
  pose proof HS as (idx' & s' & Hg' & Hc1 & Hg1 & Hsh)%Set_inv.
  rewrite Hg in Hg'. injection Hg' as <- <-. simpl in *.
  eexists c1, _. split; [done|]. split; [exact Hg1|]. split; [exact Hsh|].
  rewrite insertPhase_store.
  pose proof (insertPhase_frame (evictPhase r c s key order).1
                (evictPhase r c s key order).2 key value
                (setDeadline c ttlArgs tDefault tOverride) (UnixNano tAccess))
    as (_ & _ & _ & _ & _ & _ & Hev).
  simpl in Hev.
  assert (evictions c1 = evictions (evictPhase r c s key order).1) as Hev1
    by (subst c1; exact Hev).
  destruct (evictPhase_cases r c s key order)
    as [Hq|(_ & _ & Hnew & Hq)]; rewrite Hq in *.
  - left. by split.
  - destruct (evictOldestOf_cases r c s order)
      as [Hn|(victim & e & Hne & Hv & Hn)]; rewrite Hn in *; simpl in *.
    + left. by split.
    + right. exists victim, e.
      assert (victim ≠ key) as Hvk by congruence.
      repeat split; try done.
      rewrite map_size_insert_None by (by rewrite lookup_delete_ne).
      rewrite map_size_delete, Hv. simpl.
      assert (card (store s) ≠ 0%nat) as Hne0.
      { intros H0%map_size_empty_inv. by rewrite H0, lookup_empty in Hv. }
      lia.
Qed.

(** X6.  The last write wins: after [Set(k, v1)] and [Set(k, v2)], a
    [Get(k)] made before the second deadline has passed returns [v2]; the
    second [Set] evicts nothing and changes no other lookup, whatever the
    capacity, in either revision. *)
Theorem Set_twice_last_wins r c key v1 v2 ttl1 ttl2 tD1 tO1 tA1 order1
    tD2 tO2 tA2 order2 tNow tFresh :
  wf c →
  (setDeadline c ttl2 tD2 tO2 ≤ 0 ∨
   UnixNano tNow ≤ setDeadline c ttl2 tD2 tO2) →
  ∃ c1 c2 c3,
    SetOf r c key v1 ttl1 tD1 tO1 tA1 order1 = Some c1 ∧
    SetOf r c1 key v2 ttl2 tD2 tO2 tA2 order2 = Some c2 ∧
    Get c2 key tNow tFresh = Some (c3, (v2, true)) ∧
    evictions c2 = evictions c1 ∧
    (∀ k, k ≠ key → entryOf c2 k = entryOf c1 k).
Proof.
  intros Hwf Hlive.
  destruct (SetOf_total r c key v1 ttl1 tD1 tO1 tA1 order1 Hwf) as [c1 HS1].
  pose proof HS1 as (idx & s1 & Hg1 & Hk1)%Set_stores.
  pose proof (Set_frame _ _ _ _ _ _ _ _ _ _ HS1) as (Hn & Httl & _).
  destruct (SetOf_routes r c1 key v2 ttl2 tD2 tO2 tA2 order2 idx s1 Hg1)
    as [c2 HS2].
  assert (setDeadline c1 ttl2 tD2 tO2 = setDeadline c ttl2 tD2 tO2) as Hd
    by (unfold setDeadline; by rewrite Httl).
  destruct (Set_Get_live r c1 key v2 ttl2 tD2 tO2 tA2 order2 tNow tFresh c2
              HS2) as [c3 HG]; [rewrite Hd; by apply expired_false|].
  exists c1, c2, c3. split; [done|]. split; [done|]. split; [done|].
  destruct (Set_quiet_entryOf r c1 key v2 ttl2 tD2 tO2 tA2 order2 c2 idx s1
              Hg1) as [Hl Hev]; [|done|].
  { apply evictPhase_present. by rewrite Hk1. }
  split; [done|]. intros k Hk. rewrite Hl. by rewrite decide_False.
Qed.

(** X7.  TTL expiry: after a [Set] whose deadline [t + d] is a positive
    [int64] instant, a [Get] at a later clock reading misses and counts a
    miss; when the reading re-taken under the write lock is later than the
    deadline too -- as with a clock that does not run backwards -- the
    entry is removed from the map. *)
Theorem Set_then_expired r c key value ttlArgs tDefault tOverride tAccess
    order tNow tFresh t d :
  wf c →
  setDeadline c ttlArgs tDefault tOverride = UnixNano (Add t d) →
  0 < t + d → t + d < tNow → tNow < 2 ^ 63 →
  ∃ c1 c2,
    SetOf r c key value ttlArgs tDefault tOverride tAccess order = Some c1 ∧
    Get c1 key tNow tFresh = Some (c2, (None, false)) ∧
    misses c2 = wrap_u64 (misses c + 1) ∧ hits c2 = hits c ∧
    (t + d < UnixNano tFresh → entryOf c2 key = None).
Proof.
  intros Hwf Hd Hpos Hlate Hrange.
  rewrite UnixNano_Add_exact in Hd by lia.
  destruct (SetOf_total r c key value ttlArgs tDefault tOverride tAccess
              order Hwf) as [c1 HS].
  pose proof HS as (idx & s1 & Hg1 & Hk1)%Set_stores.
  pose proof (Set_frame _ _ _ _ _ _ _ _ _ _ HS) as (_ & _ & _ & Hh & Hm & _).
  rewrite Hd in Hk1.
  assert (expired (t + d) (UnixNano tNow) = true) as Hx.
  { apply expired_true. unfold UnixNano. rewrite wrap_i64_small; lia. }
  exists c1. eexists. split; [done|]. split.
  { by rewrite (Get_expired c1 key idx s1 _ tNow tFresh Hg1 Hk1 Hx). }
  simpl. split; [by rewrite Hm|]. unfold lazyDelete. simpl.
  split.
  - rewrite <- Hh. by destruct (expired (t + d) (UnixNano tFresh)).
  - intros Hf.
    assert (expired (t + d) (UnixNano tFresh) = true) as ->
      by (by apply expired_true).
    pose proof (Get_expired c1 key idx s1 _ tNow tFresh Hg1 Hk1 Hx) as HG.
    pose proof (Get_entryOf c1 key tNow tFresh _ _ HG key) as Hl.
    rewrite decide_True, (entryOf_getShard c1 key idx s1 Hg1), Hk1 in Hl
      by done.
    simpl in Hl. rewrite Hx in Hl.
    assert (expired (t + d) (UnixNano tFresh) = true) as Hxf
      by (by apply expired_true).
    rewrite Hxf in Hl. unfold lazyDelete in Hl. simpl in Hl.
    by rewrite Hxf in Hl.
Qed.

End SetEffects.

(** ** Clear, Size and the cleanup sweep, for the whole cache *)

Lemma wrap_i64_add_r a b : wrap_i64 (a + wrap_i64 b) = wrap_i64 (a + b).
Proof. by rewrite (Z.add_comm a), wrap_i64_add_l, Z.add_comm. Qed.

Lemma wrap_i64_idem a : wrap_i64 (wrap_i64 a) = wrap_i64 a.
Proof.
  pose proof (wrap_i64_add_l a 0) as H. by rewrite !Z.add_0_r in H.
Qed.

Section SweepEffects.
Context {V : Type}.
Implicit Types (c : KVCache V) (s : shard V) (e : CacheEntry V).
Implicit Types (pool : list (CacheEntry V)).

Lemma Size_fold_fixed (l : list (shard V)) a :
  wrap_i64 a = a →
  wrap_i64 (foldl (λ total s, wrap_i64 (total + size s)) a l) =
  foldl (λ total s, wrap_i64 (total + size s)) a l.
Proof.
  revert a. induction l as [|s l IH]; intros a Ha; simpl; [done|].
  apply IH, wrap_i64_idem.
Qed.

Lemma Size_fold_sum (l : list (shard V)) a :
  Forall count_ok l →
  wrap_i64 (foldl (λ total s, wrap_i64 (total + size s)) a l) =
  wrap_i64 (a + Z.of_nat (sum_list ((λ s, card (store s)) <$> l))).
Proof.
  intros HF. revert a. induction HF as [|s l Hs HF IH]; intros a; simpl.
  - by rewrite Z.add_0_r.
  - rewrite IH, wrap_i64_add_l, Hs.
    rewrite <- Z.add_assoc, (Z.add_comm (wrap_i64 _)), Z.add_assoc.
    rewrite wrap_i64_add_r. f_equal. rewrite Nat2Z.inj_add.
    unfold fmap. lia.
Qed.

Lemma Size_cache_ok c :
  cache_ok c → Size c = wrap_i64 (Z.of_nat (totalKeys c)).
Proof.
  intros Hok. unfold Size, totalKeys.
  rewrite <- Size_fold_fixed by done. by rewrite Size_fold_sum.
Qed.

(** X8.  [Size] counts keys: in every reachable state of either revision
    the value it returns is the number of keys held by all the shards, as an
    [int]; when that number is below [2^63] it is returned exactly, and
    [Stats] reports it in its [Size] field. *)
Theorem Size_counts_keys r c :
  reachable r c →
  Size c = wrap_i64 (Z.of_nat (totalKeys c)) ∧
  (Z.of_nat (totalKeys c) < 2 ^ 63 →
   Size c = Z.of_nat (totalKeys c) ∧
   StatsSize (Stats c) = Z.of_nat (totalKeys c)).
Proof.
  intros Hr%cache_ok_reachable. pose proof (Size_cache_ok c Hr) as HS.
  split; [done|]. intros Hfit.
  assert (Size c = Z.of_nat (totalKeys c)) as HS'
    by (rewrite HS; apply wrap_i64_small; lia).
  split; [done|]. unfold Stats. cbn [StatsSize]. rewrite HS'.
  apply wrap_u64_small. lia.
Qed.

Lemma wf_rangeShards body c : wf c → wf (rangeShards body c).
Proof.
  intros [Hn Hl]. pose proof (rangeShards_frame body c) as (Hn' & _).
  pose proof (rangeShards_shards body c) as HF%Forall2_length.
  simpl in Hn'. split; [by rewrite Hn'|]. by rewrite <- HF, Hn'.
Qed.

(** X9.  After [Clear] the cache is empty for every observer: [Size]
    returns 0, no shard holds a key, every key looks up nothing, and every
    [Get] returns [(nil, false)] counting one miss. *)
Theorem Clear_then_empty c :
  wf c →
  Size (Clear c) = 0 ∧ totalKeys (Clear c) = 0%nat ∧
  (∀ k, entryOf (Clear c) k = None) ∧
  (∀ key tNow tFresh,
     Get (Clear c) key tNow tFresh =
       Some (set_misses (Clear c) (wrap_u64 (misses (Clear c) + 1)),
             (None, false))).
Proof.
  intros Hwf. pose proof (Clear_shards c) as HF.
  assert (wf (Clear c)) as Hwf' by (by apply wf_rangeShards).
  assert (∀ key, ∃ idx, getShard (Clear c) key = Some (idx, mkShard ∅ 0))
    as Hroute.
  { intros key. destruct (getShard_wf (Clear c) key Hwf') as (idx & s & Hg).
    exists idx. rewrite Hg. pose proof Hg as [_ Hs]%getShard_Some.
    rewrite Forall_lookup in HF. by rewrite (HF idx s Hs). }
  split; [|split; [|split]].
  - unfold Size. induction HF as [|s l -> _ IH]; [done|]. simpl. exact IH.
  - unfold totalKeys. induction HF as [|s l -> _ IH]; [done|].
    rewrite fmap_cons. cbn [sum_list sum_list_with]. by rewrite IH.
  - intros k. destruct (Hroute k) as [idx Hg].
    by rewrite (entryOf_getShard _ _ _ _ Hg).
  - intros key tNow tFresh. destruct (Hroute key) as [idx Hg].
    by apply (Get_absent _ _ _ _ tNow tFresh Hg).
Qed.

(** A body that changes neither shard nor pool leaves the cache as it is. *)
Lemma rangeShards_id body c :
  Forall (λ s, ∀ pool, body s pool = (s, pool)) (shards c) →
  rangeShards body c = c.
Proof.
  intros HF. unfold rangeShards.
  assert (∀ l done pool,
            Forall (λ s, ∀ pool, body s pool = (s, pool)) l →
            foldl (λ '(done, pool) s,
                     let '(s', pool') := body s pool in
                     (done ++ [s'], pool'))
                  (done, pool) l = (done ++ l, pool)) as Hfold.
  { induction l as [|s l IH]; intros done pool Hl; simpl.
    - by rewrite app_nil_r.
    - inversion Hl as [|? ? Hs Hl']; subst. rewrite Hs, IH by done.
      by rewrite <- app_assoc. }
  rewrite Hfold by done. by destruct c.
Qed.

Lemma cleanupShard_clean now s pool k e :
  store (cleanupShard now s pool).1 !! k = Some e →
  store s !! k = Some e ∧ expired (Expiration e) now = false.
Proof.
  rewrite cleanupShard_lookup. destruct (store s !! k) as [e0|]; [|done].
  destruct (expired (Expiration e0) now) eqn:Hx; [done|].
  intros [= <-]. done.
Qed.

Lemma cleanupShard_id now s pool :
  (∀ k e, store s !! k = Some e → expired (Expiration e) now = false) →
  cleanupShard now s pool = (s, pool).
Proof.
  intros Hclean. unfold cleanupShard.
  destruct (expiredKeys s now) as [|k ks] eqn:E; [done|].
  assert (k ∈ expiredKeys s now) as (e & Hk & Hx)%expiredKeys_elem
    by (rewrite E; apply list_elem_of_here).
  by rewrite (Hclean k e Hk) in Hx.
Qed.

(** X10.  A sweep of the cleanup leaves no expired entry in any shard,
    keeps every entry that is not expired at its clock reading, changes no
    counter, and a second sweep at the same reading changes nothing at
    all. *)
Theorem cleanupTick_sweeps_all c tNow :
  Forall2 (λ s s', ∀ k,
             store s' !! k =
             match store s !! k with
             | Some e => if expired (Expiration e) (UnixNano tNow)
                         then None else Some e
             | None => None
             end)
          (shards c) (shards (cleanupTick c tNow)) ∧
  Forall (λ s', ∀ k e, store s' !! k = Some e →
                       expired (Expiration e) (UnixNano tNow) = false)
         (shards (cleanupTick c tNow)) ∧
  hits (cleanupTick c tNow) = hits c ∧
  misses (cleanupTick c tNow) = misses c ∧
  evictions (cleanupTick c tNow) = evictions c ∧
  cleanupTick (cleanupTick c tNow) tNow = cleanupTick c tNow.
Proof.
  pose proof (rangeShards_shards (cleanupShard (UnixNano tNow)) c) as HF.
  pose proof (rangeShards_frame (cleanupShard (UnixNano tNow)) c)
    as (_ & _ & _ & Hh & Hm & He).
  fold (cleanupTick c tNow) in HF, Hh, Hm, He.
  assert (Forall (λ s', ∀ k e, store s' !! k = Some e →
                        expired (Expiration e) (UnixNano tNow) = false)
                 (shards (cleanupTick c tNow))) as Hclean.
  { eapply Forall2_Forall_r; [exact HF|]. apply Forall_true.
    intros s s' (p & ->) k e Hk. by apply cleanupShard_clean in Hk as [_ ?]. }
  split; [|split; [done|]].
  - eapply Forall2_impl; [|exact HF]. intros s s' (p & ->) k.
    apply cleanupShard_lookup.
  - repeat split; try done.
    unfold cleanupTick at 1. apply rangeShards_id.
    rewrite Forall_lookup in Hclean. apply Forall_lookup.
    intros i s Hs pool. apply cleanupShard_id. by apply (Hclean i s Hs).
Qed.

Lemma cleanupTick_entryOf c tSweep k :
  entryOf (cleanupTick c tSweep) k =
  match entryOf c k with
  | Some e => if expired (Expiration e) (UnixNano tSweep) then None else Some e
  | None => None
  end.
Proof.
  destruct (getShard c k) as [[idx s]|] eqn:Hg.
  - destruct (cleanupTick_getShard c k idx s tSweep Hg) as [pool Hg'].
    rewrite (entryOf_getShard _ _ _ _ Hg'), (entryOf_getShard _ _ _ _ Hg).
    apply cleanupShard_lookup.
  - rewrite (entryOf_None c k Hg). unfold entryOf, getShard in *.
    pose proof (rangeShards_frame (cleanupShard (UnixNano tSweep)) c)
      as (Hn & _).
    pose proof (rangeShards_shards (cleanupShard (UnixNano tSweep)) c) as HF.
    fold (cleanupTick c tSweep) in Hn, HF. simpl in Hn.
    rewrite (shardIndex_numShards c (cleanupTick c tSweep) k) by done.
    destruct (shardIndex c k) as [i|]; simpl in *; [|done].
    destruct (shards c !! i) as [s|] eqn:Hs; simpl in Hg; [done|].
    apply lookup_ge_None in Hs. apply Forall2_length in HF.
    rewrite (proj2 (lookup_ge_None (shards (cleanupTick c tSweep)) i)); [done|].
    lia.
Qed.

(** X11.  The cleanup is invisible to readers: a [Get] made at a clock
    reading not earlier than the sweep returns the same value and the same
    found flag whether or not the sweep has run. *)
Theorem cleanup_invisible_to_Get c key tSweep tNow tFresh tFresh' :
  wf c → UnixNano tSweep ≤ UnixNano tNow →
  ∃ c1 c2 res,
    Get c key tNow tFresh = Some (c1, res) ∧
    Get (cleanupTick c tSweep) key tNow tFresh' = Some (c2, res).
Proof.
  intros Hwf Hle.
  assert (wf (cleanupTick c tSweep)) as Hwf' by (by apply wf_rangeShards).
  destruct (Get_total c key tNow tFresh Hwf) as (c1 & res & HG).
  destruct (Get_total _ key tNow tFresh' Hwf') as (c2 & res' & HG').
  exists c1, c2, res. split; [done|]. rewrite HG'. do 2 f_equal.
  rewrite (Get_by_entryOf _ _ _ _ _ _ HG), (Get_by_entryOf _ _ _ _ _ _ HG').
  rewrite cleanupTick_entryOf. destruct (entryOf c key) as [e|]; [|done].
  destruct (expired (Expiration e) (UnixNano tSweep)) eqn:Hs; [|done].
  apply expired_true in Hs.
  assert (expired (Expiration e) (UnixNano tNow) = true) as ->
    by (apply expired_true; lia).
  done.
Qed.

End SweepEffects.

(** ** Invariants of every run *)

Section Invariants.
Context {V : Type}.
Implicit Types (c : KVCache V) (s : shard V) (e : CacheEntry V).
Implicit Types (order : list (string * CacheEntry V)).

Lemma plain_step_step r c c' : plain_step r c c' → step r c c'.
Proof.
  destruct 1.
  - by eapply step_Set.
  - by eapply step_Get.
  - by eapply step_Delete.
  - apply step_Clear.
  - apply step_cleanup.
Qed.

Lemma plain_reachable_reachable r c : plain_reachable r c → reachable r c.
Proof.
  induction 1; [constructor|].
  eapply reach_step; [done|by apply plain_step_step].
Qed.

Lemma step_frame r c c' :
  step r c c' →
  numShards c' = numShards c ∧ maxCapacity c' = maxCapacity c ∧
  length (shards c') = length (shards c).
Proof.
  destruct 1 as
    [c key value ttlArgs tD tO tA order c' _ H|c key tNow tFresh c' res H
    |c key c' H|c|c tNow].
  - by apply Set_frame in H as (? & _ & ? & _ & _ & ?).
  - by apply Get_frame in H as (? & _ & ? & _ & ?).
  - by apply Delete_frame in H as (? & _ & ? & _ & _ & _ & ?).
  - pose proof (rangeShards_frame clearShard c) as (? & _ & ? & _).
    by pose proof (Forall2_length (rangeShards_shards clearShard c)).
  - pose proof (rangeShards_frame (cleanupShard (UnixNano tNow)) c)
      as (? & _ & ? & _).
    by pose proof (Forall2_length
         (rangeShards_shards (cleanupShard (UnixNano tNow)) c)).
Qed.

Lemma reachable_shape r c :
  reachable r c → numShards c = 256 ∧ length (shards c) = 256%nat.
Proof.
  induction 1 as [|c c' _ [IHn IHl] Hstep].
  - unfold NewKVCacheWithCapacity. cbn [numShards shards].
    by rewrite length_replicate.
  - apply step_frame in Hstep as (-> & _ & ->). done.
Qed.

(** *** Placement *)

Lemma evictPhase_keeps_absent r c s key order k :
  store s !! k = None → store (evictPhase r c s key order).2 !! k = None.
Proof.
  intros Hk. destruct (evictPhase_cases r c s key order)
    as [->|(_ & _ & _ & ->)]; [done|by apply evictOldestOf_absent].
Qed.

Lemma placed_update c c1 key idx s s1 :
  getShard c key = Some (idx, s) →
  numShards c1 = numShards c → shards c1 = <[idx := s1]> (shards c) →
  (∀ k, is_Some (store s1 !! k) → k = key ∨ is_Some (store s !! k)) →
  placed c → placed c1.
Proof.
  intros Hg Hn Hsh Hdom Hp i s' k Hi Hk.
  rewrite (shardIndex_numShards c c1 k Hn).
  pose proof Hg as [Hidx Hs]%getShard_Some.
  rewrite Hsh in Hi. destruct (decide (i = idx)) as [->|Hne].
  - rewrite list_lookup_insert_eq in Hi by (by eapply lookup_lt_Some).
    injection Hi as <-. destruct (Hdom k Hk) as [->|Hk']; [done|].
    by eapply Hp.
  - rewrite list_lookup_insert_ne in Hi by done. by eapply Hp.
Qed.

Lemma placed_rangeShards body c :
  (∀ s p k, is_Some (store (body s p).1 !! k) → is_Some (store s !! k)) →
  placed c → placed (rangeShards body c).
Proof.
  intros Hdom Hp i s' k Hi Hk.
  pose proof (rangeShards_frame body c) as (Hn & _). simpl in Hn.
  rewrite (shardIndex_numShards c (rangeShards body c) k Hn).
  pose proof (rangeShards_shards body c) as HF.
  eapply Forall2_lookup_r in HF as (s & Hs & p & Heq); [|exact Hi].
  subst s'. eapply Hp; [exact Hs|]. by eapply Hdom.
Qed.

Lemma placed_step r c c' : placed c → step r c c' → placed c'.
Proof.
  intros Hp Hstep. destruct Hstep as
    [c key value ttlArgs tD tO tA order c' _ H|c key tNow tFresh c' res H
    |c key c' H|c|c tNow].
  - pose proof (Set_frame _ _ _ _ _ _ _ _ _ _ H) as (Hn & _).
    pose proof H as (idx & s & Hg & _ & _ & Hsh)%Set_inv. simpl in Hsh.
    eapply placed_update; [exact Hg|exact Hn|exact Hsh| |exact Hp].
    intros k. rewrite insertPhase_store.
    destruct (decide (k = key)) as [->|Hne]; [by left|].
    rewrite lookup_insert_ne by done. intros [e He]. right.
    destruct (store s !! k) as [e0|] eqn:Hk; [done|].
    by rewrite (evictPhase_keeps_absent r c s key order k Hk) in He.
  - apply Get_inv in H.
    destruct H as [idx s Hg Hk|idx s e Hg Hk Hx|idx s e Hg Hk Hx].
    + done.
    + unfold lazyDelete.
      destruct (expired (Expiration e) (UnixNano tFresh)); [|done].
      eapply (placed_update c _ key idx s); [done|done|done| |done].
      intros k [e' He']. right. simpl in He'.
      apply lookup_delete_Some in He' as [_ He']. eauto.
    + eapply (placed_update c _ key idx s); [done|done|done| |done].
      intros k. simpl. destruct (decide (k = key)) as [->|Hne]; [by left|].
      rewrite lookup_insert_ne by done. by right.
  - destruct (getShard c key) as [[idx s]|] eqn:Hg;
      [|by unfold Delete in H; rewrite Hg in H].
    destruct (store s !! key) as [e|] eqn:Hk.
    + rewrite (Delete_present c key idx s e Hg Hk) in H. injection H as <-.
      eapply (placed_update c _ key idx s); [done|done|done| |done].
      intros k [e' He']. right. simpl in He'.
      apply lookup_delete_Some in He' as [_ He']. eauto.
    + rewrite (Delete_absent c key idx s Hg Hk) in H. by injection H as <-.
  - apply placed_rangeShards; [|done]. intros s p k.
    rewrite clearShard_empty. simpl. rewrite lookup_empty.
    by intros [? ?].
  - apply placed_rangeShards; [|done]. intros s p k [e He].
    apply cleanupShard_clean in He as [He _]. eauto.
Qed.

Lemma placed_reachable r c : reachable r c → placed c.
Proof.
  induction 1 as [|c c' _ IH Hstep]; [|by eapply placed_step].
  intros i s k Hi [e He]. unfold NewKVCacheWithCapacity in Hi.
  cbn [shards] in Hi. apply lookup_replicate in Hi as [-> _].
  simpl in He. by rewrite lookup_empty in He.
Qed.

(** X12.  Placement: in every reachable state of either revision the cache
    has 256 shards and every key is held by the shard its FNV-1a hash routes
    it to, so no key is held twice and an entry held anywhere is the one
    a lookup of its key finds. *)
Theorem keys_live_where_they_route r c :
  reachable r c →
  numShards c = 256 ∧ length (shards c) = 256%nat ∧
  (∀ i s k, shards c !! i = Some s → is_Some (store s !! k) →
            i = Z.to_nat (Sum32 k mod 256)) ∧
  (∀ i s k e, shards c !! i = Some s → store s !! k = Some e →
              entryOf c k = Some e).
Proof.
  intros Hr. pose proof (reachable_shape r c Hr) as [Hn Hl].
  pose proof (placed_reachable r c Hr) as Hp.
  split; [done|]. split; [done|]. split.
  - intros i s k Hi Hk. specialize (Hp i s k Hi Hk).
    unfold shardIndex in Hp. rewrite Hn in Hp. by injection Hp as <-.
  - intros i s k e Hi Hk.
    rewrite (entryOf_getShard c k i s); [done|].
    apply getShard_intro; [|done]. eapply Hp; eauto.
Qed.

(** *** Capacity *)

Lemma shard_fits_subset cap s s' :
  shard_fits cap s → count_ok s' → store s' ⊆ store s → shard_fits cap s'.
Proof.
  intros (_ & Hpl & Hcap) Hs' Hsub. split; [done|]. split.
  - intros k e Hk. apply (Hpl k e).
    by eapply lookup_weaken.
  - apply map_subseteq_size in Hsub. lia.
Qed.

Lemma shard_fits_delete cap s key :
  shard_fits cap s → is_Some (store s !! key) →
  shard_fits cap (mkShard (delete key (store s)) (wrap_i64 (size s - 1))).
Proof.
  intros Hf Hk. eapply shard_fits_subset; [exact Hf| |apply delete_subseteq].
  apply count_ok_delete; [apply Hf|done].
Qed.

Lemma shard_fits_touch cap s key e value expiration la :
  shard_fits cap s → store s !! key = Some e → key ≠ "" → la < MaxInt64 →
  shard_fits cap (mkShard (<[key := mkEntry value expiration la]> (store s))
                          (size s)).
Proof.
  intros (Hc & Hpl & Hcap) Hk Hne Hla. split; [|split].
  - pose proof (count_ok_insert s key (mkEntry value expiration la) Hc) as H.
    by rewrite Hk in H.
  - intros k e' He'. simpl in He'.
    apply lookup_insert_Some in He' as [[<- <-]|[_ He']]; [done|].
    by apply (Hpl k e').
  - simpl. rewrite map_size_insert_Some by eauto. done.
Qed.

(** On a non-empty shard of a plain run, [evictOldest] removes a key. *)
Lemma evictOldestOf_removes r c s order :
  order ≡ₚ map_to_list (store s) → plain_shard s → store s ≠ ∅ →
  ∃ i k e,
    first_min (examined r order) i k e ∧ store s !! k = Some e ∧
    evictOldestOf r c s order =
      (set_evictions (set_entryPool c (poolPut (entryPool c) e))
                     (wrap_u64 (evictions c + 1)),
       mkShard (delete k (store s)) (wrap_i64 (size s - 1))).
Proof.
  intros Hperm Hpl Hne.
  assert (∀ x, x ∈ order → store s !! x.1 = Some x.2) as Hord.
  { intros [k e] Hx. rewrite Hperm in Hx. by apply elem_of_map_to_list. }
  assert (order ≠ []) as Hnil.
  { intros ->. apply Permutation_nil_l in Hperm.
    symmetry in Hperm. by apply map_to_list_empty_iff in Hperm. }
  assert (∀ x, x ∈ examined r order → x ∈ order) as Hsub.
  { intros x Hx. destruct r; simpl in Hx; [|done].
    by apply subseteq_take in Hx. }
  assert (examined r order ≠ []) as Hex.
  { destruct r; simpl; [|done]. destruct order; [done|].
    by vm_compute. }
  destruct (scanLoop_spec (examined r order) "" MaxInt64)
    as [[_ Hall]|(i & k & e & Hm & Hlt & _)].
  - exfalso. destruct (examined r order) as [|x l] eqn:E; [done|].
    assert (x ∈ order) as Hx by (apply Hsub; left).
    specialize (Hall x ltac:(left)). apply Hord in Hx.
    apply Hpl in Hx as [_ Hx]. lia.
  - assert (store s !! k = Some e) as Hk.
    { destruct Hm as (Hi & _). apply list_elem_of_lookup_2 in Hi.
      by apply Hsub, Hord in Hi. }
    pose proof (Hpl k e Hk) as [Hkne _].
    exists i, k, e. split; [done|]. split; [done|]. destruct r; simpl.
    + by eapply evictOldest_first_min.
    + by eapply evictOldest_fullScan_first_min.
Qed.

Lemma shard_fits_Set r c s key value expiration la order :
  0 < maxCapacity c < 2 ^ 63 →
  shard_fits (maxCapacity c) s → key ≠ "" → la < MaxInt64 →
  order ≡ₚ map_to_list (store s) →
  shard_fits (maxCapacity c)
    (insertPhase (evictPhase r c s key order).1
                 (evictPhase r c s key order).2 key value expiration la).2.
Proof.
  intros Hcap Hf Hne Hla Hperm.
  assert (shard_fits (maxCapacity c) (evictPhase r c s key order).2 ∧
          (is_Some (store (evictPhase r c s key order).2 !! key) ∨
           Z.of_nat (card (store (evictPhase r c s key order).2))
             < maxCapacity c)) as [Hf0 Hroom].
  { pose proof Hf as (Hc & Hpl & Hle).
    assert (size s = Z.of_nat (card (store s))) as Hsz.
    { rewrite Hc. apply wrap_i64_small. lia. }
    unfold evictPhase.
    destruct (0 <? maxCapacity c) eqn:E1; [|apply Z.ltb_ge in E1; lia].
    destruct (maxCapacity c <=? size s) eqn:E2; simpl.
    - destruct (store s !! key) as [e0|] eqn:Hk.
      + split; [done|]. left. simpl. by rewrite Hk.
      + apply Z.leb_le in E2.
        assert (store s ≠ ∅) as Hnonempty.
        { intros H0. rewrite H0, map_size_empty in Hsz. lia. }
        destruct (evictOldestOf_removes r c s order Hperm Hpl Hnonempty)
          as (i & k & e & _ & Hke & ->). simpl.
        split; [by apply shard_fits_delete|]. right.
        rewrite map_size_delete, Hke. simpl.
        assert (card (store s) ≠ 0%nat) as Hn0.
        { intros H0%map_size_empty_inv. done. }
        lia.
    - split; [done|]. right. simpl. apply Z.leb_gt in E2. lia. }
  destruct Hf0 as (Hc & Hpl & Hle). split; [|split].
  - by apply count_ok_insertPhase.
  - intros k e. rewrite insertPhase_store.
    intros [[<- <-]|[_ He]]%lookup_insert_Some; [done|]. by apply (Hpl k e).
  - rewrite insertPhase_store. rewrite map_size_insert.
    destruct Hroom as [[e0 ->]|Hroom]; [done|].
    destruct (store (evictPhase r c s key order).2 !! key); simpl; lia.
Qed.

Lemma fits_getShard cap c key idx s :
  Forall (shard_fits cap) (shards c) → getShard c key = Some (idx, s) →
  shard_fits cap s.
Proof.
  intros HF [_ Hs]%getShard_Some. rewrite Forall_lookup in HF. by eapply HF.
Qed.

Lemma fits_step r c c' :
  0 < maxCapacity c < 2 ^ 63 →
  Forall (shard_fits (maxCapacity c)) (shards c) → plain_step r c c' →
  Forall (shard_fits (maxCapacity c)) (shards c').
Proof.
  intros Hcap HF Hstep. destruct Hstep as
    [c key value ttlArgs tD tO tA order c' Hkey Hla Hperm H
    |c key tNow tFresh c' res Hla H|c key c' H|c|c tNow].
  - pose proof H as (idx & s & Hg & _ & _ & Hsh)%Set_inv. simpl in Hsh.
    rewrite Hsh. apply Forall_insert; [done|].
    apply shard_fits_Set; try done; [by eapply fits_getShard|by eapply Hperm].
  - apply Get_inv in H.
    destruct H as [idx s Hg Hk|idx s e Hg Hk Hx|idx s e Hg Hk Hx];
      try pose proof (fits_getShard _ c key idx s HF Hg) as Hs.
    + done.
    + unfold lazyDelete.
      destruct (expired (Expiration e) (UnixNano tFresh)); [|done].
      simpl. apply Forall_insert; [done|]. by apply shard_fits_delete.
    + simpl. apply Forall_insert; [done|].
      eapply shard_fits_touch; [done|done| |done].
      by apply (proj1 (proj2 Hs) key e).
  - destruct (getShard c key) as [[idx s]|] eqn:Hg;
      [|by unfold Delete in H; rewrite Hg in H].
    pose proof (fits_getShard _ c key idx s HF Hg) as Hs.
    destruct (store s !! key) as [e|] eqn:Hk.
    + rewrite (Delete_present c key idx s e Hg Hk) in H. injection H as <-.
      simpl. apply Forall_insert; [done|]. by apply shard_fits_delete.
    + rewrite (Delete_absent c key idx s Hg Hk) in H. by injection H as <-.
  - eapply Forall_impl; [|apply Clear_shards]. intros s ->.
    split; [|split].
    + unfold count_ok. simpl. by rewrite map_size_empty.
    + intros k e. simpl. by rewrite lookup_empty.
    + simpl. rewrite map_size_empty. lia.
  - rewrite Forall_lookup in HF. apply Forall_lookup. intros i s' Hi.
    pose proof (rangeShards_shards (cleanupShard (UnixNano tNow)) c) as H2.
    eapply Forall2_lookup_r in H2 as (s & Hs & p & Heq); [|exact Hi].
    subst s'. eapply shard_fits_subset; [by eapply HF| |].
    + apply count_ok_cleanupShard. by apply (HF i s Hs).
    + apply map_subseteq_spec. intros k e He.
      by apply cleanupShard_clean in He as [He _].
Qed.

Lemma sum_list_bound (cap : Z) (l : list (shard V)) :
  Forall (λ s, Z.of_nat (card (store s)) ≤ cap) l →
  Z.of_nat (sum_list ((λ s, card (store s)) <$> l))
    ≤ Z.of_nat (length l) * cap.
Proof.
  induction 1 as [|s l Hs _ IH]; [simpl; lia|].
  rewrite fmap_cons. cbn [sum_list sum_list_with length].
  rewrite Nat2Z.inj_add, Nat2Z.inj_succ. unfold id, fmap in *. lia.
Qed.

(** X13.  The capacity is respected: in a run of either revision in which
    the empty string is never [Set], no access stamp is [math.MaxInt64]
    and every [Set] visits the whole of its shard, a positive capacity per
    shard bounds the number of keys of every shard at all times, the
    live-count of a shard is exactly its number of keys, and the cache
    holds at most 256 times the capacity. *)
Theorem capacity_is_respected r c :
  plain_reachable r c → 0 < maxCapacity c < 2 ^ 63 →
  Forall (λ s, Z.of_nat (card (store s)) ≤ maxCapacity c ∧
               size s = Z.of_nat (card (store s))) (shards c) ∧
  Z.of_nat (totalKeys c) ≤ 256 * maxCapacity c.
Proof.
  intros Hr Hcap.
  assert (Forall (shard_fits (maxCapacity c)) (shards c)) as HF.
  { induction Hr as [ttl0 cap0|c c' Hr IH Hstep].
    - unfold NewKVCacheWithCapacity in *. cbn [shards maxCapacity] in *.
      apply Forall_replicate. split; [|split].
      + unfold count_ok. simpl. by rewrite map_size_empty.
      + intros k e. simpl. by rewrite lookup_empty.
      + simpl. rewrite map_size_empty. lia.
    - pose proof (step_frame r c c' (plain_step_step r c c' Hstep))
        as (_ & Hm & _).
      rewrite Hm in *. by eapply fits_step; [|apply IH|]. }
  pose proof (reachable_shape r c (plain_reachable_reachable r c Hr))
    as [_ Hl].
  split.
  - eapply Forall_impl; [|exact HF]. intros s (Hc & _ & Hle).
    split; [done|]. rewrite Hc. apply wrap_i64_small. lia.
  - unfold totalKeys. change 256 with (Z.of_nat 256). rewrite <- Hl.
    apply sum_list_bound. eapply Forall_impl; [|exact HF].
    by intros s (_ & _ & ?).
Qed.

End Invariants.

(** ** The victim of an eviction *)

Section Victims.
Context {V : Type}.
Implicit Types (c : KVCache V) (s : shard V) (e : CacheEntry V).
Implicit Types (order : list (string * CacheEntry V)).

(** X14.  The victim of an eviction, in a shard of a plain run: a [Set] of
    a new key into a full shard removes the first entry of least
    [lastAccess] among the entries [evictOldest] examines -- the first five
    visited in the sampling revision, all of them in the earlier one --
    replaces it by the new key and counts one eviction.  In the earlier
    revision the victim is a least recently used entry of the shard. *)
Theorem Set_evicts_least_recent r c key value ttlArgs tDefault tOverride
    tAccess order idx s :
  getShard c key = Some (idx, s) →
  order ≡ₚ map_to_list (store s) → plain_shard s → count_ok s →
  0 < maxCapacity c ≤ size s → store s !! key = None →
  ∃ c1 s1 i victim e,
    SetOf r c key value ttlArgs tDefault tOverride tAccess order = Some c1 ∧
    getShard c1 key = Some (idx, s1) ∧
    first_min (examined r order) i victim e ∧
    store s !! victim = Some e ∧
    store s1 =
      <[key := mkEntry value (setDeadline c ttlArgs tDefault tOverride)
                       (UnixNano tAccess)]> (delete victim (store s)) ∧
    evictions c1 = wrap_u64 (evictions c + 1) ∧
    (r = fullScan →
     ∀ k' e', store s !! k' = Some e' → lastAccess e ≤ lastAccess e').
Proof.
  intros Hg Hperm Hpl Hc Hfull Hnew.
  assert (store s ≠ ∅) as Hne.
  { intros H0. unfold count_ok in Hc. rewrite H0, map_size_empty in Hc.
    change (wrap_i64 (Z.of_nat 0)) with 0 in Hc. lia. }
  destruct (evictOldestOf_removes r c s order Hperm Hpl Hne)
    as (i & victim & e & Hm & Hv & Hev).
  destruct (SetOf_routes r c key value ttlArgs tDefault tOverride tAccess
              order idx s Hg) as [c1 HS].
  pose proof HS as (idx' & s' & Hg' & Hc1 & Hg1 & _)%Set_inv.
  rewrite Hg in Hg'. injection Hg' as <- <-. simpl in *.
  assert (evictPhase r c s key order = evictOldestOf r c s order) as Hph.
  { destruct (evictPhase_cases r c s key order) as [Hq|(_ & _ & _ & Hq)];
      [|done].
    unfold evictPhase in Hq |- *.
    destruct Hfull as [H1%Z.ltb_lt H2%Z.leb_le].
    by rewrite H1, H2, Hnew in *. }
  rewrite Hph, Hev in *. simpl in *.
  eexists c1, _, i, victim, e. split; [done|]. split; [exact Hg1|].
  split; [done|]. split; [done|]. split; [apply insertPhase_store|]. split.
  - subst c1. simpl.
    by pose proof (insertPhase_frame
         (set_evictions (set_entryPool c (poolPut (entryPool c) e))
                        (wrap_u64 (evictions c + 1)))
         (mkShard (delete victim (store s)) (wrap_i64 (size s - 1)))
         key value (setDeadline c ttlArgs tDefault tOverride)
         (UnixNano tAccess)) as (_ & _ & _ & _ & _ & _ & ->).
  - intros -> k' e' Hk'. simpl in Hm. destruct Hm as (_ & Hle & _).
    assert ((k', e') ∈ order) as Hin
      by (rewrite Hperm; by apply elem_of_map_to_list).
    apply list_elem_of_lookup_1 in Hin as [j Hj].
    by apply (Hle j (k', e') Hj).
Qed.

(** X15.  The two revisions of [Set] are related: the sampling revision
    behaves as the earlier one run on the first five visited entries, so
    the two agree on every shard of which at most five entries are
    visited. *)
Theorem revisions_agree_up_to_five c key value ttlArgs tDefault tOverride
    tAccess order :
  SetOf sampling c key value ttlArgs tDefault tOverride tAccess order =
  SetOf fullScan c key value ttlArgs tDefault tOverride tAccess
        (take 5 order) ∧
  ((length order ≤ 5)%nat →
   SetOf sampling c key value ttlArgs tDefault tOverride tAccess order =
   SetOf fullScan c key value ttlArgs tDefault tOverride tAccess order).
Proof.
  assert (SetOf sampling c key value ttlArgs tDefault tOverride tAccess order
          = SetOf fullScan c key value ttlArgs tDefault tOverride tAccess
                  (take 5 order)) as H by apply Set_FullScan.
  split; [done|]. intros Hlen. by rewrite H, take_ge.
Qed.

End Victims.

(** ** Batch operations *)

Lemma wrap_u64_add_l a b : wrap_u64 (wrap_u64 a + b) = wrap_u64 (a + b).
Proof. unfold wrap_u64. by rewrite Zplus_mod_idemp_l. Qed.

Section Batches.
Context {V : Type}.
Implicit Types (c : KVCache V) (s : shard V) (e : CacheEntry V).

(** X16.  [SetMulti] on a cache without capacity stores every pair of its
    map: it returns, every key of the map looks up its value with the
    deadline and stamp of its [Set], every other key looks up what it did
    before, and nothing is evicted. *)
Theorem SetMulti_stores_all r c (visits : list (SetCall V)) ttlArgs :
  wf c → maxCapacity c ≤ 0 → NoDup (callKey <$> visits) →
  ∃ c1,
    SetMulti r c visits ttlArgs = Some c1 ∧
    (∀ v, v ∈ visits →
          entryOf c1 (callKey v) =
            Some (mkEntry (callValue v)
                    (setDeadline c ttlArgs (callDefault v) (callOverride v))
                    (UnixNano (callAccess v)))) ∧
    (∀ k, k ∉ callKey <$> visits → entryOf c1 k = entryOf c k) ∧
    evictions c1 = evictions c ∧ hits c1 = hits c ∧ misses c1 = misses c.
Proof.
  intros Hwf Hcap Hnd. revert c Hwf Hcap.
  induction visits as [|v rest IH]; intros c Hwf Hcap.
  - exists c. split; [done|]. split; [|done].
    intros v Hv. by apply elem_of_nil in Hv.
  - rewrite fmap_cons in Hnd. apply list.NoDup_cons in Hnd as [Hfresh Hnd].
    destruct (getShard_wf c (callKey v) Hwf) as (idx & s & Hg).
    destruct (SetOf_routes r c (callKey v) (callValue v) ttlArgs
                (callDefault v) (callOverride v) (callAccess v) (callOrder v)
                idx s Hg) as [c' HS].
    pose proof (Set_frame _ _ _ _ _ _ _ _ _ _ HS)
      as (Hn & Httl & Hmax & Hh & Hm & Hl).
    destruct (Set_quiet_entryOf r c (callKey v) (callValue v) ttlArgs
                (callDefault v) (callOverride v) (callAccess v) (callOrder v)
                c' idx s Hg) as [Hlook Hev];
      [by apply evictPhase_unbounded|done|].
    assert (wf c') as Hwf'.
    { destruct Hwf as [H1 H2]. split; [by rewrite Hn|by rewrite Hl, Hn]. }
    destruct (IH Hnd c' Hwf' ltac:(by rewrite Hmax))
      as (c1 & HM & Hin & Hout & Hev1 & Hh1 & Hm1).
    exists c1. split; [by cbn [SetMulti]; rewrite HS|].
    assert (∀ tD tO, setDeadline c' ttlArgs tD tO = setDeadline c ttlArgs tD tO)
      as Hd by (intros; unfold setDeadline; by rewrite Httl).
    split; [|split].
    + intros w [->|Hw]%elem_of_cons.
      * rewrite (Hout _ Hfresh), Hlook. by rewrite decide_True.
      * rewrite (Hin w Hw). by rewrite Hd.
    + intros k Hk. rewrite fmap_cons in Hk.
      apply not_elem_of_cons in Hk as [Hk1 Hk2].
      rewrite (Hout k Hk2), Hlook. by rewrite decide_False.
    + repeat split; congruence.
Qed.

Lemma Get_counts c key tNow tFresh c1 res :
  Get c key tNow tFresh = Some (c1, res) →
  wrap_u64 (hits c1 + misses c1) = wrap_u64 (hits c + misses c + 1) ∧
  evictions c1 = evictions c.
Proof.
  intros HG. split; [|by apply Get_frame in HG as (_ & _ & _ & ? & _)].
  apply Get_inv in HG.
  destruct HG as [idx s Hg Hk|idx s e Hg Hk Hx|idx s e Hg Hk Hx]; simpl.
  - rewrite Z.add_comm, wrap_u64_add_l. f_equal. lia.
  - assert (hits (lazyDelete c idx s key e tFresh) = hits c) as ->.
    { unfold lazyDelete.
      by destruct (expired (Expiration e) (UnixNano tFresh)). }
    rewrite Z.add_comm, wrap_u64_add_l. f_equal. lia.
  - rewrite wrap_u64_add_l. f_equal. lia.
Qed.

(** [Get] never changes the value or the deadline of an entry. *)
Lemma Get_keeps_back c key tNow tFresh c1 res k e1 :
  Get c key tNow tFresh = Some (c1, res) → entryOf c1 k = Some e1 →
  ∃ e, entryOf c k = Some e ∧ Value e = Value e1 ∧
       Expiration e = Expiration e1.
Proof.
  intros HG. rewrite (Get_entryOf c key tNow tFresh c1 res HG k).
  case_decide as Hk; [subst k|by eauto].
  destruct (entryOf c key) as [e|]; [|done].
  destruct (expired (Expiration e) (UnixNano tNow)).
  - destruct (expired (Expiration e) (UnixNano tFresh)); [done|].
    intros [= <-]. eauto.
  - intros [= <-]. eauto.
Qed.

Lemma Get_keeps_forth c key tNow tFresh c1 res k e :
  Get c key tNow tFresh = Some (c1, res) → entryOf c k = Some e →
  (key = k → expired (Expiration e) (UnixNano tNow) = false) →
  ∃ e1, entryOf c1 k = Some e1 ∧ Value e1 = Value e ∧
        Expiration e1 = Expiration e.
Proof.
  intros HG Hk Hlive. rewrite (Get_entryOf c key tNow tFresh c1 res HG k).
  case_decide as Heq; [subst k|by eauto].
  rewrite Hk, (Hlive eq_refl). eauto.
Qed.

Lemma GetMultiLoop_spec c (reqs : list (string * Z * Z))
    (result0 : gmap string (option V)) :
  wf c →
  ∃ c1 result,
    GetMultiLoop c reqs result0 = Some (c1, result) ∧
    evictions c1 = evictions c ∧
    wrap_u64 (hits c1 + misses c1) =
      wrap_u64 (hits c + misses c + Z.of_nat (length reqs)) ∧
    (∀ k v, result !! k = Some v →
            result0 !! k = Some v ∨
            k ∈ reqs.*1.*1 ∧ ∃ e, entryOf c k = Some e ∧ Value e = v) ∧
    (∀ k e, entryOf c k = Some e →
            Forall (λ req, req.1.1 = k →
                           expired (Expiration e) (UnixNano req.1.2) = false)
                   reqs →
            result0 !! k = Some (Value e) ∨ k ∈ reqs.*1.*1 →
            result !! k = Some (Value e)).
Proof.
  revert c result0.
  induction reqs as [|[[key tNow] tFresh] rest IH]; intros c result0 Hwf.
  - exists c, result0. split; [done|]. split; [done|].
    split; [by rewrite Z.add_0_r|]. split; [by left|].
    intros k e _ _ [H|H]; [done|by apply elem_of_nil in H].
  - destruct (Get_total c key tNow tFresh Hwf) as (c' & [value ok] & HG).
    assert (wf c') as Hwf'.
    { apply Get_frame in HG as (Hn & _ & _ & _ & Hl).
      destruct Hwf as [H1 H2]. split; [by rewrite Hn|by rewrite Hl, Hn]. }
    destruct (IH c' (if ok then <[key := value]> result0 else result0) Hwf')
      as (c1 & result & HL & Hev & Hcnt & Hsound & Hcompl).
    pose proof (Get_counts c key tNow tFresh c' _ HG) as [Hcnt' Hev'].
    pose proof (Get_by_entryOf c key tNow tFresh c' _ HG) as Hres.
    exists c1, result. split; [by cbn [GetMultiLoop]; rewrite HG|].
    split; [congruence|]. split; [|split].
    + rewrite Hcnt, <- wrap_u64_add_l, Hcnt', wrap_u64_add_l.
      f_equal. cbn [length]. lia.
    + intros k v Hk. rewrite !fmap_cons. cbn [fst].
      destruct (Hsound k v Hk) as [H0|(Hin & e1 & He1 & Hv)].
      * destruct ok; [|by left].
        apply lookup_insert_Some in H0 as [[<- <-]|[_ H0]]; [|by left].
        right. split; [by left|].
        destruct (entryOf c key) as [e|]; [|done].
        destruct (expired (Expiration e) (UnixNano tNow)); [done|].
        injection Hres as ->. eauto.
      * right. split; [by right|].
        destruct (Get_keeps_back c key tNow tFresh c' _ k e1 HG He1)
          as (e & He & Hve & _).
        exists e. split; [done|congruence].
    + intros k e Hk Hlive Hin. rewrite !fmap_cons in Hin. cbn [fst] in Hin.
      apply list.Forall_cons in Hlive as [Hhere Hlive]. simpl in Hhere.
      destruct (Get_keeps_forth c key tNow tFresh c' _ k e HG Hk Hhere)
        as (e1 & He1 & Hv1 & Hx1).
      rewrite <- Hv1. apply Hcompl; [done| |].
      * eapply Forall_impl; [|exact Hlive]. intros req Hreq Heq.
        rewrite Hx1. by apply Hreq.
      * rewrite Hv1. destruct (decide (k = key)) as [->|Hne].
        -- left. rewrite Hk, (Hhere eq_refl) in Hres.
           injection Hres as -> ->. apply lookup_insert_eq.
        -- destruct Hin as [H0|[?|Hin]%elem_of_cons]; [|done|by right].
           left. destruct ok; [by rewrite lookup_insert_ne|done].
Qed.

(** X17.  [GetMulti] returns a map of the keys found: it does not panic;
    every key of the result was asked for and holds the value of the entry
    stored under it; a key asked for whose entry is not expired at any of
    the clock readings of its lookups is in the result; nothing is evicted
    and [hits + misses] advances by the number of keys asked for. *)
Theorem GetMulti_returns_found c (reqs : list (string * Z * Z)) :
  wf c →
  ∃ c1 result,
    GetMulti c reqs = Some (c1, result) ∧
    (∀ k v, result !! k = Some v →
            k ∈ reqs.*1.*1 ∧ ∃ e, entryOf c k = Some e ∧ Value e = v) ∧
    (∀ k e, k ∈ reqs.*1.*1 → entryOf c k = Some e →
            Forall (λ req, req.1.1 = k →
                           expired (Expiration e) (UnixNano req.1.2) = false)
                   reqs →
            result !! k = Some (Value e)) ∧
    evictions c1 = evictions c ∧
    wrap_u64 (hits c1 + misses c1) =
      wrap_u64 (hits c + misses c + Z.of_nat (length reqs)).
Proof.
  intros Hwf.
  destruct (GetMultiLoop_spec c reqs ∅ Hwf)
    as (c1 & result & HL & Hev & Hcnt & Hsound & Hcompl).
  exists c1, result. split; [done|]. split; [|split; [|done]].
  - intros k v Hk. destruct (Hsound k v Hk) as [H0|H]; [|done].
    by rewrite lookup_empty in H0.
  - intros k e Hin Hk Hlive. apply Hcompl; [done|done|by right].
Qed.

End Batches.

(** ** Concrete instances of the further properties *)

Lemma wf_afterSet : wf afterSet.
Proof. wf_by_computation. Qed.

Lemma wf_fresh : wf fresh.
Proof. wf_by_computation. Qed.

Lemma reachable_afterSet : reachable sampling afterSet.
Proof.
  apply (reach_step sampling fresh afterSet).
  - exact (reach_new sampling fiveMinutes 0).
  - apply (step_Set sampling fresh "user:1" (Some 30) [] t0 t0 t0 []
             afterSet).
    + intros idx s H. vm_compute in H. injection H as _ <-.
      vm_compute. constructor.
    + vm_compute. reflexivity.
Qed.

Lemma Delete_removes_only_its_key_witness :
  wf afterSet ∧
  ∃ c1, Delete afterSet "user:1" = Some c1 ∧
        entryOf c1 "user:1" = None ∧ entryOf c1 "user:2" = None ∧
        Delete c1 "user:1" = Some c1.
Proof.
  split; [exact wf_afterSet|].
  destruct (Delete_removes_only_its_key afterSet "user:1" wf_afterSet)
    as (c1 & HD & Hl & _ & _ & _ & Hi & _).
  exists c1. split; [exact HD|].
  split; [|split; [|exact Hi]]; rewrite Hl; vm_compute; reflexivity.
Defined.

Lemma Get_effect_witness :
  wf afterSet ∧
  ∃ c1, Get afterSet "user:1" (t0 + 1) (t0 + 1) = Some (c1, (Some 30, true)) ∧
        entryOf c1 "user:1" =
          Some (mkEntry (Some 30) (t0 + fiveMinutes) (t0 + 1)) ∧
        evictions c1 = 0.
Proof.
  split; [exact wf_afterSet|].
  destruct (Get_effect afterSet "user:1" (t0 + 1) (t0 + 1) wf_afterSet)
    as (c1 & res & HG & He & _ & Hm).
  assert (entryOf afterSet "user:1" = Some user1) as Hk
    by (vm_compute; reflexivity).
  assert (expired (Expiration user1) (UnixNano (t0 + 1)) = false) as Hx
    by (vm_compute; reflexivity).
  rewrite Hk, Hx in Hm. destruct Hm as [-> Hl].
  exists c1. split; [exact HG|]. split; [exact Hl|exact He].
Defined.

Lemma Get_twice_witness :
  wf afterSet ∧ entryOf afterSet "user:1" = Some user1 ∧
  ∃ c1 c2,
    Get afterSet "user:1" (t0 + 1) (t0 + 1) = Some (c1, (Some 30, true)) ∧
    Get c1 "user:1" (t0 + 2) (t0 + 2) = Some (c2, (Some 30, true)) ∧
    hits c2 = 2.
Proof.
  assert (entryOf afterSet "user:1" = Some user1) as Hk
    by (vm_compute; reflexivity).
  split; [exact wf_afterSet|]. split; [exact Hk|].
  destruct (Get_twice afterSet "user:1" user1 (t0 + 1) (t0 + 1) (t0 + 2)
              (t0 + 2) wf_afterSet Hk)
    as (c1 & c2 & HG1 & HG2 & Hh & _).
  - right. vm_compute. intros H. discriminate H.
  - right. vm_compute. intros H. discriminate H.
  - exists c1, c2. split; [exact HG1|]. split; [exact HG2|exact Hh].
Defined.

Lemma Set_unbounded_keeps_all_witness :
  wf fresh ∧ maxCapacity fresh ≤ 0 ∧
  ∃ c1, SetOf sampling fresh "user:1" (Some 30) [] t0 t0 t0 [] = Some c1 ∧
        entryOf c1 "user:1" = Some user1 ∧ entryOf c1 "user:2" = None ∧
        evictions c1 = 0.
Proof.
  assert (maxCapacity fresh ≤ 0) as Hcap
    by (vm_compute; intros H; discriminate H).
  split; [exact wf_fresh|]. split; [exact Hcap|].
  destruct (Set_unbounded_keeps_all sampling fresh "user:1" (Some 30) [] t0
              t0 t0 [] wf_fresh Hcap) as (c1 & HS & Hl & He).
  exists c1. split; [exact HS|].
  split; [|split; [|exact He]]; rewrite Hl; vm_compute; reflexivity.
Defined.

Lemma Set_evicts_at_most_one_witness :
  getShard boundedFull "ak" = Some (197%nat, emptyKeyShard) ∧
  ∃ c1 s1,
    SetOf sampling boundedFull "ak" (Some 2) [] t0 t0 t0
          [("", emptyKeyEntry)] = Some c1 ∧
    getShard c1 "ak" = Some (197%nat, s1).
Proof.
  assert (getShard boundedFull "ak" = Some (197%nat, emptyKeyShard)) as Hg
    by (vm_compute; reflexivity).
  split; [exact Hg|].
  destruct (Set_evicts_at_most_one sampling boundedFull "ak" (Some 2) [] t0
              t0 t0 [("", emptyKeyEntry)] 197%nat emptyKeyShard Hg)
    as (c1 & s1 & HS & Hg1 & _).
  exists c1, s1. split; [exact HS|exact Hg1].
Defined.

Lemma Set_twice_last_wins_witness :
  wf fresh ∧
  ∃ c1 c2 c3,
    SetOf sampling fresh "user:1" (Some 30) [] t0 t0 t0 [] = Some c1 ∧
    SetOf sampling c1 "user:1" (Some 31) [] (t0 + 1) (t0 + 1) (t0 + 1)
          [("user:1", user1)] = Some c2 ∧
    Get c2 "user:1" (t0 + 2) (t0 + 2) = Some (c3, (Some 31, true)) ∧
    evictions c2 = evictions c1.
Proof.
  split; [exact wf_fresh|].
  destruct (Set_twice_last_wins sampling fresh "user:1" (Some 30) (Some 31)
              [] [] t0 t0 t0 [] (t0 + 1) (t0 + 1) (t0 + 1)
              [("user:1", user1)] (t0 + 2) (t0 + 2) wf_fresh)
    as (c1 & c2 & c3 & HS1 & HS2 & HG & He & _).
  - right. vm_compute. intros H. discriminate H.
  - exists c1, c2, c3. split; [exact HS1|]. split; [exact HS2|].
    split; [exact HG|exact He].
Defined.

Lemma Set_then_expired_witness :
  wf fresh ∧
  ∃ c1 c2,
    SetOf sampling fresh "user:1" (Some 30) [] t0 t0 t0 [] = Some c1 ∧
    Get c1 "user:1" (t0 + fiveMinutes + 1) (t0 + fiveMinutes + 1)
      = Some (c2, (None, false)) ∧
    entryOf c2 "user:1" = None.
Proof.
  split; [exact wf_fresh|].
  destruct (Set_then_expired sampling fresh "user:1" (Some 30) [] t0 t0 t0 []
              (t0 + fiveMinutes + 1) (t0 + fiveMinutes + 1) t0 fiveMinutes
              wf_fresh)
    as (c1 & c2 & HS & HG & _ & _ & Hgone).
  - vm_compute. reflexivity.
  - vm_compute. reflexivity.
  - vm_compute. reflexivity.
  - vm_compute. reflexivity.
  - exists c1, c2. split; [exact HS|]. split; [exact HG|].
    apply Hgone. vm_compute. reflexivity.
Defined.

Lemma Size_counts_keys_witness :
  reachable sampling afterSet ∧
  Size afterSet = 1 ∧ StatsSize (Stats afterSet) = 1.
Proof.
  split; [exact reachable_afterSet|].
  destruct (Size_counts_keys sampling afterSet reachable_afterSet)
    as [_ Hexact].
  destruct Hexact as [H1 H2]; [vm_compute; reflexivity|].
  split; [rewrite H1|rewrite H2]; vm_compute; reflexivity.
Defined.

Lemma Clear_then_empty_witness :
  wf afterSet ∧ Size (Clear afterSet) = 0 ∧
  entryOf (Clear afterSet) "user:1" = None.
Proof.
  split; [exact wf_afterSet|].
  destruct (Clear_then_empty afterSet wf_afterSet) as (HS & _ & Hl & _).
  split; [exact HS|exact (Hl "user:1")].
Defined.

Lemma cleanup_invisible_to_Get_witness :
  wf afterSet ∧ UnixNano (t0 + 1) ≤ UnixNano (t0 + 2) ∧
  ∃ c1 c2 res,
    Get afterSet "user:1" (t0 + 2) (t0 + 2) = Some (c1, res) ∧
    Get (cleanupTick afterSet (t0 + 1)) "user:1" (t0 + 2) (t0 + 2)
      = Some (c2, res).
Proof.
  assert (UnixNano (t0 + 1) ≤ UnixNano (t0 + 2)) as Hle
    by (vm_compute; intros H; discriminate H).
  split; [exact wf_afterSet|]. split; [exact Hle|].
  exact (cleanup_invisible_to_Get afterSet "user:1" (t0 + 1) (t0 + 2)
           (t0 + 2) (t0 + 2) wf_afterSet Hle).
Defined.

Lemma keys_live_where_they_route_witness :
  reachable sampling afterSet ∧
  shards afterSet !! 203%nat = Some user1Shard ∧
  store user1Shard !! "user:1" = Some user1 ∧
  203%nat = Z.to_nat (Sum32 "user:1" mod 256) ∧
  entryOf afterSet "user:1" = Some user1.
Proof.
  assert (shards afterSet !! 203%nat = Some user1Shard) as Hi
    by (vm_compute; reflexivity).
  assert (store user1Shard !! "user:1" = Some user1) as Hk
    by (vm_compute; reflexivity).
  split; [exact reachable_afterSet|]. split; [exact Hi|]. split; [exact Hk|].
  destruct (keys_live_where_they_route sampling afterSet reachable_afterSet)
    as (_ & _ & Hroute & Hfind).
  split.
  - apply (Hroute 203%nat user1Shard "user:1" Hi). rewrite Hk. eexists.
    reflexivity.
  - exact (Hfind 203%nat user1Shard "user:1" user1 Hi Hk).
Defined.

Lemma plain_reachable_boundedAk : plain_reachable sampling boundedAk.
Proof.
  apply (plain_next sampling bounded boundedAk).
  - exact (plain_new sampling fiveMinutes 1).
  - apply (plain_Set sampling bounded "ak" (Some 2) [] t0 t0 t0 [] boundedAk).
    + intros H. discriminate H.
    + vm_compute. reflexivity.
    + intros idx s H. vm_compute in H. injection H as _ <-.
      vm_compute. constructor.
    + vm_compute. reflexivity.
Qed.

Lemma capacity_is_respected_witness :
  plain_reachable sampling boundedAk ∧ 0 < maxCapacity boundedAk < 2 ^ 63 ∧
  Forall (λ s, Z.of_nat (card (store s)) ≤ 1) (shards boundedAk) ∧
  Z.of_nat (totalKeys boundedAk) ≤ 256.
Proof.
  assert (0 < maxCapacity boundedAk < 2 ^ 63) as Hcap
    by (split; vm_compute; reflexivity).
  split; [exact plain_reachable_boundedAk|]. split; [exact Hcap|].
  destruct (capacity_is_respected sampling boundedAk
              plain_reachable_boundedAk Hcap) as [HF Ht].
  split; [|exact Ht].
  eapply Forall_impl; [|exact HF]. intros s [H _]. exact H.
Defined.

Lemma Set_evicts_least_recent_witness :
  getShard sixFull "key498" = Some (1%nat, sixShard) ∧
  sixVisit ≡ₚ map_to_list (store sixShard) ∧
  plain_shard sixShard ∧ count_ok sixShard ∧
  0 < maxCapacity sixFull ≤ size sixShard ∧
  store sixShard !! "key498" = None ∧
  ∃ c1 s1 victim e,
    SetOf fullScan sixFull "key498" (Some 6) [] (t0 + 6) (t0 + 6) (t0 + 6)
          sixVisit = Some c1 ∧
    getShard c1 "key498" = Some (1%nat, s1) ∧
    store sixShard !! victim = Some e ∧
    lastAccess e ≤ lastAccess (sixEntry 3) ∧
    evictions c1 = 1.
Proof.
  assert (getShard sixFull "key498" = Some (1%nat, sixShard)) as Hg
    by (vm_compute; reflexivity).
  assert (sixVisit ≡ₚ map_to_list (store sixShard)) as Hperm.
  { symmetry. apply map_to_list_to_map.
    apply (bool_decide_unpack _). vm_compute. exact I. }
  assert (plain_shard sixShard) as Hpl.
  { apply (bool_decide_unpack _). vm_compute. exact I. }
  assert (count_ok sixShard) as Hc by (vm_compute; reflexivity).
  assert (0 < maxCapacity sixFull ≤ size sixShard) as Hfull.
  { split; [vm_compute; reflexivity|vm_compute; intros H; discriminate H]. }
  assert (store sixShard !! "key498" = None) as Hnew
    by (vm_compute; reflexivity).
  repeat (split; [assumption|]).
  destruct (Set_evicts_least_recent fullScan sixFull "key498" (Some 6) []
              (t0 + 6) (t0 + 6) (t0 + 6) sixVisit 1%nat sixShard
              Hg Hperm Hpl Hc Hfull Hnew)
    as (c1 & s1 & i & victim & e & HS & Hg1 & _ & Hv & _ & He & Hlru).
  exists c1, s1, victim, e. split; [exact HS|]. split; [exact Hg1|].
  split; [exact Hv|]. split; [|exact He].
  apply (Hlru eq_refl "key353"). vm_compute. reflexivity.
Defined.

Lemma revisions_agree_up_to_five_witness :
  (length [("user:1", user1)] ≤ 5)%nat ∧
  SetOf sampling afterSet "user:2" (Some 31) [] t0 t0 t0 [("user:1", user1)] =
  SetOf fullScan afterSet "user:2" (Some 31) [] t0 t0 t0 [("user:1", user1)].
Proof.
  assert (length [("user:1", user1)] ≤ 5)%nat as Hlen by (simpl; lia).
  split; [exact Hlen|].
  destruct (revisions_agree_up_to_five afterSet "user:2" (Some 31) [] t0 t0
              t0 [("user:1", user1)]) as [_ Hsame].
  exact (Hsame Hlen).
Defined.

Lemma SetMulti_stores_all_witness :
  wf fresh ∧ maxCapacity fresh ≤ 0 ∧ NoDup (callKey <$> twoCalls) ∧
  ∃ c1,
    SetMulti sampling fresh twoCalls [] = Some c1 ∧
    entryOf c1 "b" = Some (mkEntry (Some 2) (t0 + 1 + fiveMinutes) (t0 + 1)) ∧
    entryOf c1 "c" = None ∧ evictions c1 = 0.
Proof.
  assert (maxCapacity fresh ≤ 0) as Hcap
    by (vm_compute; intros H; discriminate H).
  assert (NoDup (callKey <$> twoCalls)) as Hnd.
  { apply (bool_decide_unpack _). vm_compute. exact I. }
  split; [exact wf_fresh|]. split; [exact Hcap|]. split; [exact Hnd|].
  destruct (SetMulti_stores_all sampling fresh twoCalls [] wf_fresh Hcap Hnd)
    as (c1 & HM & Hin & Hout & He & _).
  exists c1. split; [exact HM|]. split; [|split; [|exact He]].
  - apply (Hin (mkSetCall "b" (Some 2) (t0 + 1) (t0 + 1) (t0 + 1) [])).
    right. left.
  - rewrite Hout; [vm_compute; reflexivity|].
    apply (bool_decide_unpack _). vm_compute. exact I.
Defined.

Lemma GetMulti_returns_found_witness :
  wf afterSet ∧
  ∃ c1 result,
    GetMulti afterSet twoKeys = Some (c1, result) ∧
    result !! "user:1" = Some (Some 30) ∧ result !! "nobody" = None.
Proof.
  split; [exact wf_afterSet|].
  destruct (GetMulti_returns_found afterSet twoKeys wf_afterSet)
    as (c1 & result & HG & Hsound & Hcompl & _).
  exists c1, result. split; [exact HG|]. split.
  - apply (Hcompl "user:1" user1).
    + left.
    + vm_compute. reflexivity.
    + repeat constructor; intros _; vm_compute; reflexivity.
  - destruct (result !! "nobody") as [v|] eqn:E; [|reflexivity].
    destruct (Hsound "nobody" v E) as (_ & e & He & _).
    vm_compute in He. discriminate He.
Defined.
